(** Shallow embedding of the Tuya device client (wire frame codec,
    authenticated-encryption envelope, client and session manager) and
    proofs of its specified properties. *)

From Stdlib Require Import String.
From Stdlib Require Import ZArith List Bool Lia.
From Stdlib Require Strings.Byte.
From Stdlib Require Import Morphisms.
From Stdlib Require Uint63.
From AAC_tactics Require Import AAC.
Import ListNotations.
Open Scope Z_scope.

Import ListNotations.
Open Scope Z_scope.

(** * Bytes and fixed-width integers *)

Abbreviation byte := Byte.byte.

Module Bytes.

(** [uint32(b)] / [int(b)] for a byte. *)
Definition b2z (b : byte) : Z := Z.of_N (Byte.to_N b).

(** Go's [byte(x)] conversion: keep the low eight bits. *)
Definition z2b (z : Z) : byte :=
  match Byte.of_N (Z.to_N (z mod 256)) with
  | Some b => b
  | None => Byte.x00
  end.

(** Go's [uint32(x)] conversion of an [int]: wrap modulo 2^32. *)
Definition uint32 (z : Z) : Z := z mod 2 ^ 32.

(** [^x] on a [uint32]. *)
Definition not32 (z : Z) : Z := Z.lxor z 0xffffffff.

Definition bxor (a b : byte) : byte := z2b (Z.lxor (b2z a) (b2z b)).

Definition beqb (a b : byte) : bool := b2z a =? b2z b.

Fixpoint bytes_eqb (x y : list byte) : bool :=
  match x, y with
  | [], [] => true
  | a :: x', b :: y' => beqb a b && bytes_eqb x' y'
  | _, _ => false
  end.

(** [bytes.HasPrefix]. *)
Fixpoint HasPrefix (s prefix : list byte) {struct prefix} : bool :=
  match prefix, s with
  | [], _ => true
  | p :: prefix', a :: s' => beqb a p && HasPrefix s' prefix'
  | _ :: _, [] => false
  end.

(** [binary.BigEndian.PutUint32]. *)
Definition PutUint32 (v : Z) : list byte :=
  [z2b (Z.shiftr v 24); z2b (Z.shiftr v 16); z2b (Z.shiftr v 8); z2b v].

(** [binary.BigEndian.Uint32] on the first four bytes of [b]
    (the caller has checked that they are there). *)
Definition Uint32 (b : list byte) : Z :=
  Z.lor (Z.lor (Z.lor (b2z (nth 3 b Byte.x00))
                      (Z.shiftl (b2z (nth 2 b Byte.x00)) 8))
               (Z.shiftl (b2z (nth 1 b Byte.x00)) 16))
        (Z.shiftl (b2z (nth 0 b Byte.x00)) 24).

(** [s[i] = v] on a byte slice, for an index in range. *)
Fixpoint set_nth (i : nat) (v : byte) (s : list byte) : list byte :=
  match s, i with
  | [], _ => []
  | _ :: s', O => v :: s'
  | a :: s', S i' => a :: set_nth i' v s'
  end.

(** The bytes of a string literal. *)
Definition of_string (s : string) : list byte := list_byte_of_string s.

(** All 256 byte values, in order. *)
Definition all_bytes : list byte := map (fun n => z2b (Z.of_nat n)) (seq 0 256).

End Bytes.
Import Bytes.

(** * hash/crc32, IEEE polynomial (the table-driven reference implementation) *)

Module CRC32.

Definition IEEE : Z := 0xedb88320.

(** One round of the inner loop of [simplePopulateTable]. *)
Definition shift1 (poly crc : Z) : Z :=
  if Z.odd crc then Z.lxor (Z.shiftr crc 1) poly else Z.shiftr crc 1.

Definition table_entry (poly i : Z) : Z :=
  Nat.iter 8 (shift1 poly) i.

(** [simpleMakeTable(IEEE)], evaluated once. *)
Definition IEEETable : list Z :=
  Eval vm_compute in map (fun n => table_entry IEEE (Z.of_nat n)) (seq 0 256).

Definition tab (i : Z) : Z := nth (Z.to_nat i) IEEETable 0.

(** Body of the loop of [simpleUpdate]:
    [crc = tab[byte(crc)^v] ^ (crc >> 8)]. *)
Definition step (crc : Z) (v : byte) : Z :=
  Z.lxor (tab (b2z (bxor (z2b crc) v))) (Z.shiftr crc 8).

(** [simpleUpdate(crc, tab, p)]. *)
Definition Update (crc : Z) (p : list byte) : Z :=
  not32 (fold_left step p (not32 crc)).

Definition ChecksumIEEE (data : list byte) : Z := Update 0 data.

End CRC32.

(** * Wire frames (client.go, frame codec) *)

Module Frame.

Definition prefixValue : Z := 0x55aa.
Definition suffixValue : Z := 0xaa55.
Definition maxPacketSize : Z := 0xffff.

(** [binary.Size(header{})], [binary.Size(trailer{})]. *)
Definition headerSize : Z := 16.
Definition trailerSize : Z := 8.
Definition MaxPayloadSize : Z := maxPacketSize - trailerSize.

Record header := mkHeader { Prefix : Z; hSeq : Z; hCmd : Z; Length : Z }.
Record trailer := mkTrailer { CRC : Z; Suffix : Z }.

(** A Go byte slice seen from its first element: [backing] is the
    underlying array up to the capacity, [len] the visible length. *)
Record slice := mkSlice { backing : list byte; len : nat }.

Definition cap (s : slice) : Z := Z.of_nat (length (backing s)).
Definition contents (s : slice) : list byte := firstn (len s) (backing s).
Definition nil_slice : slice := mkSlice [] 0.
Definition slice_of (l : list byte) : slice := mkSlice l (length l).

(** [make([]byte, n)]. *)
Definition make (n : Z) : slice :=
  mkSlice (repeat Byte.x00 (Z.to_nat n)) (Z.to_nat n).

Record Frame := mkFrame { Seq : Z; Cmd : Z; Payload : slice }.

Inductive IOError := EOF | ErrUnexpectedEOF.

Inductive Error :=
| HeaderRead (e : IOError)
| BadPrefix (prefix : Z)
| PayloadTooLarge (size max : Z)
| PayloadRead (e : IOError)
| TrailerRead (e : IOError)
| BadSuffix (suffix : Z)
| CRCMismatch (sum crc : Z).

(** What a call does: return nil, return an error, or panic at run time. *)
Inductive outcome :=
| Nil
| Err (e : Error)
| Panic (msg : string).

(** [io.ReadFull(r, buf)] on a reader over the bytes [r], for a buffer
    of [n] bytes: the bytes read, the error, the bytes left unread. *)
Definition ReadFull (r : list byte) (n : nat) : list byte * option IOError * list byte :=
  match n with
  | O => ([], None, r)
  | _ =>
      if (length r <? n)%nat
      then (r, Some (match r with [] => EOF | _ => ErrUnexpectedEOF end), [])
      else (firstn n r, None, skipn n r)
  end.

(** [binary.Read(r, binary.BigEndian, &h)]. *)
Definition parse_header (b : list byte) : header :=
  mkHeader (Uint32 b) (Uint32 (skipn 4 b)) (Uint32 (skipn 8 b)) (Uint32 (skipn 12 b)).

Definition parse_trailer (b : list byte) : trailer :=
  mkTrailer (Uint32 b) (Uint32 (skipn 4 b)).

(** [binary.Write(buf, binary.BigEndian, header{...})]. *)
Definition write_header (h : header) : list byte :=
  PutUint32 (Prefix h) ++ PutUint32 (hSeq h) ++ PutUint32 (hCmd h) ++ PutUint32 (Length h).

Definition write_trailer (t : trailer) : list byte :=
  PutUint32 (CRC t) ++ PutUint32 (Suffix t).

(** The buffer [Decode] reads the payload into: the existing one when
    its capacity suffices, a fresh one otherwise. [payloadSize] is
    [int(h.Length) - trailerSize] with Go's [int] at its 64-bit width,
    where the conversion of a [uint32] and the subtraction are exact.
    Where [int] has 32 bits the two agree for every length field below
    2^31; from 0x80000000 on the conversion wraps around. *)
Definition payload_buffer (p : slice) (payloadSize : Z) : outcome * slice :=
  if cap p <? payloadSize then
    if payloadSize >? MaxPayloadSize
    then (Err (PayloadTooLarge payloadSize MaxPayloadSize), p)
    else (Nil, make payloadSize)
  else
    if payloadSize <? 0
    then (Panic "slice bounds out of range"%string, p)
    else (Nil, mkSlice (backing p) (Z.to_nat payloadSize)).

(** [io.ReadFull(rCRC, f.Payload)]: the bytes read overwrite the start
    of the slice. *)
Definition fill (p : slice) (data : list byte) : slice :=
  mkSlice (data ++ skipn (length data) (backing p)) (len p).

(** [Frame.Decode]: outcome, the frame as left behind, unread bytes. *)
Definition Decode (f : Frame) (r : list byte) : outcome * Frame * list byte :=
  let crc := 0 in
  let '(hb, herr, r) := ReadFull r (Z.to_nat headerSize) in
  let crc := CRC32.Update crc hb in
  match herr with
  | Some e => (Err (HeaderRead e), f, r)
  | None =>
      let h := parse_header hb in
      if negb (Prefix h =? prefixValue) then (Err (BadPrefix (Prefix h)), f, r) else
      let f := mkFrame (hSeq h) (hCmd h) (Payload f) in
      let payloadSize := Length h - trailerSize in
      match payload_buffer (Payload f) payloadSize with
      | (Nil, p) =>
          let f := mkFrame (Seq f) (Cmd f) p in
          let '(pb, perr, r) := ReadFull r (len p) in
          let crc := CRC32.Update crc pb in
          let f := mkFrame (Seq f) (Cmd f) (fill p pb) in
          match perr with
          | Some e => (Err (PayloadRead e), f, r)
          | None =>
              let '(tb, terr, r) := ReadFull r (Z.to_nat trailerSize) in
              match terr with
              | Some e => (Err (TrailerRead e), f, r)
              | None =>
                  let t := parse_trailer tb in
                  if negb (Suffix t =? suffixValue) then (Err (BadSuffix (Suffix t)), f, r) else
                  if negb (crc =? CRC t) then (Err (CRCMismatch crc (CRC t)), f, r) else
                  (Nil, f, r)
              end
          end
      | (o, _) => (o, f, r)
      end
  end.

(** [DecodeFrame]: decode into a new frame. *)
Definition DecodeFrame (r : list byte) : outcome * Frame * list byte :=
  Decode (mkFrame 0 0 nil_slice) r.

(** [Frame.buffer]: the wire serialization, or the size error. *)
Definition buffer (f : Frame) : Error + list byte :=
  let payload := contents (Payload f) in
  let n := Z.of_nat (length payload) in
  if n >? MaxPayloadSize then inl (PayloadTooLarge n MaxPayloadSize) else
  let length := n + trailerSize in
  let buf := write_header (mkHeader prefixValue (Seq f) (Cmd f) (uint32 length)) in
  let buf := buf ++ payload in
  let crc := CRC32.ChecksumIEEE buf in
  inr (buf ++ write_trailer (mkTrailer crc suffixValue)).

End Frame.

(** * Test data of the repository *)

Module TestVectors.
Import Frame.

(** [testData] of the frame tests: a status broadcast frame. *)
Definition testData : list byte := map z2b [
  0x00; 0x00; 0x55; 0xaa; 0x00; 0x00; 0x00; 0x00;
  0x00; 0x00; 0x00; 0x00; 0x00; 0x00; 0x00; 0x9f;
  0x00; 0x00; 0x00; 0x00; 0x7b; 0x22; 0x69; 0x70;
  0x22; 0x3a; 0x22; 0x31; 0x30; 0x2e; 0x31; 0x30;
  0x2e; 0x32; 0x30; 0x30; 0x2e; 0x31; 0x33; 0x32;
  0x22; 0x2c; 0x22; 0x67; 0x77; 0x49; 0x64; 0x22;
  0x3a; 0x22; 0x30; 0x34; 0x38; 0x38; 0x35; 0x30;
  0x34; 0x37; 0x65; 0x63; 0x66; 0x61; 0x62; 0x63;
  0x39; 0x39; 0x38; 0x65; 0x36; 0x61; 0x22; 0x2c;
  0x22; 0x61; 0x63; 0x74; 0x69; 0x76; 0x65; 0x22;
  0x3a; 0x32; 0x2c; 0x22; 0x61; 0x62; 0x69; 0x6c;
  0x69; 0x74; 0x79; 0x22; 0x3a; 0x30; 0x2c; 0x22;
  0x6d; 0x6f; 0x64; 0x65; 0x22; 0x3a; 0x30; 0x2c;
  0x22; 0x65; 0x6e; 0x63; 0x72; 0x79; 0x70; 0x74;
  0x22; 0x3a; 0x74; 0x72; 0x75; 0x65; 0x2c; 0x22;
  0x70; 0x72; 0x6f; 0x64; 0x75; 0x63; 0x74; 0x4b;
  0x65; 0x79; 0x22; 0x3a; 0x22; 0x6b; 0x65; 0x79;
  0x35; 0x6e; 0x63; 0x6b; 0x34; 0x74; 0x61; 0x76;
  0x79; 0x34; 0x33; 0x6a; 0x70; 0x22; 0x2c; 0x22;
  0x76; 0x65; 0x72; 0x73; 0x69; 0x6f; 0x6e; 0x22;
  0x3a; 0x22; 0x33; 0x2e; 0x31; 0x22; 0x7d; 0x5b;
  0xb7; 0x13; 0xb0; 0x00; 0x00; 0xaa; 0x55].

(** The frame [TestFrameEncode] encodes: [testData[16 : len(testData)-8]]
    as payload, sequence and command zero. *)
Definition testFrame : Frame :=
  mkFrame 0 0 (slice_of (firstn (List.length testData - 24) (skipn 16 testData))).

(** A small frame used to instantiate the general statements. *)
Definition sampleFrame : Frame :=
  mkFrame 1 10 (slice_of (of_string "{}")).

(** Its wire serialization. *)
Definition sampleWire : list byte :=
  match buffer sampleFrame with inr w => w | inl _ => [] end.

(** The first sixteen bytes of a stream: a well-formed header with the
    given length field. *)
Definition header_with_length (n : Z) : list byte :=
  write_header (mkHeader prefixValue 1 10 n).

End TestVectors.

(** * encoding/hex *)

Module Hex.

Definition hextable : list byte := of_string "0123456789abcdef".

(** [hex.Encode]: two lower-case digits per byte. *)
Fixpoint Encode (src : list byte) : list byte :=
  match src with
  | [] => []
  | v :: src' =>
      nth (Z.to_nat (Z.shiftr (b2z v) 4)) hextable Byte.x00
      :: nth (Z.to_nat (Z.land (b2z v) 0x0f)) hextable Byte.x00
      :: Encode src'
  end.

End Hex.

(** * encoding/base64, [StdEncoding] *)

Module Base64.

Definition encodeStd : list byte :=
  of_string "ABCDEFGHIJKLMNOPQRSTUVWXYZabcdefghijklmnopqrstuvwxyz0123456789+/".

Definition padChar : byte := Byte.x3d.

Definition enc (i : Z) : byte := nth (Z.to_nat i) encodeStd Byte.x00.

(** [enc.decodeMap]: the 6-bit value of an alphabet character. *)
Definition decodeMap (c : byte) : option Z :=
  let v := b2z c in
  if (0x41 <=? v) && (v <=? 0x5a) then Some (v - 0x41)
  else if (0x61 <=? v) && (v <=? 0x7a) then Some (v - 0x61 + 26)
  else if (0x30 <=? v) && (v <=? 0x39) then Some (v - 0x30 + 52)
  else if v =? 0x2b then Some 62
  else if v =? 0x2f then Some 63
  else None.

(** [EncodedLen] and [DecodedLen] of a padded encoding. *)
Definition EncodedLen (n : Z) : Z := (n + 2) / 3 * 4.
Definition DecodedLen (n : Z) : Z := n / 4 * 3.

(** The four output characters of a group [val] of 24 bits. *)
Definition quantum (val : Z) : list byte :=
  [enc (Z.land (Z.shiftr val 18) 0x3f); enc (Z.land (Z.shiftr val 12) 0x3f);
   enc (Z.land (Z.shiftr val 6) 0x3f); enc (Z.land val 0x3f)].

(** [Encode]: whole groups of three bytes, then the padded remainder. *)
Fixpoint Encode (src : list byte) : list byte :=
  match src with
  | [] => []
  | [a] =>
      let val := Z.shiftl (b2z a) 16 in
      firstn 2 (quantum val) ++ [padChar; padChar]
  | [a; b] =>
      let val := Z.lor (Z.shiftl (b2z a) 16) (Z.shiftl (b2z b) 8) in
      firstn 3 (quantum val) ++ [padChar]
  | a :: b :: c :: src' =>
      let val := Z.lor (Z.lor (Z.shiftl (b2z a) 16) (Z.shiftl (b2z b) 8)) (b2z c) in
      quantum val ++ Encode src'
  end.

Inductive CorruptInputError := CorruptInput (offset : Z).

Definition is_newline (c : byte) : bool :=
  (b2z c =? 0x0a) || (b2z c =? 0x0d).

Fixpoint skip_newlines (src : list byte) (si : Z) : list byte * Z :=
  match src with
  | c :: src' => if is_newline c then skip_newlines src' (si + 1) else (src, si)
  | [] => (src, si)
  end.

(** The bytes of a group of [dlen] 6-bit digits: [dlen - 1] bytes. *)
Definition group_bytes (dbuf : list Z) : list byte :=
  let val := Z.lor (Z.lor (Z.lor (Z.shiftl (nth 0 dbuf 0) 18) (Z.shiftl (nth 1 dbuf 0) 12))
                          (Z.shiftl (nth 2 dbuf 0) 6)) (nth 3 dbuf 0) in
  firstn (List.length dbuf - 1)
         [z2b (Z.shiftr val 16); z2b (Z.shiftr val 8); z2b val].

(** The decoding loop. [dbuf] holds the digits of the group being read,
    [si] is the index of the next input byte, [total] the input length.
    Line breaks are skipped; padding ends the input. The result is the
    decoded bytes and the error, if any. *)
Fixpoint decode (src : list byte) (dbuf : list Z) (si total : Z)
  : list byte * option CorruptInputError :=
  match src with
  | [] =>
      match dbuf with
      | [] => ([], None)
      | _ => ([], Some (CorruptInput (si - Z.of_nat (List.length dbuf))))
      end
  | c :: src' =>
      match decodeMap c with
      | Some v =>
          let dbuf' := dbuf ++ [v] in
          if (List.length dbuf' =? 4)%nat
          then let '(out, err) := decode src' [] (si + 1) total in
               (group_bytes dbuf' ++ out, err)
          else decode src' dbuf' (si + 1) total
      | None =>
          if is_newline c then decode src' dbuf (si + 1) total
          else if negb (beqb c padChar) then ([], Some (CorruptInput si))
          else
            (* padding: the input ends here *)
            match List.length dbuf with
            | 0%nat | 1%nat => ([], Some (CorruptInput si))
            | 2%nat =>
                let '(src2, si2) := skip_newlines src' (si + 1) in
                match src2 with
                | [] => ([], Some (CorruptInput total))
                | c2 :: src3 =>
                    if negb (beqb c2 padChar) then ([], Some (CorruptInput (si2 - 1)))
                    else
                      let '(src4, si4) := skip_newlines src3 (si2 + 1) in
                      (group_bytes dbuf,
                       match src4 with [] => None | _ => Some (CorruptInput si4) end)
                end
            | _ =>
                let '(src4, si4) := skip_newlines src' (si + 1) in
                (group_bytes dbuf,
                 match src4 with [] => None | _ => Some (CorruptInput si4) end)
            end
      end
  end.

(** [Decode(dst, src)]: the bytes written and the error. *)
Definition Decode (src : list byte) : list byte * option CorruptInputError :=
  decode src [] 0 (Z.of_nat (List.length src)).

End Base64.

(** * crypto/md5 *)

Module MD5.

Definition mask32 : Z := 0xffffffff.

(** Addition of [uint32] values wraps around. *)
Definition add32 (a b : Z) : Z := Z.land (a + b) mask32.

(** [bits.RotateLeft32]. *)
Definition rotl32 (x s : Z) : Z :=
  Z.lor (Z.land (Z.shiftl x s) mask32) (Z.shiftr x (32 - s)).

Definition K : list Z := [
  0xd76aa478; 0xe8c7b756; 0x242070db; 0xc1bdceee;
  0xf57c0faf; 0x4787c62a; 0xa8304613; 0xfd469501;
  0x698098d8; 0x8b44f7af; 0xffff5bb1; 0x895cd7be;
  0x6b901122; 0xfd987193; 0xa679438e; 0x49b40821;
  0xf61e2562; 0xc040b340; 0x265e5a51; 0xe9b6c7aa;
  0xd62f105d; 0x02441453; 0xd8a1e681; 0xe7d3fbc8;
  0x21e1cde6; 0xc33707d6; 0xf4d50d87; 0x455a14ed;
  0xa9e3e905; 0xfcefa3f8; 0x676f02d9; 0x8d2a4c8a;
  0xfffa3942; 0x8771f681; 0x6d9d6122; 0xfde5380c;
  0xa4beea44; 0x4bdecfa9; 0xf6bb4b60; 0xbebfbc70;
  0x289b7ec6; 0xeaa127fa; 0xd4ef3085; 0x04881d05;
  0xd9d4d039; 0xe6db99e5; 0x1fa27cf8; 0xc4ac5665;
  0xf4292244; 0x432aff97; 0xab9423a7; 0xfc93a039;
  0x655b59c3; 0x8f0ccc92; 0xffeff47d; 0x85845dd1;
  0x6fa87e4f; 0xfe2ce6e0; 0xa3014314; 0x4e0811a1;
  0xf7537e82; 0xbd3af235; 0x2ad7d2bb; 0xeb86d391].

Definition shifts : list Z := [
  7; 12; 17; 22; 7; 12; 17; 22; 7; 12; 17; 22; 7; 12; 17; 22;
  5; 9; 14; 20; 5; 9; 14; 20; 5; 9; 14; 20; 5; 9; 14; 20;
  4; 11; 16; 23; 4; 11; 16; 23; 4; 11; 16; 23; 4; 11; 16; 23;
  6; 10; 15; 21; 6; 10; 15; 21; 6; 10; 15; 21; 6; 10; 15; 21].

(** Index of the message word used by step [i]. *)
Definition word_index (i : nat) : nat :=
  if (i <? 16)%nat then i
  else if (i <? 32)%nat then ((5 * i + 1) mod 16)%nat
  else if (i <? 48)%nat then ((3 * i + 5) mod 16)%nat
  else ((7 * i) mod 16)%nat.

(** The 64 steps: round, message word, constant, rotation. *)
Definition schedule : list (nat * nat * Z * Z) :=
  Eval vm_compute in
  map (fun i => ((i / 16)%nat, word_index i, nth i K 0, nth i shifts 0)) (seq 0 64).

Record digest := mkDigest { dA : Z; dB : Z; dC : Z; dD : Z }.

Definition init : digest :=
  mkDigest 0x67452301 0xefcdab89 0x98badcfe 0x10325476.

(** Little-endian word of four bytes. *)
Definition le32 (b : list byte) : Z :=
  Z.lor (Z.lor (Z.lor (b2z (nth 0 b Byte.x00)) (Z.shiftl (b2z (nth 1 b Byte.x00)) 8))
               (Z.shiftl (b2z (nth 2 b Byte.x00)) 16))
        (Z.shiftl (b2z (nth 3 b Byte.x00)) 24).

Definition put_le32 (v : Z) : list byte :=
  [z2b v; z2b (Z.shiftr v 8); z2b (Z.shiftr v 16); z2b (Z.shiftr v 24)].

Fixpoint words (n : nat) (b : list byte) : list Z :=
  match n with
  | O => []
  | S n' => le32 b :: words n' (skipn 4 b)
  end.

(** One step on a block with message words [M]. *)
Definition step (M : list Z) (d : digest) (t : nat * nat * Z * Z) : digest :=
  let '(mkDigest a b c d) := d in
  let '(round, g, k, s) := t in
  let f :=
    match round with
    | 0%nat => Z.lor (Z.land b c) (Z.land (not32 b) d)
    | 1%nat => Z.lor (Z.land d b) (Z.land (not32 d) c)
    | 2%nat => Z.lxor (Z.lxor b c) d
    | _ => Z.lxor c (Z.lor b (not32 d))
    end in
  let f := add32 (add32 (add32 f a) k) (nth g M 0) in
  mkDigest d (add32 b (rotl32 f s)) b c.

(** The compression of one 64-byte block. *)
Definition block (d : digest) (b : list byte) : digest :=
  let M := words 16 b in
  let r := fold_left (step M) schedule d in
  mkDigest (add32 (dA d) (dA r)) (add32 (dB d) (dB r))
           (add32 (dC d) (dC r)) (add32 (dD d) (dD r)).

Fixpoint blocks (n : nat) (d : digest) (b : list byte) : digest :=
  match n with
  | O => d
  | S n' => blocks n' (block d b) (skipn 64 b)
  end.

(** Padding: 0x80, zeros up to 56 modulo 64, the bit length on 8 bytes. *)
Definition pad (len : Z) : list byte :=
  let zeros := (55 - len) mod 64 in
  Byte.x80 :: repeat Byte.x00 (Z.to_nat zeros)
  ++ put_le32 (Z.land (len * 8) mask32) ++ put_le32 (Z.land (Z.shiftr (len * 8) 32) mask32).

(** [md5.Sum]: the 16 bytes of the digest. *)
Definition Sum (data : list byte) : list byte :=
  let msg := data ++ pad (Z.of_nat (List.length data)) in
  let d := blocks (List.length msg / 64) init msg in
  put_le32 (dA d) ++ put_le32 (dB d) ++ put_le32 (dC d) ++ put_le32 (dD d).

End MD5.

(** * crypto/aes: the block cipher (FIPS-197) *)

Module AES.

Definition BlockSize : Z := 16.

(** Four bytes of a column of the state; the state as four columns. *)
Definition word : Type := byte * byte * byte * byte.
Definition block : Type := word * word * word * word.

Definition sbox0 : list byte := Eval vm_compute in map z2b [
  0x63; 0x7c; 0x77; 0x7b; 0xf2; 0x6b; 0x6f; 0xc5; 0x30; 0x01; 0x67; 0x2b; 0xfe; 0xd7; 0xab; 0x76;
  0xca; 0x82; 0xc9; 0x7d; 0xfa; 0x59; 0x47; 0xf0; 0xad; 0xd4; 0xa2; 0xaf; 0x9c; 0xa4; 0x72; 0xc0;
  0xb7; 0xfd; 0x93; 0x26; 0x36; 0x3f; 0xf7; 0xcc; 0x34; 0xa5; 0xe5; 0xf1; 0x71; 0xd8; 0x31; 0x15;
  0x04; 0xc7; 0x23; 0xc3; 0x18; 0x96; 0x05; 0x9a; 0x07; 0x12; 0x80; 0xe2; 0xeb; 0x27; 0xb2; 0x75;
  0x09; 0x83; 0x2c; 0x1a; 0x1b; 0x6e; 0x5a; 0xa0; 0x52; 0x3b; 0xd6; 0xb3; 0x29; 0xe3; 0x2f; 0x84;
  0x53; 0xd1; 0x00; 0xed; 0x20; 0xfc; 0xb1; 0x5b; 0x6a; 0xcb; 0xbe; 0x39; 0x4a; 0x4c; 0x58; 0xcf;
  0xd0; 0xef; 0xaa; 0xfb; 0x43; 0x4d; 0x33; 0x85; 0x45; 0xf9; 0x02; 0x7f; 0x50; 0x3c; 0x9f; 0xa8;
  0x51; 0xa3; 0x40; 0x8f; 0x92; 0x9d; 0x38; 0xf5; 0xbc; 0xb6; 0xda; 0x21; 0x10; 0xff; 0xf3; 0xd2;
  0xcd; 0x0c; 0x13; 0xec; 0x5f; 0x97; 0x44; 0x17; 0xc4; 0xa7; 0x7e; 0x3d; 0x64; 0x5d; 0x19; 0x73;
  0x60; 0x81; 0x4f; 0xdc; 0x22; 0x2a; 0x90; 0x88; 0x46; 0xee; 0xb8; 0x14; 0xde; 0x5e; 0x0b; 0xdb;
  0xe0; 0x32; 0x3a; 0x0a; 0x49; 0x06; 0x24; 0x5c; 0xc2; 0xd3; 0xac; 0x62; 0x91; 0x95; 0xe4; 0x79;
  0xe7; 0xc8; 0x37; 0x6d; 0x8d; 0xd5; 0x4e; 0xa9; 0x6c; 0x56; 0xf4; 0xea; 0x65; 0x7a; 0xae; 0x08;
  0xba; 0x78; 0x25; 0x2e; 0x1c; 0xa6; 0xb4; 0xc6; 0xe8; 0xdd; 0x74; 0x1f; 0x4b; 0xbd; 0x8b; 0x8a;
  0x70; 0x3e; 0xb5; 0x66; 0x48; 0x03; 0xf6; 0x0e; 0x61; 0x35; 0x57; 0xb9; 0x86; 0xc1; 0x1d; 0x9e;
  0xe1; 0xf8; 0x98; 0x11; 0x69; 0xd9; 0x8e; 0x94; 0x9b; 0x1e; 0x87; 0xe9; 0xce; 0x55; 0x28; 0xdf;
  0x8c; 0xa1; 0x89; 0x0d; 0xbf; 0xe6; 0x42; 0x68; 0x41; 0x99; 0x2d; 0x0f; 0xb0; 0x54; 0xbb; 0x16].

Definition sbox1 : list byte := Eval vm_compute in map z2b [
  0x52; 0x09; 0x6a; 0xd5; 0x30; 0x36; 0xa5; 0x38; 0xbf; 0x40; 0xa3; 0x9e; 0x81; 0xf3; 0xd7; 0xfb;
  0x7c; 0xe3; 0x39; 0x82; 0x9b; 0x2f; 0xff; 0x87; 0x34; 0x8e; 0x43; 0x44; 0xc4; 0xde; 0xe9; 0xcb;
  0x54; 0x7b; 0x94; 0x32; 0xa6; 0xc2; 0x23; 0x3d; 0xee; 0x4c; 0x95; 0x0b; 0x42; 0xfa; 0xc3; 0x4e;
  0x08; 0x2e; 0xa1; 0x66; 0x28; 0xd9; 0x24; 0xb2; 0x76; 0x5b; 0xa2; 0x49; 0x6d; 0x8b; 0xd1; 0x25;
  0x72; 0xf8; 0xf6; 0x64; 0x86; 0x68; 0x98; 0x16; 0xd4; 0xa4; 0x5c; 0xcc; 0x5d; 0x65; 0xb6; 0x92;
  0x6c; 0x70; 0x48; 0x50; 0xfd; 0xed; 0xb9; 0xda; 0x5e; 0x15; 0x46; 0x57; 0xa7; 0x8d; 0x9d; 0x84;
  0x90; 0xd8; 0xab; 0x00; 0x8c; 0xbc; 0xd3; 0x0a; 0xf7; 0xe4; 0x58; 0x05; 0xb8; 0xb3; 0x45; 0x06;
  0xd0; 0x2c; 0x1e; 0x8f; 0xca; 0x3f; 0x0f; 0x02; 0xc1; 0xaf; 0xbd; 0x03; 0x01; 0x13; 0x8a; 0x6b;
  0x3a; 0x91; 0x11; 0x41; 0x4f; 0x67; 0xdc; 0xea; 0x97; 0xf2; 0xcf; 0xce; 0xf0; 0xb4; 0xe6; 0x73;
  0x96; 0xac; 0x74; 0x22; 0xe7; 0xad; 0x35; 0x85; 0xe2; 0xf9; 0x37; 0xe8; 0x1c; 0x75; 0xdf; 0x6e;
  0x47; 0xf1; 0x1a; 0x71; 0x1d; 0x29; 0xc5; 0x89; 0x6f; 0xb7; 0x62; 0x0e; 0xaa; 0x18; 0xbe; 0x1b;
  0xfc; 0x56; 0x3e; 0x4b; 0xc6; 0xd2; 0x79; 0x20; 0x9a; 0xdb; 0xc0; 0xfe; 0x78; 0xcd; 0x5a; 0xf4;
  0x1f; 0xdd; 0xa8; 0x33; 0x88; 0x07; 0xc7; 0x31; 0xb1; 0x12; 0x10; 0x59; 0x27; 0x80; 0xec; 0x5f;
  0x60; 0x51; 0x7f; 0xa9; 0x19; 0xb5; 0x4a; 0x0d; 0x2d; 0xe5; 0x7a; 0x9f; 0x93; 0xc9; 0x9c; 0xef;
  0xa0; 0xe0; 0x3b; 0x4d; 0xae; 0x2a; 0xf5; 0xb0; 0xc8; 0xeb; 0xbb; 0x3c; 0x83; 0x53; 0x99; 0x61;
  0x17; 0x2b; 0x04; 0x7e; 0xba; 0x77; 0xd6; 0x26; 0xe1; 0x69; 0x14; 0x63; 0x55; 0x21; 0x0c; 0x7d].

Definition sub (b : byte) : byte := nth (Byte.to_nat b) sbox0 Byte.x00.
Definition inv_sub (b : byte) : byte := nth (Byte.to_nat b) sbox1 Byte.x00.

(** [a ^ b] on bytes, bit by bit. *)
Definition xor8 (a b : byte) : byte :=
  let '(a0, (a1, (a2, (a3, (a4, (a5, (a6, a7))))))) := Byte.to_bits a in
  let '(b0, (b1, (b2, (b3, (b4, (b5, (b6, b7))))))) := Byte.to_bits b in
  Byte.of_bits (xorb a0 b0, (xorb a1 b1, (xorb a2 b2, (xorb a3 b3,
               (xorb a4 b4, (xorb a5 b5, (xorb a6 b6, xorb a7 b7))))))).

(** Multiplication by [x] in GF(2^8) modulo [x^8 + x^4 + x^3 + x + 1]:
    [(b << 1) ^ (0x1b if b & 0x80 != 0)]. *)
Definition xtime (b : byte) : byte :=
  let '(b0, (b1, (b2, (b3, (b4, (b5, (b6, b7))))))) := Byte.to_bits b in
  xor8 (Byte.of_bits (false, (b0, (b1, (b2, (b3, (b4, (b5, b6))))))))
       (if b7 then Byte.x1b else Byte.x00).

Definition mul2 (b : byte) : byte := xtime b.
Definition mul3 (b : byte) : byte := xor8 (xtime b) b.
Definition mul4 (b : byte) : byte := xtime (xtime b).
Definition mul8 (b : byte) : byte := xtime (mul4 b).
Definition mul9 (b : byte) : byte := xor8 (mul8 b) b.
Definition mul11 (b : byte) : byte := xor8 (xor8 (mul8 b) (mul2 b)) b.
Definition mul13 (b : byte) : byte := xor8 (xor8 (mul8 b) (mul4 b)) b.
Definition mul14 (b : byte) : byte := xor8 (xor8 (mul8 b) (mul4 b)) (mul2 b).

Definition wmap (f : byte -> byte) (w : word) : word :=
  let '(a, b, c, d) := w in (f a, f b, f c, f d).

Definition wxor (x y : word) : word :=
  let '(a, b, c, d) := x in
  let '(e, f, g, h) := y in
  (xor8 a e, xor8 b f, xor8 c g, xor8 d h).

Definition bmap (f : word -> word) (s : block) : block :=
  let '(a, b, c, d) := s in (f a, f b, f c, f d).

Definition AddRoundKey (s k : block) : block :=
  let '(a, b, c, d) := s in
  let '(e, f, g, h) := k in
  (wxor a e, wxor b f, wxor c g, wxor d h).

Definition SubBytes (s : block) : block := bmap (wmap sub) s.
Definition InvSubBytes (s : block) : block := bmap (wmap inv_sub) s.

(** Row [r] of the state is rotated by [r] columns. *)
Definition ShiftRows (s : block) : block :=
  let '((a0, a1, a2, a3), (b0, b1, b2, b3), (c0, c1, c2, c3), (d0, d1, d2, d3)) := s in
  ((a0, b1, c2, d3), (b0, c1, d2, a3), (c0, d1, a2, b3), (d0, a1, b2, c3)).

Definition InvShiftRows (s : block) : block :=
  let '((a0, a1, a2, a3), (b0, b1, b2, b3), (c0, c1, c2, c3), (d0, d1, d2, d3)) := s in
  ((a0, d1, c2, b3), (b0, a1, d2, c3), (c0, b1, a2, d3), (d0, c1, b2, a3)).

Definition MixColumn (w : word) : word :=
  let '(a, b, c, d) := w in
  (xor8 (xor8 (xor8 (mul2 a) (mul3 b)) c) d,
   xor8 (xor8 (xor8 a (mul2 b)) (mul3 c)) d,
   xor8 (xor8 (xor8 a b) (mul2 c)) (mul3 d),
   xor8 (xor8 (xor8 (mul3 a) b) c) (mul2 d)).

Definition InvMixColumn (w : word) : word :=
  let '(a, b, c, d) := w in
  (xor8 (xor8 (xor8 (mul14 a) (mul11 b)) (mul13 c)) (mul9 d),
   xor8 (xor8 (xor8 (mul9 a) (mul14 b)) (mul11 c)) (mul13 d),
   xor8 (xor8 (xor8 (mul13 a) (mul9 b)) (mul14 c)) (mul11 d),
   xor8 (xor8 (xor8 (mul11 a) (mul13 b)) (mul9 c)) (mul14 d)).

Definition MixColumns (s : block) : block := bmap MixColumn s.
Definition InvMixColumns (s : block) : block := bmap InvMixColumn s.

Definition word_eqb (u v : word) : bool :=
  let '(a, b, c, d) := u in
  let '(e, f, g, h) := v in
  beqb a e && beqb b f && beqb c g && beqb d h.

(** ** Key expansion *)

Definition zero_word : word := (Byte.x00, Byte.x00, Byte.x00, Byte.x00).

Definition RotWord (w : word) : word :=
  let '(a, b, c, d) := w in (b, c, d, a).

Definition SubWord (w : word) : word := wmap sub w.

Definition Rcon (i : nat) : word :=
  (Nat.iter (i - 1) xtime Byte.x01, Byte.x00, Byte.x00, Byte.x00).

Fixpoint key_words (key : list byte) : list word :=
  match key with
  | a :: b :: c :: d :: key' => (a, b, c, d) :: key_words key'
  | _ => []
  end.

(** Words [i], [i+1], ... of the schedule, [w] holding the words before. *)
Fixpoint expand (n Nk i : nat) (w : list word) : list word :=
  match n with
  | O => w
  | S n' =>
      let temp := nth (i - 1) w zero_word in
      let temp :=
        if (i mod Nk =? 0)%nat then wxor (SubWord (RotWord temp)) (Rcon (i / Nk))
        else if (6 <? Nk)%nat && (i mod Nk =? 4)%nat then SubWord temp
        else temp in
      expand n' Nk (S i) (w ++ [wxor (nth (i - Nk) w zero_word) temp])
  end.

Fixpoint round_keys (w : list word) : list block :=
  match w with
  | a :: b :: c :: d :: w' => (a, b, c, d) :: round_keys w'
  | _ => []
  end.

(** The round keys of a key of 16, 24 or 32 bytes: [Nr + 1] blocks. *)
Definition expandKey (key : list byte) : list block :=
  let Nk := (List.length key / 4)%nat in
  let Nr := (Nk + 6)%nat in
  round_keys (expand (4 * (Nr + 1) - Nk) Nk Nk (key_words key)).

(** ** The cipher and its inverse on one block *)

Definition round (s k : block) : block :=
  AddRoundKey (MixColumns (ShiftRows (SubBytes s))) k.

Definition inv_round (s k : block) : block :=
  InvMixColumns (AddRoundKey (InvSubBytes (InvShiftRows s)) k).

(** [Cipher]: initial key addition, [Nr - 1] full rounds, final round. *)
Definition encryptBlock (rk : list block) (s : block) : block :=
  match rk with
  | [] => s
  | k0 :: rest =>
      let s := AddRoundKey s k0 in
      let s := fold_left round (removelast rest) s in
      AddRoundKey (ShiftRows (SubBytes s)) (last rest k0)
  end.

(** [InvCipher]: the round keys are used in reverse order. *)
Definition decryptBlock (rk : list block) (s : block) : block :=
  match rk with
  | [] => s
  | k0 :: rest =>
      let s := AddRoundKey s (last rest k0) in
      let s := fold_left inv_round (rev (removelast rest)) s in
      AddRoundKey (InvSubBytes (InvShiftRows s)) k0
  end.

Definition bytes_of_block (s : block) : list byte :=
  let '((a0, a1, a2, a3), (b0, b1, b2, b3), (c0, c1, c2, c3), (d0, d1, d2, d3)) := s in
  [a0; a1; a2; a3; b0; b1; b2; b3; c0; c1; c2; c3; d0; d1; d2; d3].

(** The loop [for i := 0; i < len(buf); i += blockSize { f(buf[i:], buf[i:]) }]
    over a buffer made of whole blocks. *)
Fixpoint ecb (f : block -> block) (buf : list byte) : list byte :=
  match buf with
  | a0 :: a1 :: a2 :: a3 :: b0 :: b1 :: b2 :: b3
    :: c0 :: c1 :: c2 :: c3 :: d0 :: d1 :: d2 :: d3 :: buf' =>
      bytes_of_block (f ((a0, a1, a2, a3), (b0, b1, b2, b3), (c0, c1, c2, c3), (d0, d1, d2, d3)))
      ++ ecb f buf'
  | _ => buf
  end.

(** [aes.NewCipher]: key sizes other than 16, 24 and 32 are refused. *)
Definition NewCipher (key : list byte) : option (list block) :=
  match List.length key with
  | 16%nat | 24%nat | 32%nat => Some (expandKey key)
  | _ => None
  end.

End AES.

(** * The authenticated-encryption envelope (crypto.go) *)

Module Crypto.

Definition supportedVersion : string := "3.1".
Definition tagSize : Z := 16.
Definition version : list byte := of_string supportedVersion.

Inductive Error :=
| ErrPadding
| ErrTagVerification
| ErrTooSmall
| ErrVersion
| ErrBase64 (e : Base64.CorruptInputError).

Inductive result :=
| Ok (plaintext : list byte)
| Err (e : Error)
| Panic (msg : string).

Definition detectEncryption (payload : list byte) : bool :=
  HasPrefix payload version.

(** A [Cipher]: the key and the AES block cipher made from it. *)
Record Cipher := mkCipher { key : list byte; aes : list AES.block }.

Definition NewCipher (key : list byte) : option Cipher :=
  match AES.NewCipher key with
  | Some a => Some (mkCipher key a)
  | None => None
  end.

(** [hex(md5("data=" <data> "||lpv=3.1||" <key>)[4:12])], 16 bytes. *)
Definition macTag (key data : list byte) : list byte :=
  let h := of_string "data=" ++ data ++ of_string "||lpv=" ++ version
           ++ of_string "||" ++ key in
  Hex.Encode (firstn 8 (skipn 4 (MD5.Sum h))).

(** [subtle.ConstantTimeCompare]. *)
Definition ConstantTimeCompare (x y : list byte) : Z :=
  if negb (List.length x =? List.length y)%nat then 0
  else if bytes_eqb x y then 1 else 0.

(** The PKCS#7 padding added by [Encrypt]: between 1 and 16 bytes, each
    holding their number. *)
Definition padSize (plaintext : list byte) : Z :=
  AES.BlockSize - Z.of_nat (List.length plaintext) mod AES.BlockSize.

Definition padded (plaintext : list byte) : list byte :=
  plaintext ++ repeat (z2b (padSize plaintext)) (Z.to_nat (padSize plaintext)).

Definition Encrypt (c : Cipher) (plaintext : list byte) : list byte :=
  (* PKCS#7 padding *)
  let ciphertext := padded plaintext in
  (* AES ECB *)
  let ciphertext := AES.ecb (AES.encryptBlock (aes c)) ciphertext in
  (* Output buffer: <version><hex(tag)><base64(ciphertext)> *)
  let encoded := Base64.Encode ciphertext in
  version ++ macTag (key c) encoded ++ encoded.

(** The envelope [Encrypt] builds around ciphertext bytes:
    [<version><hex(tag)><base64(ciphertext)>]. *)
Definition envelope (c : Cipher) (ciphertext : list byte) : list byte :=
  let encoded := Base64.Encode ciphertext in
  version ++ macTag (key c) encoded ++ encoded.

(** The end of [Decrypt]: check and strip the PKCS#7 padding. Indexing
    the last byte of an empty buffer panics. *)
Definition unpad (plaintext : list byte) : result :=
  match rev plaintext with
  | [] => Panic "index out of range"
  | lastByte :: _ =>
      let n := List.length plaintext in
      let padSize := b2z lastByte in
      if (padSize <? 1) || (padSize >? AES.BlockSize) then Err ErrPadding else
      if negb (forallb (fun b => beqb b (z2b padSize))
                       (firstn (Z.to_nat padSize - 1)
                               (skipn (n - Z.to_nat padSize) plaintext)))
      then Err ErrPadding else
      Ok (firstn (n - Z.to_nat padSize) plaintext)
  end.

(** The part of [Decrypt] after the tag is verified: base64, AES ECB (the
    block cipher panics on a last block that is not full), padding. *)
Definition decrypt_data (c : Cipher) (b64data : list byte) : result :=
  match Base64.Decode b64data with
  | (_, Some e) => Err (ErrBase64 e)
  | (plaintext, None) =>
      if negb (Z.of_nat (List.length plaintext) mod AES.BlockSize =? 0)
      then Panic "crypto/aes: input not full block" else
      unpad (AES.ecb (AES.decryptBlock (aes c)) plaintext)
  end.

Definition Decrypt (c : Cipher) (ciphertext : list byte) : result :=
  let blockSize := AES.BlockSize in
  if Z.of_nat (List.length ciphertext)
     <? Z.of_nat (List.length version) + tagSize + Base64.EncodedLen blockSize
  then Err ErrTooSmall else
  (* Version *)
  if negb (HasPrefix ciphertext version) then Err ErrVersion else
  let ciphertext := skipn (List.length version) ciphertext in
  (* Tuya MAC *)
  let tag := firstn (Z.to_nat tagSize) ciphertext in
  let expectedTag := macTag (key c) (skipn (Z.to_nat tagSize) ciphertext) in
  if negb (ConstantTimeCompare tag expectedTag =? 1) then Err ErrTagVerification else
  (* Base64 data, AES ECB, PKCS#7 padding *)
  decrypt_data c (skipn (Z.to_nat tagSize) ciphertext).

End Crypto.

(** * Responses and the client connection (client.go) *)

Module Client.

(** ** Response *)

Inductive ResponseErr :=
| PayloadTooShort (len : Z)
| ResponseError (Code : Z) (Message : list byte)
| UnmarshalError.

(** [Response.Err] on the payload of the response's frame. *)
Definition Err (payload : list byte) : option ResponseErr :=
  if Z.of_nat (List.length payload) <? 4
  then Some (PayloadTooShort (Z.of_nat (List.length payload)))
  else
    let errCode := Uint32 payload in
    if negb (errCode =? 0) then Some (ResponseError errCode (skipn 4 payload))
    else None.

(** [Response.Bytes]. *)
Definition Bytes (payload : list byte) : ResponseErr + list byte :=
  match Err payload with
  | Some err => inl err
  | None => inr (skipn 4 payload)
  end.

Section JSON.

(** [encoding/json] is taken as given: [Unmarshal] decodes into a value
    of the target type or fails, [Marshal] encodes a value or fails. *)
Variable T : Type.
Variable Unmarshal : list byte -> option T.
Variable J : Type.
Variable Marshal : J -> option (list byte).

(** [Response.DecodeJSON]. *)
Definition DecodeJSON (payload : list byte) : ResponseErr + T :=
  match Bytes payload with
  | inl err => inl err
  | inr data =>
      match Unmarshal data with
      | None => inl UnmarshalError
      | Some v => inr v
      end
  end.

(** ** Client *)

(** The writing side of the connection: [WriteTo] hands it the bytes of
    one frame; it may fail. *)
Variable W : Type.
Variable WriteTo : W -> list byte -> W * bool.

(** A [Client]: the bytes still to be read from the connection, its
    writing side, the optional cipher and the sequence counter. *)
Record Client := mkClient {
  rd : list byte;
  wr : W;
  cipher : option Crypto.Cipher;
  seq : Z
}.

(** The [payload interface{}] argument of [Write]: raw bytes or an
    object to marshal. *)
Inductive payload :=
| Raw (data : list byte)
| Object (v : J).

Inductive WriteErr :=
| ErrNoKey
| PayloadMarshal
| FrameEncode (e : Frame.Error)
| FrameWriteTo.

(** [Client.Write]: the client afterwards and the sequence number or
    the error. The body after [c.Lock()] runs as one step. *)
Definition Write (c : Client) (cmd : Z) (encrypt : bool) (p : payload)
  : Client * (WriteErr + Z) :=
  match encrypt, cipher c with
  | true, None => (c, inl ErrNoKey)
  | _, _ =>
    (* Marshal JSON (if necessary) *)
    match (match p with Raw data => Some data | Object v => Marshal v end) with
    | None => (c, inl PayloadMarshal)
    | Some data =>
      (* Encrypt payload (if requested) *)
      let data :=
        match encrypt, cipher c with
        | true, Some k => Crypto.Encrypt k data
        | _, _ => data
        end in
      (* Write frame *)
      let seq' := uint32 (seq c + 1) in
      let c := mkClient (rd c) (wr c) (cipher c) seq' in
      match Frame.buffer (Frame.mkFrame seq' cmd (Frame.slice_of data)) with
      | inl e => (c, inl (FrameEncode e))
      | inr wire =>
          let '(w, ok) := WriteTo (wr c) wire in
          let c := mkClient (rd c) w (cipher c) seq' in
          if ok then (c, inr seq') else (c, inl FrameWriteTo)
      end
    end
  end.

(** Calls of [Write] one after the other on one client: the client
    at the end and what each call returned. *)
Fixpoint Writes (c : Client) (calls : list (Z * bool * payload))
  : Client * list (WriteErr + Z) :=
  match calls with
  | [] => (c, [])
  | (cmd, encrypt, p) :: calls' =>
      let '(c1, r) := Write c cmd encrypt p in
      let '(c2, rs) := Writes c1 calls' in
      (c2, r :: rs)
  end.

Inductive ReadErr :=
| DecodeFrameErr (e : Frame.Error)
| DecryptErr (e : Crypto.Error).

Inductive read_result :=
| Response (f : Frame.Frame)
| ReadError (e : ReadErr)
| ReadPanic (msg : string).

(** [Client.Read]: decode one frame and decrypt its payload when it
    looks encrypted. Calling [Decrypt] on the nil cipher of a client
    without key dereferences a nil pointer. *)
Definition Read (c : Client) : Client * read_result :=
  let '(o, f, r) := Frame.DecodeFrame (rd c) in
  let c := mkClient r (wr c) (cipher c) (seq c) in
  match o with
  | Frame.Err e => (c, ReadError (DecodeFrameErr e))
  | Frame.Panic msg => (c, ReadPanic msg)
  | Frame.Nil =>
      let payload := Frame.contents (Frame.Payload f) in
      if Crypto.detectEncryption payload then
        match cipher c with
        | None => (c, ReadPanic "invalid memory address or nil pointer dereference")
        | Some k =>
            match Crypto.Decrypt k payload with
            | Crypto.Err e => (c, ReadError (DecryptErr e))
            | Crypto.Panic msg => (c, ReadPanic msg)
            | Crypto.Ok plaintext =>
                (c, Response (Frame.mkFrame (Frame.Seq f) (Frame.Cmd f)
                                            (Frame.slice_of plaintext)))
            end
        end
      else (c, Response f)
  end.

End JSON.

Arguments rd {W} c.
Arguments wr {W} c.
Arguments cipher {W} c.
Arguments seq {W} c.
Arguments Raw {J} data.
Arguments Object {J} v.

End Client.

(** * The request/response manager (manager.go) *)

Module Manager.

(** The map [responseChans]: sequence number to channel. *)
Definition table : Type := list (Z * nat).

Fixpoint lookup (k : Z) (t : table) : option nat :=
  match t with
  | [] => None
  | (k', v) :: t' => if k' =? k then Some v else lookup k t'
  end.

Fixpoint delete (k : Z) (t : table) : table :=
  match t with
  | [] => []
  | (k', v) :: t' => if k' =? k then delete k t' else (k', v) :: delete k t'
  end.

Definition insert (k : Z) (v : nat) (t : table) : table := (k, v) :: delete k t.

Inductive Error :=
| ErrClosed
| ReadFailed (e : Client.ReadErr)
| RequestWrite (e : Client.WriteErr)
| ResponseReadErr
| ResponseErr (e : Client.ResponseErr)
| ResponseDecode (e : Client.ResponseErr).

(** The value sent through a [responseChan]: the response pointer (nil
    when absent) and the read error. *)
Record response := mkResponse {
  Response : option Frame.Frame;
  respReadErr : option Client.ReadErr
}.

(** An unbuffered channel with one receiver: nothing sent yet, a value
    handed over, or closed. *)
Inductive chan :=
| Empty
| Sent (r : response)
| Closed.

Section Manager.

Variable T : Type.
Variable Unmarshal : list byte -> option T.
Variable J : Type.
Variable Marshal : J -> option (list byte).
Variable W : Type.
Variable WriteTo : W -> list byte -> W * bool.

(** A [Manager]: the client, how often the client was closed, every
    channel made so far (a channel is named by its position), the table
    of pending requests, and the two flags. *)
Record Manager := mkManager {
  client : Client.Client W;
  clientCloses : nat;
  chans : list chan;
  responseChans : table;
  closed : bool;
  readErr : option Error
}.

Fixpoint set_chan (id : nat) (c : chan) (l : list chan) : list chan :=
  match l, id with
  | [], _ => []
  | _ :: l', O => c :: l'
  | x :: l', S id' => x :: set_chan id' c l'
  end.

(** [close(respChan)] for every entry of the table. *)
Definition close_all (t : table) (l : list chan) : list chan :=
  fold_left (fun l e => set_chan (snd e) Closed l) t l.

(** [Manager.Close], run with the lock free. *)
Definition Close (m : Manager) : Manager :=
  mkManager (client m) (S (clientCloses m))
            (close_all (responseChans m) (chans m))
            []
            true
            (match readErr m with None => Some ErrClosed | e => e end).

Inductive sent :=
| Failed (e : Error)
| Waiting (seq : Z) (respChan : nat).

(** [Manager.request] up to [resp := <-respChan]: the early return on
    a recorded error, the write, the registration of a new channel. *)
Definition request_send (m : Manager) (cmd : Z) (encrypt : bool) (req : Client.payload J)
  : Manager * sent :=
  match readErr m with
  | Some e => (m, Failed e)
  | None =>
      match Client.Write J Marshal W WriteTo (client m) cmd encrypt req with
      | (c, inl e) =>
          (mkManager c (clientCloses m) (chans m) (responseChans m) (closed m) (readErr m),
           Failed (RequestWrite e))
      | (c, inr seq) =>
          let respChan := List.length (chans m) in
          (mkManager c (clientCloses m) (chans m ++ [Empty])
                     (insert seq respChan (responseChans m)) (closed m) (readErr m),
           Waiting seq respChan)
      end
  end.

(** [resp := <-respChan]: [None] while the receive blocks. A closed
    channel yields the zero value. *)
Definition receive (c : chan) : option response :=
  match c with
  | Empty => None
  | Sent r => Some r
  | Closed => Some (mkResponse None None)
  end.

Inductive result :=
| Done (v : option T)
| Fails (e : Error)
| Panics (msg : string).

(** [Manager.request] after the receive. [want] tells whether a
    result was asked for ([res != nil]). [resp.Err()] and
    [resp.DecodeJSON(res)] on a nil response pointer dereference it. *)
Definition request_finish (resp : response) (want : bool) : result :=
  match respReadErr resp with
  | Some _ => Fails ResponseReadErr
  | None =>
      match Response resp with
      | None => Panics "invalid memory address or nil pointer dereference"
      | Some f =>
          let payload := Frame.contents (Frame.Payload f) in
          if negb want then
            match Client.Err payload with
            | Some e => Fails (ResponseErr e)
            | None => Done None
            end
          else
            match Client.DecodeJSON T Unmarshal payload with
            | inl e => Fails (ResponseDecode e)
            | inr v => Done (Some v)
            end
      end
  end.

Inductive loop :=
| Continue
| Break
| LoopPanics (msg : string).

(** One pass of the read loop of [Manager.start] on what
    [m.client.Read()] returned, from [m.Lock()] on. When the read
    failed, [res] is nil and [res.Seq] dereferences it. *)
Definition dispatch (m : Manager) (res : Client.read_result) : Manager * loop :=
  match res with
  | Client.ReadPanic msg => (m, LoopPanics msg)
  | _ =>
    if closed m then (m, Break) else
    match res with
    | Client.Response f =>
        match lookup (Frame.Seq f) (responseChans m) with
        | Some respChan =>
            (mkManager (client m) (clientCloses m)
                       (set_chan respChan (Sent (mkResponse (Some f) None)) (chans m))
                       (delete (Frame.Seq f) (responseChans m)) (closed m) (readErr m),
             Continue)
        | None => (m, Continue)
        end
    | _ => (m, LoopPanics "invalid memory address or nil pointer dereference")
    end
  end.

End Manager.

End Manager.

(** * Frame decoding: the payload buffer afterwards *)

Module FrameExt.
Import Frame.

(** The buffer the payload ends up in when [Decode] reads the bytes [pb]
    into a frame that held the slice [p]: the same backing array when it
    is large enough, a new one of the payload's size otherwise. *)
Definition filled (p : slice) (pb : list byte) : slice :=
  if cap p <? Z.of_nat (List.length pb)
  then mkSlice pb (List.length pb)
  else mkSlice (pb ++ skipn (List.length pb) (backing p)) (List.length pb).

End FrameExt.

(** * Status broadcasts and dialing (status.go, client.go) *)

Module Status.

Definition StatusPort : Z := 6666.
Definition ClientPort : Z := 6668.

Inductive Error :=
| DecodeFrameErr (e : Frame.Error)
| PayloadTooSmall (len : Z)
| NonzeroReturnCode (returnCode : Z)
| UnmarshalErr.

Inductive result (T : Type) :=
| Status (s : T)
| Err (e : Error)
| Panic (msg : string).
Arguments Status {T} s.
Arguments Err {T} e.
Arguments Panic {T} msg.

Section ReadStatus.

Variable T : Type.
Variable Unmarshal : list byte -> option T.

(** [(statusListener).ReadStatus] on the datagram [l.buf[:n]] that
    [ReadFrom] returned. *)
Definition ReadStatus (datagram : list byte) : result T :=
  match Frame.DecodeFrame datagram with
  | (Frame.Err e, _, _) => Err (DecodeFrameErr e)
  | (Frame.Panic msg, _, _) => Panic msg
  | (Frame.Nil, f, _) =>
      let payload := Frame.contents (Frame.Payload f) in
      if Z.of_nat (List.length payload) <? 4
      then Err (PayloadTooSmall (Z.of_nat (List.length payload)))
      else
        let returnCode := Uint32 payload in
        if negb (returnCode =? 0) then Err (NonzeroReturnCode returnCode)
        else
          match Unmarshal (skipn 4 payload) with
          | None => Err UnmarshalErr
          | Some s => Status s
          end
  end.

End ReadStatus.

End Status.

(** * Dialing (client.go) *)

Module Dial.

Inductive Error :=
| NewCipherErr
| DialErr.

Section Dial.

Variable W : Type.

(** [net.Dial("tcp", addr)]: the connection (what will be read, the
    writing side) or a failure. *)
Variable net_Dial : list byte -> option (list byte * W).

(** [ClientConfig.Dial]: the cipher is made first, when a key is given. *)
Definition Dial (Addr Key : list byte) : Error + Client.Client W :=
  match
    (match Key with
     | [] => Some None
     | _ => match Crypto.NewCipher Key with
            | Some c => Some (Some c)
            | None => None
            end
     end)
  with
  | None => inl NewCipherErr
  | Some cipher =>
      match net_Dial Addr with
      | None => inl DialErr
      | Some (r, w) => inr (Client.mkClient W r w cipher 0)
      end
  end.

End Dial.

End Dial.

(** * Test data of the cipher tests *)

Module CipherVectors.

(** Replace every apostrophe by a double quote: the JSON test strings
    are written with apostrophes. *)
Definition dq (s : list byte) : list byte :=
  map (fun b => if beqb b Byte.x27 then Byte.x22 else b) s.

(** [testKey], [testPlaintext] and [testCiphertext] of the cipher tests. *)
Definition testKey : list byte := of_string "bbe88b3f4106d354".

Definition testPlaintext : list byte :=
  dq (of_string "{'devId':'002004265ccf7fb1b659','dps':{'1':false,'2':0},'t':1529442366,'s':8}").

Definition testCiphertext : list byte :=
  of_string "3.133ed3d4a21effe90zrA8OK3r3JMiUXpXDWauNppY4Am2c8rZ6sb4Yf15MjM8n5ByDx+QWeCZtcrPqddxLrhm906bSKbQAFtT1uCp+zP5AxlqJf5d0Pp2OxyXyjg=".

(** The cipher [NewCipher(testKey)] returns. *)
Definition testCipher : Crypto.Cipher :=
  Crypto.mkCipher testKey (AES.expandKey testKey).

(** A connection used to instantiate the statements about the client:
    its writing side records the frames written and accepts a frame
    unless it has more than 100 bytes. *)
Definition recorder : Type := list (list byte).

Definition record (w : recorder) (wire : list byte) : recorder * bool :=
  if (100 <? List.length wire)%nat then (w, false) else (w ++ [wire], true).

(** A toy JSON codec for the same purpose: it only knows the empty
    object. *)
Definition toyUnmarshal (data : list byte) : option unit :=
  if bytes_eqb data (of_string "{}") then Some tt else None.

Definition toyMarshal (v : unit) : option (list byte) := Some (of_string "{}").

Definition plainClient : Client.Client recorder :=
  Client.mkClient recorder [] [] None 0.

Definition keyedClient : Client.Client recorder :=
  Client.mkClient recorder [] [] (Some testCipher) 41.

(** A manager with two requests waiting for their responses. *)
Definition busyManager : Manager.Manager recorder :=
  Manager.mkManager recorder keyedClient 0
    [Manager.Empty; Manager.Empty] [(41, 1%nat); (40, 0%nat)] false None.

(** A manager over a client that was given no key. *)
Definition keylessManager : Manager.Manager recorder :=
  Manager.mkManager recorder plainClient 0 [] [] false None.

(** A response with status zero and the empty object as body. *)
Definition okResponse (seq : Z) : Frame.Frame :=
  Frame.mkFrame seq 10 (Frame.slice_of (PutUint32 0 ++ of_string "{}")).

End CipherVectors.

(** * MD5 on machine integers *)

(** The same algorithm as [MD5], on 63-bit machine integers: used to
    evaluate many digests at once. *)
Module MD5Fast.

Definition word : Set := PrimInt63.int.

(** A constant as a machine integer. *)
Definition mask32 : word := Eval vm_compute in Uint63.of_Z 0xffffffff.
Definition w0 : word := Eval vm_compute in Uint63.of_Z 0.
Definition w8 : word := Eval vm_compute in Uint63.of_Z 8.
Definition w16 : word := Eval vm_compute in Uint63.of_Z 16.
Definition w24 : word := Eval vm_compute in Uint63.of_Z 24.
Definition w32 : word := Eval vm_compute in Uint63.of_Z 32.
Definition add32 (a b : word) : word := PrimInt63.land (PrimInt63.add a b) mask32.
Definition rotl32 (x s : word) : word :=
  PrimInt63.lor (PrimInt63.land (PrimInt63.lsl x s) mask32)
                (PrimInt63.lsr x (PrimInt63.sub w32 s)).
Definition not32 (x : word) : word := PrimInt63.lxor x mask32.

Definition schedule : list (nat * nat * word * word) :=
  Eval vm_compute in
  map (fun t => match t with (r, g, k, s) => (r, g, Uint63.of_Z k, Uint63.of_Z s) end)
      MD5.schedule.

Record digest := mkDigest { dA : word; dB : word; dC : word; dD : word }.

Definition init : digest :=
  Eval vm_compute in
  mkDigest (Uint63.of_Z 0x67452301) (Uint63.of_Z 0xefcdab89)
           (Uint63.of_Z 0x98badcfe) (Uint63.of_Z 0x10325476).

Definition of_byte (b : byte) : word := Uint63.of_Z (b2z b).

Definition le32 (b : list byte) : word :=
  PrimInt63.lor
    (PrimInt63.lor
       (PrimInt63.lor (of_byte (nth 0 b Byte.x00))
                      (PrimInt63.lsl (of_byte (nth 1 b Byte.x00)) w8))
       (PrimInt63.lsl (of_byte (nth 2 b Byte.x00)) w16))
    (PrimInt63.lsl (of_byte (nth 3 b Byte.x00)) w24).

Fixpoint words (n : nat) (b : list byte) : list word :=
  match n with
  | O => []
  | S n' => le32 b :: words n' (skipn 4 b)
  end.

Definition step (M : list word) (d : digest) (t : nat * nat * word * word) : digest :=
  let '(mkDigest a b c d) := d in
  let '(round, g, k, s) := t in
  let f :=
    match round with
    | 0%nat => PrimInt63.lor (PrimInt63.land b c) (PrimInt63.land (not32 b) d)
    | 1%nat => PrimInt63.lor (PrimInt63.land d b) (PrimInt63.land (not32 d) c)
    | 2%nat => PrimInt63.lxor (PrimInt63.lxor b c) d
    | _ => PrimInt63.lxor c (PrimInt63.lor b (not32 d))
    end in
  let f := add32 (add32 (add32 f a) k) (nth g M w0) in
  mkDigest d (add32 b (rotl32 f s)) b c.

Definition block (d : digest) (b : list byte) : digest :=
  let M := words 16 b in
  let r := fold_left (step M) schedule d in
  mkDigest (add32 (dA d) (dA r)) (add32 (dB d) (dB r))
           (add32 (dC d) (dC r)) (add32 (dD d) (dD r)).

Fixpoint blocks (n : nat) (d : digest) (b : list byte) : digest :=
  match n with
  | O => d
  | S n' => blocks n' (block d b) (skipn 64 b)
  end.

Definition Sum (data : list byte) : list byte :=
  let msg := data ++ MD5.pad (Z.of_nat (List.length data)) in
  let d := blocks (List.length msg / 64) init msg in
  MD5.put_le32 (Uint63.to_Z (dA d)) ++ MD5.put_le32 (Uint63.to_Z (dB d))
  ++ MD5.put_le32 (Uint63.to_Z (dC d)) ++ MD5.put_le32 (Uint63.to_Z (dD d)).

(** Two states that hold the same four words. *)
Definition same (d : digest) (e : MD5.digest) : Prop :=
  Uint63.to_Z (dA d) = MD5.dA e /\ Uint63.to_Z (dB d) = MD5.dB e /\
  Uint63.to_Z (dC d) = MD5.dC e /\ Uint63.to_Z (dD d) = MD5.dD e.

(** Two steps with the same round, word index, constant and rotation. *)
Definition same_step (t : nat * nat * word * word) (u : nat * nat * Z * Z) : Prop :=
  fst (fst (fst t)) = fst (fst (fst u)) /\ snd (fst (fst t)) = snd (fst (fst u)) /\
  Uint63.to_Z (snd (fst t)) = snd (fst u) /\ Uint63.to_Z (snd t) = snd u /\ 0 <= snd u <= 32.

(** [macTag] with the digest computed on machine integers. *)
Definition macTag (key data : list byte) : list byte :=
  let h := of_string "data=" ++ data ++ of_string "||lpv=" ++ Crypto.version
           ++ of_string "||" ++ key in
  Hex.Encode (firstn 8 (skipn 4 (Sum h))).

End MD5Fast.

(** * The published envelope with one byte of its base64 part changed *)

Module Tamper.
Import CipherVectors.

(** The tag and the base64 part of [testCiphertext]. *)
Definition tag : list byte := firstn 16 (skipn 3 testCiphertext).
Definition data : list byte := skipn 19 testCiphertext.

(** Does putting [v] at byte [i] of the base64 part give a tag
    different from the published one, unless [v] is the byte that is
    there? *)
Definition detected (i : nat) (v : byte) : bool :=
  beqb v (nth i data Byte.x00)
  || negb (bytes_eqb tag (MD5Fast.macTag testKey (set_nth i v data))).

Definition position_detected (i : nat) : bool := forallb (detected i) all_bytes.

End Tamper.

Import ListNotations Bytes.
Open Scope Z_scope.

(** * Facts about bytes and big-endian words *)

Module BytesFacts.

Lemma b2z_range (b : byte) : 0 <= b2z b < 256.
Proof.
  unfold b2z. pose proof (Byte.to_N_bounded b). lia.
Qed.

Lemma b2z_z2b (z : Z) : b2z (z2b z) = z mod 256.
Proof.
  unfold b2z, z2b.
  pose proof (Z.mod_pos_bound z 256 ltac:(lia)) as Hm.
  destruct (Byte.of_N (Z.to_N (z mod 256))) as [b|] eqn:E.
  - apply Byte.to_of_N in E. rewrite E. lia.
  - apply Byte.of_N_None_iff in E. lia.
Qed.

Lemma z2b_b2z (b : byte) : z2b (b2z b) = b.
Proof.
  unfold z2b, b2z.
  rewrite Z.mod_small by (pose proof (Byte.to_N_bounded b); lia).
  rewrite N2Z.id, Byte.of_to_N. reflexivity.
Qed.

Lemma b2z_inj (a b : byte) : b2z a = b2z b -> a = b.
Proof.
  intros H. rewrite <- (z2b_b2z a), <- (z2b_b2z b), H. reflexivity.
Qed.

Lemma beqb_eq (a b : byte) : beqb a b = true <-> a = b.
Proof.
  unfold beqb. rewrite Z.eqb_eq. split; [apply b2z_inj | congruence].
Qed.

Lemma beqb_refl (a : byte) : beqb a a = true.
Proof. apply beqb_eq. reflexivity. Qed.

Lemma bytes_eqb_eq (x y : list byte) : bytes_eqb x y = true <-> x = y.
Proof.
  revert y. induction x as [|a x IH]; intros [|b y]; simpl; try (split; congruence).
  rewrite andb_true_iff, beqb_eq, IH. split; [intros [-> ->]; reflexivity | intros [= -> ->]; auto].
Qed.

Lemma HasPrefix_app (p s : list byte) : HasPrefix (p ++ s) p = true.
Proof.
  induction p as [|a p IH]; simpl; [reflexivity|].
  rewrite beqb_refl, IH. reflexivity.
Qed.

Lemma all_bytes_nth (b : byte) : nth (Byte.to_nat b) all_bytes Byte.x00 = b.
Proof. destruct b; reflexivity. Qed.

Lemma In_all_bytes (b : byte) : In b all_bytes.
Proof.
  rewrite <- (all_bytes_nth b). apply nth_In.
  pose proof (Byte.to_nat_bounded b). change (List.length all_bytes) with 256%nat. lia.
Qed.

(** A property checked on the 256 byte values holds of every byte. *)
Lemma forall_bytes (P : byte -> bool) :
  forallb P all_bytes = true -> forall b, P b = true.
Proof.
  intros H b. rewrite forallb_forall in H. apply H, In_all_bytes.
Qed.

Lemma forall_bytes2 (P : byte -> byte -> bool) :
  forallb (fun a => forallb (P a) all_bytes) all_bytes = true ->
  forall a b, P a b = true.
Proof.
  intros H a b.
  apply (forall_bytes (P a)). apply (forall_bytes _ H).
Qed.

(** ** Bits of the pieces of a word *)

Lemma testbit_mod256 (x n : Z) :
  0 <= n -> Z.testbit (x mod 256) n = (n <? 8) && Z.testbit x n.
Proof.
  intros Hn. change 256 with (2 ^ 8).
  rewrite <- Z.land_ones by lia.
  rewrite Z.land_spec, Z.testbit_ones by lia.
  destruct (Z.leb_spec 0 n); try lia.
  simpl. apply andb_comm.
Qed.

Lemma testbit_above (x k n : Z) :
  0 <= x < 2 ^ k -> k <= n -> Z.testbit x n = false.
Proof.
  intros Hx Hn.
  destruct (Z.eq_dec x 0) as [->|Hnz]; [apply Z.bits_0|].
  apply Z.bits_above_log2; [lia|].
  assert (Z.log2 x < k); [|lia].
  assert (0 <= k) by (destruct (Z.le_gt_cases 0 k); [lia|]; rewrite Z.pow_neg_r in Hx; lia).
  apply Z.log2_lt_pow2; lia.
Qed.

Lemma bounded_of_bits (x k : Z) :
  0 <= k -> 0 <= x -> (forall n, k <= n -> Z.testbit x n = false) -> x < 2 ^ k.
Proof.
  intros Hk Hx H.
  destruct (Z.eq_dec x 0) as [->|Hnz]; [apply Z.pow_pos_nonneg; lia|].
  apply Z.log2_lt_pow2; [lia|].
  destruct (Z.lt_ge_cases (Z.log2 x) k) as [|Hge]; [assumption|].
  specialize (H _ Hge). rewrite Z.bit_log2 in H by lia. discriminate.
Qed.

Lemma lxor_range (a b k : Z) :
  0 <= k -> 0 <= a < 2 ^ k -> 0 <= b < 2 ^ k -> 0 <= Z.lxor a b < 2 ^ k.
Proof.
  intros Hk Ha Hb.
  assert (0 <= Z.lxor a b) by (apply Z.lxor_nonneg; lia).
  split; [assumption|].
  apply bounded_of_bits; try assumption.
  intros n Hn. rewrite Z.lxor_spec, (testbit_above a k), (testbit_above b k) by lia.
  reflexivity.
Qed.

Lemma shiftr_range (a k j : Z) :
  0 <= j <= k -> 0 <= a < 2 ^ k -> 0 <= Z.shiftr a j < 2 ^ (k - j).
Proof.
  intros Hj Ha.
  assert (0 <= Z.shiftr a j) by (apply Z.shiftr_nonneg; lia).
  split; [assumption|].
  apply bounded_of_bits; try lia.
  intros n Hn. rewrite Z.shiftr_spec by lia. apply (testbit_above a k); lia.
Qed.

Lemma testbit_byte (b : byte) (n : Z) : 8 <= n -> Z.testbit (b2z b) n = false.
Proof.
  intros Hn. apply (testbit_above _ 8); [|assumption].
  pose proof (b2z_range b). change (2 ^ 8) with 256. lia.
Qed.

(** ** Big-endian 32-bit words *)

Lemma PutUint32_length (v : Z) : List.length (PutUint32 v) = 4%nat.
Proof. reflexivity. Qed.

Lemma Uint32_PutUint32 (v : Z) (rest : list byte) :
  0 <= v < 2 ^ 32 -> Uint32 (PutUint32 v ++ rest) = v.
Proof.
  intros Hv. unfold Uint32, PutUint32. simpl nth.
  rewrite !b2z_z2b.
  apply Z.bits_inj'. intros n Hn.
  rewrite !Z.lor_spec, !Z.shiftl_spec by lia.
  rewrite testbit_mod256 by lia.
  destruct (Z.ltb_spec n 8).
  { rewrite !(Z.testbit_neg_r _ (n - _)) by lia. rewrite !orb_false_r. reflexivity. }
  destruct (Z.lt_ge_cases n 16).
  { rewrite !(Z.testbit_neg_r _ (n - 16)), !(Z.testbit_neg_r _ (n - 24)) by lia.
    rewrite testbit_mod256, Z.shiftr_spec by lia.
    replace (n - 8 + 8) with n by lia.
    destruct (Z.ltb_spec (n - 8) 8); [|lia]. simpl. rewrite !orb_false_r. reflexivity. }
  destruct (Z.lt_ge_cases n 24).
  { rewrite !(Z.testbit_neg_r _ (n - 24)) by lia.
    rewrite !testbit_mod256, !Z.shiftr_spec by lia.
    replace (n - 16 + 16) with n by lia.
    destruct (Z.ltb_spec (n - 8) 8); [lia|].
    destruct (Z.ltb_spec (n - 16) 8); [|lia]. simpl. rewrite !orb_false_r. reflexivity. }
  rewrite !testbit_mod256, !Z.shiftr_spec by lia.
  replace (n - 24 + 24) with n by lia.
  destruct (Z.ltb_spec (n - 8) 8); [lia|].
  destruct (Z.ltb_spec (n - 16) 8); [lia|]. simpl.
  destruct (Z.ltb_spec (n - 24) 8); simpl; [reflexivity|].
  symmetry. apply (testbit_above v 32); lia.
Qed.

Lemma Uint32_range (b : list byte) : 0 <= Uint32 b < 2 ^ 32.
Proof.
  unfold Uint32.
  pose proof (b2z_range (nth 0 b Byte.x00)).
  pose proof (b2z_range (nth 1 b Byte.x00)).
  pose proof (b2z_range (nth 2 b Byte.x00)).
  pose proof (b2z_range (nth 3 b Byte.x00)).
  assert (Hnn : 0 <= Z.lor (Z.lor (Z.lor (b2z (nth 3 b Byte.x00))
                      (Z.shiftl (b2z (nth 2 b Byte.x00)) 8))
               (Z.shiftl (b2z (nth 1 b Byte.x00)) 16))
        (Z.shiftl (b2z (nth 0 b Byte.x00)) 24)).
  { repeat (apply Z.lor_nonneg; split); try apply Z.shiftl_nonneg; lia. }
  split; [assumption|].
  apply bounded_of_bits; try lia.
  intros n Hn. rewrite !Z.lor_spec, !Z.shiftl_spec by lia.
  rewrite !testbit_byte by lia. reflexivity.
Qed.

(** The word read back depends on the four bytes only. *)
Lemma Uint32_bytes (a b c d : byte) (rest : list byte) :
  Uint32 (a :: b :: c :: d :: rest) = Uint32 [a; b; c; d].
Proof. reflexivity. Qed.

Lemma set_nth_length (i : nat) (v : byte) (s : list byte) :
  List.length (set_nth i v s) = List.length s.
Proof.
  revert i. induction s as [|a s IH]; intros [|i]; simpl; auto.
Qed.

Lemma set_nth_app_l (i : nat) (v : byte) (s t : list byte) :
  (i < List.length s)%nat -> set_nth i v (s ++ t) = set_nth i v s ++ t.
Proof.
  revert i. induction s as [|a s IH]; intros [|i] H; simpl in *; try lia; auto.
  rewrite IH by lia. reflexivity.
Qed.

Lemma set_nth_app_r (i : nat) (v : byte) (s t : list byte) :
  (List.length s <= i)%nat -> set_nth i v (s ++ t) = s ++ set_nth (i - List.length s) v t.
Proof.
  revert i. induction s as [|a s IH]; intros i H; simpl in *.
  - rewrite Nat.sub_0_r. reflexivity.
  - destruct i as [|i]; [lia|]. simpl. rewrite IH by lia. reflexivity.
Qed.


End BytesFacts.

Import ListNotations Bytes BytesFacts.
Open Scope Z_scope.

(** * Facts about the CRC-32 model *)

Module CRC32Facts.
Import CRC32.



Lemma not32_involutive (x : Z) : not32 (not32 x) = x.
Proof.
  unfold not32. rewrite Z.lxor_assoc, Z.lxor_nilpotent, Z.lxor_0_r. reflexivity.
Qed.

Lemma not32_range (x : Z) : 0 <= x < 2 ^ 32 -> 0 <= not32 x < 2 ^ 32.
Proof. intros H. apply lxor_range; lia. Qed.


(** ** The table *)

Lemma tab_range_bytes (b : byte) : 0 <= tab (b2z b) < 2 ^ 32.
Proof.
  assert (H : ((0 <=? tab (b2z b)) && (tab (b2z b) <? 2 ^ 32)) = true).
  { revert b. apply forall_bytes. vm_compute. reflexivity. }
  apply andb_true_iff in H. destruct H as [H1 H2].
  apply Z.leb_le in H1. apply Z.ltb_lt in H2. lia.
Qed.





(** ** One step of the update loop *)

Lemma step_range (c : Z) (v : byte) : 0 <= c < 2 ^ 32 -> 0 <= step c v < 2 ^ 32.
Proof.
  intros Hc. unfold step. apply lxor_range; [lia|apply tab_range_bytes|].
  pose proof (shiftr_range c 32 8 ltac:(lia) Hc) as H. simpl in H.
  change (2 ^ (32 - 8)) with 16777216 in H. lia.
Qed.



Lemma fold_step_range (p : list byte) (c : Z) :
  0 <= c < 2 ^ 32 -> 0 <= fold_left step p c < 2 ^ 32.
Proof.
  revert c. induction p as [|v p IH]; intros c Hc; simpl; [exact Hc|].
  apply IH, step_range, Hc.
Qed.


(** ** The checksum *)

Lemma Update_range (c : Z) (p : list byte) :
  0 <= c < 2 ^ 32 -> 0 <= Update c p < 2 ^ 32.
Proof.
  intros Hc. unfold Update. apply not32_range, fold_step_range, not32_range, Hc.
Qed.

(** Feeding a hash in two writes is feeding it the concatenation. *)
Lemma Update_app (c : Z) (a b : list byte) :
  Update (Update c a) b = Update c (a ++ b).
Proof.
  unfold Update. rewrite not32_involutive, fold_left_app. reflexivity.
Qed.

Lemma ChecksumIEEE_range (p : list byte) : 0 <= ChecksumIEEE p < 2 ^ 32.
Proof. apply Update_range. lia. Qed.


End CRC32Facts.

Import ListNotations Bytes BytesFacts.
Open Scope Z_scope.

(** * Facts about the frame codec *)

Module FrameFacts.
Import Frame CRC32Facts.

Lemma ReadFull_app (a b : list byte) :
  ReadFull (a ++ b) (List.length a) = (a, None, b).
Proof.
  unfold ReadFull. destruct a as [|x a]; [reflexivity|].
  cbn [List.length].
  replace (List.length ((x :: a) ++ b) <? S (List.length a))%nat with false.
  2:{ symmetry. apply Nat.ltb_ge. rewrite length_app. simpl. lia. }
  change (S (List.length a)) with (List.length (x :: a)).
  rewrite firstn_app, Nat.sub_diag, firstn_all, skipn_app, Nat.sub_diag, skipn_all.
  simpl. rewrite app_nil_r. reflexivity.
Qed.

Lemma ReadFull_long (r : list byte) (n : nat) :
  (n <= List.length r)%nat -> ReadFull r n = (firstn n r, None, skipn n r).
Proof.
  intros H. unfold ReadFull. destruct n as [|n]; [reflexivity|].
  apply Nat.ltb_ge in H. rewrite H. reflexivity.
Qed.

Lemma ReadFull_short (r : list byte) (n : nat) :
  (List.length r < n)%nat -> exists e, ReadFull r n = (r, Some e, []).
Proof.
  intros H. unfold ReadFull. destruct n as [|n]; [lia|].
  apply Nat.ltb_lt in H. rewrite H. eexists. reflexivity.
Qed.

Lemma contents_fill (p : slice) (data : list byte) :
  len p = List.length data -> contents (fill p data) = data.
Proof.
  intros H. unfold contents, fill. simpl. rewrite H.
  rewrite firstn_app, Nat.sub_diag, firstn_all. simpl. apply app_nil_r.
Qed.

Lemma parse_write_header (p s c l : Z) :
  0 <= p < 2 ^ 32 -> 0 <= s < 2 ^ 32 -> 0 <= c < 2 ^ 32 -> 0 <= l < 2 ^ 32 ->
  parse_header (write_header (mkHeader p s c l)) = mkHeader p s c l.
Proof.
  intros Hp Hs Hc Hl. unfold parse_header, write_header. cbn [Prefix hSeq hCmd Length].
  f_equal.
  - apply Uint32_PutUint32, Hp.
  - change (skipn 4 (PutUint32 p ++ ?x)) with x. apply Uint32_PutUint32, Hs.
  - change (skipn 8 (PutUint32 p ++ PutUint32 s ++ ?x)) with x. apply Uint32_PutUint32, Hc.
  - change (skipn 12 (PutUint32 p ++ PutUint32 s ++ PutUint32 c ++ ?x)) with x.
    rewrite <- (app_nil_r (PutUint32 l)). apply Uint32_PutUint32, Hl.
Qed.

Lemma parse_write_trailer (c s : Z) :
  0 <= c < 2 ^ 32 -> 0 <= s < 2 ^ 32 ->
  parse_trailer (write_trailer (mkTrailer c s)) = mkTrailer c s.
Proof.
  intros Hc Hs. unfold parse_trailer, write_trailer. cbn [CRC Suffix].
  f_equal.
  - apply Uint32_PutUint32, Hc.
  - change (skipn 4 (PutUint32 c ++ ?x)) with x.
    rewrite <- (app_nil_r (PutUint32 s)). apply Uint32_PutUint32, Hs.
Qed.

(** The buffer chosen for a payload of a size within bounds. *)
Lemma payload_buffer_ok (p : slice) (n : nat) :
  Z.of_nat n <= MaxPayloadSize ->
  exists q, payload_buffer p (Z.of_nat n) = (Nil, q) /\ len q = n.
Proof.
  intros Hn. unfold payload_buffer.
  destruct (cap p <? Z.of_nat n).
  - destruct (Z.gtb_spec (Z.of_nat n) MaxPayloadSize); [lia|].
    eexists. split; [reflexivity|]. simpl. apply Nat2Z.id.
  - destruct (Z.ltb_spec (Z.of_nat n) 0); [lia|].
    eexists. split; [reflexivity|]. simpl. apply Nat2Z.id.
Qed.

(** [Decode] on a stream that holds a well-delimited frame: everything
    but the checksum comparison succeeds. *)
Lemma Decode_wire (f0 : Frame) (hb pb rest : list byte) (c : Z) :
  List.length hb = 16%nat ->
  Prefix (parse_header hb) = prefixValue ->
  Length (parse_header hb) = Z.of_nat (List.length pb) + trailerSize ->
  Z.of_nat (List.length pb) <= MaxPayloadSize ->
  0 <= c < 2 ^ 32 ->
  exists p, contents p = pb /\
    Decode f0 (hb ++ pb ++ write_trailer (mkTrailer c suffixValue) ++ rest) =
    (if CRC32.ChecksumIEEE (hb ++ pb) =? c then Nil
     else Err (CRCMismatch (CRC32.ChecksumIEEE (hb ++ pb)) c),
     mkFrame (hSeq (parse_header hb)) (hCmd (parse_header hb)) p, rest).
Proof.
  intros Hlen Hpre Hlength Hmax Hc.
  destruct (payload_buffer_ok (Payload f0) (List.length pb) Hmax) as (q & Hq & Hlenq).
  exists (fill q pb). split; [apply contents_fill, Hlenq|].
  unfold Decode.
  change (Z.to_nat headerSize) with 16%nat. rewrite <- Hlen, ReadFull_app.
  cbv beta iota zeta.
  rewrite Hpre, Z.eqb_refl. cbn [negb Payload Seq Cmd].
  rewrite Hlength. replace (Z.of_nat (List.length pb) + trailerSize - trailerSize)
    with (Z.of_nat (List.length pb)) by lia.
  rewrite Hq. cbv beta iota zeta. rewrite Hlenq, ReadFull_app.
  cbv beta iota zeta.
  change (Z.to_nat trailerSize) with (List.length (write_trailer (mkTrailer c suffixValue))).
  rewrite ReadFull_app. cbv beta iota zeta.
  rewrite parse_write_trailer by (unfold suffixValue; lia).
  cbn [Suffix CRC]. rewrite Z.eqb_refl. cbn [negb].
  rewrite Update_app. fold (CRC32.ChecksumIEEE (hb ++ pb)).
  destruct (CRC32.ChecksumIEEE (hb ++ pb) =? c); reflexivity.
Qed.

Lemma write_header_length (h : header) : List.length (write_header h) = 16%nat.
Proof. reflexivity. Qed.

(** What [buffer] produces for a payload within bounds. *)
Lemma buffer_ok (f : Frame) :
  Z.of_nat (List.length (contents (Payload f))) <= MaxPayloadSize ->
  buffer f =
  inr (let pb := contents (Payload f) in
       let hb := write_header (mkHeader prefixValue (Seq f) (Cmd f)
                                        (Z.of_nat (List.length pb) + trailerSize)) in
       hb ++ pb ++ write_trailer (mkTrailer (CRC32.ChecksumIEEE (hb ++ pb)) suffixValue)).
Proof.
  intros Hmax. unfold buffer.
  destruct (Z.gtb_spec (Z.of_nat (List.length (contents (Payload f)))) MaxPayloadSize); [lia|].
  unfold uint32. rewrite Z.mod_small by (unfold MaxPayloadSize, maxPacketSize, trailerSize in *; lia).
  cbv zeta. rewrite <- app_assoc. reflexivity.
Qed.

End FrameFacts.

Module FrameTamper.
Import Frame CRC32Facts FrameFacts.


Lemma skipn_set_nth (k i : nat) (v : byte) (l : list byte) :
  (i < k)%nat -> skipn k (set_nth i v l) = skipn k l.
Proof.
  revert k i. induction l as [|a l IH]; intros [|k] [|i] H; simpl; try reflexivity; try lia.
  apply IH. lia.
Qed.


Lemma Uint32_skipn (k : nat) (l : list byte) :
  Uint32 (skipn k l) =
  Z.lor (Z.lor (Z.lor (b2z (nth (k + 3) l Byte.x00))
                      (Z.shiftl (b2z (nth (k + 2) l Byte.x00)) 8))
               (Z.shiftl (b2z (nth (k + 1) l Byte.x00)) 16))
        (Z.shiftl (b2z (nth (k + 0) l Byte.x00)) 24).
Proof.
  unfold Uint32. rewrite !nth_skipn. reflexivity.
Qed.




End FrameTamper.

Import ListNotations Bytes BytesFacts.
Open Scope Z_scope.

(** * The frame codec: round trip, length bounds, integrity *)

Section FrameClaims.
  Import Frame CRC32Facts FrameFacts FrameTamper.

(** C1. Frame round trip: a frame whose sequence and command numbers are
    32-bit values and whose payload has at most [MaxPayloadSize] bytes is
    serialized by [buffer] (the body of [Encode]), and [Decode] of those
    bytes, into a new frame as [DecodeFrame] does or into any existing
    one, returns nil, leaves no byte unread, and yields the same sequence
    number, command number and payload. *)
Theorem frame_roundtrip (f f0 : Frame) :
  0 <= Seq f < 2 ^ 32 ->
  0 <= Cmd f < 2 ^ 32 ->
  Z.of_nat (List.length (contents (Payload f))) <= MaxPayloadSize ->
  exists wire p,
    buffer f = inr wire /\
    contents p = contents (Payload f) /\
    Decode f0 wire = (Nil, mkFrame (Seq f) (Cmd f) p, []) /\
    fst (fst (DecodeFrame wire)) = Nil /\ snd (DecodeFrame wire) = [].
Proof.
  intros Hs Hc Hmax.
  set (pb := contents (Payload f)) in *.
  set (hd := mkHeader prefixValue (Seq f) (Cmd f) (Z.of_nat (List.length pb) + trailerSize)).
  assert (Hparse : parse_header (write_header hd) = hd).
  { apply parse_write_header; try assumption; unfold prefixValue; try lia.
    unfold MaxPayloadSize, maxPacketSize, trailerSize in *. lia. }
  assert (Hdec : forall g, exists p, contents p = pb /\
            Decode g (write_header hd ++ pb ++
                      write_trailer (mkTrailer (CRC32.ChecksumIEEE (write_header hd ++ pb)) suffixValue))
            = (Nil, mkFrame (Seq f) (Cmd f) p, [])).
  { intros g.
    destruct (Decode_wire g (write_header hd) pb [] (CRC32.ChecksumIEEE (write_header hd ++ pb)))
      as (p & Hp & Hd).
    - reflexivity.
    - rewrite Hparse. reflexivity.
    - rewrite Hparse. reflexivity.
    - exact Hmax.
    - apply ChecksumIEEE_range.
    - exists p. split; [exact Hp|].
      rewrite app_nil_r in Hd. rewrite Hd, Z.eqb_refl, Hparse. reflexivity. }
  destruct (Hdec f0) as (p & Hp & Hd).
  destruct (Hdec (mkFrame 0 0 nil_slice)) as (p1 & Hp1 & Hd1).
  exists (write_header hd ++ pb ++
          write_trailer (mkTrailer (CRC32.ChecksumIEEE (write_header hd ++ pb)) suffixValue)), p.
  split; [rewrite buffer_ok by exact Hmax; reflexivity|].
  split; [exact Hp|]. split; [exact Hd|].
  unfold DecodeFrame. rewrite Hd1. split; reflexivity.
Qed.


End FrameClaims.

Import ListNotations Bytes BytesFacts.
Open Scope Z_scope.

Section FrameExamples.
  Import Frame TestVectors.

(** The model agrees with [TestFrameEncode] and [TestDecodeFrame]. *)
Example buffer_testFrame : buffer testFrame = inr testData.
Proof. vm_compute. reflexivity. Qed.

Example DecodeFrame_testData :
  fst (fst (DecodeFrame testData)) = Nil /\ snd (DecodeFrame testData) = [].
Proof. vm_compute. split; reflexivity. Qed.

(** [TestDecodeFrameBadCRC]: the corrupted byte is the last byte of the
    trailer's CRC field. *)
Example DecodeFrame_testData_bad_crc :
  fst (fst (DecodeFrame (set_nth (List.length testData - 5)
                                 (z2b (b2z (nth (List.length testData - 5) testData Byte.x00) + 1))
                                 testData)))
  = Err (CRCMismatch 0x5bb713b0 0x5bb713b1).
Proof. vm_compute. reflexivity. Qed.

Lemma frame_roundtrip_witness :
  (0 <= Seq sampleFrame < 2 ^ 32 /\ 0 <= Cmd sampleFrame < 2 ^ 32 /\
   Z.of_nat (List.length (contents (Payload sampleFrame))) <= MaxPayloadSize) /\
  exists wire p,
    buffer sampleFrame = inr wire /\
    contents p = contents (Payload sampleFrame) /\
    Decode testFrame wire = (Nil, mkFrame (Seq sampleFrame) (Cmd sampleFrame) p, []) /\
    fst (fst (DecodeFrame wire)) = Nil /\ snd (DecodeFrame wire) = [].
Proof.
  assert (H : 0 <= Seq sampleFrame < 2 ^ 32 /\ 0 <= Cmd sampleFrame < 2 ^ 32 /\
   Z.of_nat (List.length (contents (Payload sampleFrame))) <= MaxPayloadSize).
  { vm_compute. repeat split; discriminate. }
  split; [exact H|].
  destruct H as (H1 & H2 & H3).
  exact (frame_roundtrip sampleFrame testFrame H1 H2 H3).
Defined.

(** C4. The code breaks the claim on the sixteen bytes of a header
    with the right prefix, sequence number 1, command 10 and length
    field 0, a stream any peer can send. [payloadSize] is then -8; no
    capacity is smaller than that, so the size check, which is made only
    when a buffer has to be allocated, is passed over, and the re-slicing
    [f.Payload[:payloadSize]] panics where the claim asks for an error.
    The sequence and command numbers have been stored by then. *)
Lemma decode_negative_size_panics :
  Length (parse_header (firstn 16 (header_with_length 0))) - trailerSize < 0 /\
  DecodeFrame (header_with_length 0) =
  (Panic "slice bounds out of range", mkFrame 1 10 nil_slice, []).
Proof. vm_compute. split; reflexivity. Qed.



End FrameExamples.

Import ListNotations Bytes BytesFacts.
Open Scope Z_scope.

(** * Lists cut at the end of a prefix *)

Module ListFacts.

Lemma skipn_length_app (A : Type) (l r : list A) : skipn (List.length l) (l ++ r) = r.
Proof. induction l; simpl; auto. Qed.

Lemma firstn_length_app (A : Type) (l r : list A) : firstn (List.length l) (l ++ r) = l.
Proof. induction l; simpl; congruence. Qed.

Lemma skipn_length_app_n (A : Type) (n : nat) (l r : list A) :
  List.length l = n -> skipn n (l ++ r) = r.
Proof. intros <-. apply skipn_length_app. Qed.

Lemma firstn_length_app_n (A : Type) (n : nat) (l r : list A) :
  List.length l = n -> firstn n (l ++ r) = l.
Proof. intros <-. apply firstn_length_app. Qed.

Lemma firstn_app_short (A : Type) (n : nat) (l r : list A) :
  (n <= List.length l)%nat -> firstn n (l ++ r) = firstn n l.
Proof.
  revert n. induction l as [|a l IH]; intros [|n] H; simpl in *; try lia; auto.
  rewrite IH by lia. reflexivity.
Qed.

Lemma firstn_app_long (A : Type) (n : nat) (l r : list A) :
  (List.length l <= n)%nat -> firstn n (l ++ r) = l ++ firstn (n - List.length l) r.
Proof.
  revert n. induction l as [|a l IH]; intros n H; simpl in *.
  - rewrite Nat.sub_0_r. reflexivity.
  - destruct n as [|n]; [lia|]. simpl. rewrite IH by lia. reflexivity.
Qed.

End ListFacts.

Import ListNotations Bytes BytesFacts.
Open Scope Z_scope.

(** * The AES block cipher is invertible *)

Module AESFacts.
Import AES.

(** ** Exclusive or on bytes *)

Ltac bits_of b :=
  let t := fresh "t" in
  destruct (Byte.to_bits b) as (?b0 & ?b1 & ?b2 & ?b3 & ?b4 & ?b5 & ?b6 & ?b7) eqn:t.

Lemma xor8_comm (a b : byte) : xor8 a b = xor8 b a.
Proof.
  unfold xor8. bits_of a. bits_of b.
  rewrite !(xorb_comm b0), !(xorb_comm b1), !(xorb_comm b2), !(xorb_comm b3),
    !(xorb_comm b4), !(xorb_comm b5), !(xorb_comm b6), !(xorb_comm b7).
  reflexivity.
Qed.

Lemma xor8_assoc (a b c : byte) : xor8 a (xor8 b c) = xor8 (xor8 a b) c.
Proof.
  unfold xor8. bits_of a. bits_of b. bits_of c.
  rewrite !Byte.to_bits_of_bits, !xorb_assoc. reflexivity.
Qed.

Lemma xor8_0_r (a : byte) : xor8 a Byte.x00 = a.
Proof.
  unfold xor8. bits_of a.
  change (Byte.to_bits Byte.x00)
    with (false, (false, (false, (false, (false, (false, (false, false))))))).
  cbv beta iota. rewrite !xorb_false_r, <- t.
  apply Byte.of_bits_to_bits.
Qed.

Lemma xor8_0_l (a : byte) : xor8 Byte.x00 a = a.
Proof. rewrite xor8_comm. apply xor8_0_r. Qed.

Lemma xor8_nilpotent (a : byte) : xor8 a a = Byte.x00.
Proof. unfold xor8. bits_of a. rewrite !xorb_nilpotent. reflexivity. Qed.

(** Adding the same byte twice changes nothing. *)
Lemma xor8_involutive (a k : byte) : xor8 (xor8 a k) k = a.
Proof. rewrite <- xor8_assoc, xor8_nilpotent. apply xor8_0_r. Qed.

#[export] Instance xor8_Associative : Associative eq xor8.
Proof. intros a b c. apply xor8_assoc. Qed.

#[export] Instance xor8_Commutative : Commutative eq xor8.
Proof. intros a b. apply xor8_comm. Qed.

#[export] Instance xor8_Unit : Unit eq xor8 Byte.x00.
Proof. split; intros a; [apply xor8_0_l | apply xor8_0_r]. Qed.

(** ** Field multiplications are linear *)

Lemma inv_sub_sub (b : byte) : inv_sub (sub b) = b.
Proof.
  apply beqb_eq. revert b.
  apply (forall_bytes (fun b => beqb (inv_sub (sub b)) b)). vm_compute. reflexivity.
Qed.

Lemma xtime_xor (a b : byte) : xtime (xor8 a b) = xor8 (xtime a) (xtime b).
Proof.
  apply beqb_eq. revert a b.
  apply (forall_bytes2 (fun a b => beqb (xtime (xor8 a b)) (xor8 (xtime a) (xtime b)))).
  vm_compute. reflexivity.
Qed.

Lemma mul2_xor (a b : byte) : mul2 (xor8 a b) = xor8 (mul2 a) (mul2 b).
Proof. apply xtime_xor. Qed.

Lemma mul3_xor (a b : byte) : mul3 (xor8 a b) = xor8 (mul3 a) (mul3 b).
Proof. unfold mul3. rewrite xtime_xor. aac_reflexivity. Qed.

Lemma mul4_xor (a b : byte) : mul4 (xor8 a b) = xor8 (mul4 a) (mul4 b).
Proof. unfold mul4. rewrite !xtime_xor. reflexivity. Qed.

Lemma mul8_xor (a b : byte) : mul8 (xor8 a b) = xor8 (mul8 a) (mul8 b).
Proof. unfold mul8. rewrite mul4_xor, xtime_xor. reflexivity. Qed.

Lemma mul9_xor (a b : byte) : mul9 (xor8 a b) = xor8 (mul9 a) (mul9 b).
Proof. unfold mul9. rewrite mul8_xor. aac_reflexivity. Qed.

Lemma mul11_xor (a b : byte) : mul11 (xor8 a b) = xor8 (mul11 a) (mul11 b).
Proof. unfold mul11. rewrite mul8_xor, mul2_xor. aac_reflexivity. Qed.

Lemma mul13_xor (a b : byte) : mul13 (xor8 a b) = xor8 (mul13 a) (mul13 b).
Proof. unfold mul13. rewrite mul8_xor, mul4_xor. aac_reflexivity. Qed.

Lemma mul14_xor (a b : byte) : mul14 (xor8 a b) = xor8 (mul14 a) (mul14 b).
Proof. unfold mul14. rewrite mul8_xor, mul4_xor, mul2_xor. aac_reflexivity. Qed.

(** ** Columns *)

Lemma MixColumn_xor (u v : word) : MixColumn (wxor u v) = wxor (MixColumn u) (MixColumn v).
Proof.
  destruct u as [[[a b] c] d], v as [[[e f] g] h]. unfold MixColumn, wxor.
  rewrite !mul2_xor, !mul3_xor.
  apply f_equal2; [apply f_equal2; [apply f_equal2|]|]; aac_reflexivity.
Qed.

Lemma InvMixColumn_xor (u v : word) :
  InvMixColumn (wxor u v) = wxor (InvMixColumn u) (InvMixColumn v).
Proof.
  destruct u as [[[a b] c] d], v as [[[e f] g] h]. unfold InvMixColumn, wxor.
  rewrite !mul9_xor, !mul11_xor, !mul13_xor, !mul14_xor.
  apply f_equal2; [apply f_equal2; [apply f_equal2|]|]; aac_reflexivity.
Qed.

Lemma word_eqb_eq (u v : word) : word_eqb u v = true -> u = v.
Proof.
  destruct u as [[[a b] c] d], v as [[[e f] g] h]. unfold word_eqb.
  rewrite !andb_true_iff, !beqb_eq. intros [[[-> ->] ->] ->]. reflexivity.
Qed.

(** On a column with a single non-zero byte. *)
Lemma InvMixColumn_MixColumn_unit (x : byte) :
  let z := Byte.x00 in
  InvMixColumn (MixColumn (x, z, z, z)) = (x, z, z, z) /\
  InvMixColumn (MixColumn (z, x, z, z)) = (z, x, z, z) /\
  InvMixColumn (MixColumn (z, z, x, z)) = (z, z, x, z) /\
  InvMixColumn (MixColumn (z, z, z, x)) = (z, z, z, x).
Proof.
  intros z.
  pose (P := fun x : byte =>
            word_eqb (InvMixColumn (MixColumn (x, z, z, z))) (x, z, z, z) &&
            word_eqb (InvMixColumn (MixColumn (z, x, z, z))) (z, x, z, z) &&
            word_eqb (InvMixColumn (MixColumn (z, z, x, z))) (z, z, x, z) &&
            word_eqb (InvMixColumn (MixColumn (z, z, z, x))) (z, z, z, x)).
  assert (H : P x = true).
  { apply (forall_bytes P). vm_compute. reflexivity. }
  unfold P in H. rewrite !andb_true_iff in H. destruct H as [[[H1 H2] H3] H4].
  repeat split; apply word_eqb_eq; assumption.
Qed.

Lemma InvMixColumn_MixColumn (w : word) : InvMixColumn (MixColumn w) = w.
Proof.
  destruct w as [[[a b] c] d].
  set (z := Byte.x00).
  assert (E : (a, b, c, d) =
              wxor (wxor (wxor (a, z, z, z) (z, b, z, z)) (z, z, c, z)) (z, z, z, d)).
  { unfold wxor, z. rewrite !xor8_0_l, !xor8_0_r. reflexivity. }
  rewrite E at 1. rewrite !MixColumn_xor, !InvMixColumn_xor. subst z.
  destruct (InvMixColumn_MixColumn_unit a) as (-> & _).
  destruct (InvMixColumn_MixColumn_unit b) as (_ & -> & _).
  destruct (InvMixColumn_MixColumn_unit c) as (_ & _ & -> & _).
  destruct (InvMixColumn_MixColumn_unit d) as (_ & _ & _ & ->).
  unfold wxor. rewrite !xor8_0_l, !xor8_0_r. reflexivity.
Qed.

(** ** The four transformations of the state *)

Lemma InvMixColumns_MixColumns (s : block) : InvMixColumns (MixColumns s) = s.
Proof.
  destruct s as [[[a b] c] d]. unfold InvMixColumns, MixColumns, bmap.
  rewrite !InvMixColumn_MixColumn. reflexivity.
Qed.

Lemma InvSubBytes_SubBytes (s : block) : InvSubBytes (SubBytes s) = s.
Proof.
  destruct s as [[[[[[a0 a1] a2] a3] [[[b0 b1] b2] b3]] [[[c0 c1] c2] c3]] [[[d0 d1] d2] d3]].
  unfold InvSubBytes, SubBytes, bmap, wmap. rewrite !inv_sub_sub. reflexivity.
Qed.

Lemma InvShiftRows_ShiftRows (s : block) : InvShiftRows (ShiftRows s) = s.
Proof.
  destruct s as [[[[[[a0 a1] a2] a3] [[[b0 b1] b2] b3]] [[[c0 c1] c2] c3]] [[[d0 d1] d2] d3]].
  reflexivity.
Qed.

Lemma wxor_involutive (w k : word) : wxor (wxor w k) k = w.
Proof.
  destruct w as [[[a b] c] d], k as [[[e f] g] h]. unfold wxor.
  rewrite !xor8_involutive. reflexivity.
Qed.

Lemma AddRoundKey_involutive (s k : block) : AddRoundKey (AddRoundKey s k) k = s.
Proof.
  destruct s as [[[a b] c] d], k as [[[e f] g] h]. unfold AddRoundKey.
  rewrite !wxor_involutive. reflexivity.
Qed.

(** ** Rounds *)

(** Undoing a full round, seen from after the next [SubBytes]/[ShiftRows]. *)
Lemma inv_round_round (s k : block) :
  inv_round (ShiftRows (SubBytes (round s k))) k = ShiftRows (SubBytes s).
Proof.
  unfold inv_round, round.
  rewrite InvShiftRows_ShiftRows, InvSubBytes_SubBytes, AddRoundKey_involutive.
  apply InvMixColumns_MixColumns.
Qed.

Lemma inv_rounds_rounds (ks : list block) (s : block) :
  fold_left inv_round (rev ks) (ShiftRows (SubBytes (fold_left round ks s)))
  = ShiftRows (SubBytes s).
Proof.
  revert s. induction ks as [|k ks IH]; intros s; simpl; [reflexivity|].
  rewrite fold_left_app. simpl. rewrite IH. apply inv_round_round.
Qed.

(** The inverse cipher undoes the cipher on every block, whatever the
    round keys. *)
Lemma decryptBlock_encryptBlock (rk : list block) (s : block) :
  decryptBlock rk (encryptBlock rk s) = s.
Proof.
  destruct rk as [|k0 rest]; [reflexivity|].
  unfold decryptBlock, encryptBlock.
  rewrite AddRoundKey_involutive, inv_rounds_rounds.
  rewrite InvShiftRows_ShiftRows, InvSubBytes_SubBytes.
  apply AddRoundKey_involutive.
Qed.

(** ** Whole buffers *)

Lemma bytes_of_block_length (s : block) : List.length (bytes_of_block s) = 16%nat.
Proof.
  destruct s as [[[[[[a0 a1] a2] a3] [[[b0 b1] b2] b3]] [[[c0 c1] c2] c3]] [[[d0 d1] d2] d3]].
  reflexivity.
Qed.

Lemma ecb_bytes_of_block (f : block -> block) (s : block) (buf : list byte) :
  ecb f (bytes_of_block s ++ buf) = bytes_of_block (f s) ++ ecb f buf.
Proof.
  destruct s as [[[[[[a0 a1] a2] a3] [[[b0 b1] b2] b3]] [[[c0 c1] c2] c3]] [[[d0 d1] d2] d3]].
  reflexivity.
Qed.

(** A buffer of [n] whole blocks keeps its length and is restored by
    running the inverse cipher over it. *)
Lemma ecb_roundtrip (rk : list block) (n : nat) (buf : list byte) :
  List.length buf = (16 * n)%nat ->
  List.length (ecb (encryptBlock rk) buf) = (16 * n)%nat /\
  ecb (decryptBlock rk) (ecb (encryptBlock rk) buf) = buf.
Proof.
  revert buf. induction n as [|n IH]; intros buf Hlen.
  - destruct buf; [split; reflexivity | simpl in Hlen; lia].
  - do 16 (destruct buf as [|? buf]; [simpl in Hlen; lia|]).
    cbn [ecb].
    destruct (IH buf) as [IH1 IH2]; [simpl in Hlen; lia|].
    split.
    + rewrite length_app, bytes_of_block_length, IH1. lia.
    + rewrite ecb_bytes_of_block, decryptBlock_encryptBlock, IH2. reflexivity.
Qed.

End AESFacts.

Import ListNotations Bytes BytesFacts.
Open Scope Z_scope.

(** * Base64: decoding undoes encoding *)

Module Base64Facts.
Import Base64.

Lemma list_ind3 (A : Type) (P : list A -> Prop) :
  P [] -> (forall a, P [a]) -> (forall a b, P [a; b]) ->
  (forall a b c l, P l -> P (a :: b :: c :: l)) ->
  forall l, P l.
Proof.
  intros H0 H1 H2 H3.
  fix IH 1. intros [|a [|b [|c l]]]; [exact H0 | apply H1 | apply H2 | apply H3, IH].
Qed.

(** ** Digits *)

Lemma digit_range (x : Z) : 0 <= Z.land x 0x3f < 64.
Proof.
  change 0x3f with (Z.ones 6). rewrite Z.land_ones by lia.
  apply Z.mod_pos_bound. lia.
Qed.

Lemma decodeMap_enc (i : Z) : 0 <= i < 64 -> decodeMap (enc i) = Some i.
Proof.
  intros Hi.
  assert (H : forallb (fun n => match decodeMap (enc (Z.of_nat n)) with
                                | Some v => v =? Z.of_nat n
                                | None => false
                                end) (seq 0 64) = true) by (vm_compute; reflexivity).
  rewrite forallb_forall in H.
  specialize (H (Z.to_nat i) ltac:(apply in_seq; lia)).
  rewrite Z2Nat.id in H by lia.
  destruct (decodeMap (enc i)) as [v|]; [|discriminate].
  apply Z.eqb_eq in H. congruence.
Qed.

Lemma testbit_digit (val k n : Z) :
  0 <= k -> 0 <= n ->
  Z.testbit (Z.shiftl (Z.land (Z.shiftr val k) 0x3f) k) n
  = (k <=? n) && (n <? k + 6) && Z.testbit val n.
Proof.
  intros Hk Hn.
  destruct (Z.leb_spec k n).
  - rewrite Z.shiftl_spec by lia. change 0x3f with (Z.ones 6).
    rewrite Z.land_spec, Z.shiftr_spec, Z.testbit_ones by lia.
    replace (n - k + k) with n by lia.
    destruct (Z.leb_spec 0 (n - k)); [|lia].
    destruct (Z.ltb_spec (n - k) 6), (Z.ltb_spec n (k + 6)); try lia; simpl;
      rewrite ?andb_true_r, ?andb_false_r; reflexivity.
  - rewrite Z.shiftl_spec_low by lia. reflexivity.
Qed.

(** The four digits of a 24-bit group put the group back together. *)
Lemma digits_group (val : Z) :
  0 <= val < 2 ^ 24 ->
  Z.lor (Z.lor (Z.lor (Z.shiftl (Z.land (Z.shiftr val 18) 0x3f) 18)
                      (Z.shiftl (Z.land (Z.shiftr val 12) 0x3f) 12))
               (Z.shiftl (Z.land (Z.shiftr val 6) 0x3f) 6))
        (Z.land val 0x3f) = val.
Proof.
  intros Hv. apply Z.bits_inj'. intros n Hn.
  replace (Z.land val 0x3f) with (Z.shiftl (Z.land (Z.shiftr val 0) 0x3f) 0)
    by (rewrite Z.shiftl_0_r, Z.shiftr_0_r; reflexivity).
  rewrite !Z.lor_spec, !testbit_digit by lia.
  destruct (Z.lt_ge_cases n 24) as [Hlt|Hge].
  - destruct (Z.leb_spec 18 n), (Z.ltb_spec n (18 + 6)), (Z.leb_spec 12 n),
      (Z.ltb_spec n (12 + 6)), (Z.leb_spec 6 n), (Z.ltb_spec n (6 + 6)),
      (Z.leb_spec 0 n), (Z.ltb_spec n (0 + 6)); try lia; simpl;
      rewrite ?orb_false_r; reflexivity.
  - rewrite (testbit_above val 24 n) by lia. rewrite !andb_false_r. reflexivity.
Qed.

Lemma group_range (a b c : byte) :
  0 <= Z.lor (Z.lor (Z.shiftl (b2z a) 16) (Z.shiftl (b2z b) 8)) (b2z c) < 2 ^ 24.
Proof.
  pose proof (b2z_range a). pose proof (b2z_range b). pose proof (b2z_range c).
  assert (Hnn : 0 <= Z.lor (Z.lor (Z.shiftl (b2z a) 16) (Z.shiftl (b2z b) 8)) (b2z c)).
  { repeat (apply Z.lor_nonneg; split); try apply Z.shiftl_nonneg; lia. }
  split; [exact Hnn|].
  apply bounded_of_bits; try lia.
  intros n Hn. rewrite !Z.lor_spec, !Z.shiftl_spec by lia.
  rewrite !testbit_byte by lia. reflexivity.
Qed.

(** The three bytes of a group. *)
Lemma group_bytes_of (a b c : byte) :
  let val := Z.lor (Z.lor (Z.shiftl (b2z a) 16) (Z.shiftl (b2z b) 8)) (b2z c) in
  z2b (Z.shiftr val 16) = a /\ z2b (Z.shiftr val 8) = b /\ z2b val = c.
Proof.
  intros val.
  assert (Hbits : forall n, 0 <= n ->
            Z.testbit val n =
            (Z.testbit (b2z a) (n - 16) || Z.testbit (b2z b) (n - 8)) || Z.testbit (b2z c) n).
  { intros n Hn. unfold val. rewrite !Z.lor_spec, !Z.shiftl_spec by lia. reflexivity. }
  assert (Hbyte : forall x (y : byte),
            (forall n, 0 <= n < 8 -> Z.testbit x n = Z.testbit (b2z y) n) -> z2b x = y).
  { intros x y Hxy. apply b2z_inj. rewrite b2z_z2b.
    apply Z.bits_inj'. intros n Hn. rewrite testbit_mod256 by lia.
    destruct (Z.ltb_spec n 8); simpl.
    - apply Hxy. lia.
    - symmetry. apply testbit_byte. lia. }
  repeat split; apply Hbyte; intros n Hn.
  - rewrite Z.shiftr_spec, Hbits by lia.
    replace (n + 16 - 16) with n by lia.
    rewrite (testbit_byte b), (testbit_byte c) by lia.
    rewrite !orb_false_r. reflexivity.
  - rewrite Z.shiftr_spec, Hbits by lia.
    replace (n + 8 - 8) with n by lia.
    rewrite (Z.testbit_neg_r _ (n + 8 - 16)), (testbit_byte c) by lia.
    rewrite orb_false_r. reflexivity.
  - rewrite Hbits by lia.
    rewrite !Z.testbit_neg_r by lia. reflexivity.
Qed.

(** ** One group *)

Lemma decode_digit (c : byte) (v : Z) (src : list byte) (dbuf : list Z) (si total : Z) :
  decodeMap c = Some v -> (List.length dbuf < 3)%nat ->
  decode (c :: src) dbuf si total = decode src (dbuf ++ [v]) (si + 1) total.
Proof.
  intros Hc Hlen. cbn [decode]. rewrite Hc. cbv zeta.
  replace (List.length (dbuf ++ [v]) =? 4)%nat with false; [reflexivity|].
  symmetry. apply Nat.eqb_neq. rewrite length_app. simpl. lia.
Qed.

Lemma decode_last_digit (c : byte) (v d0 d1 d2 : Z) (src : list byte) (si total : Z) :
  decodeMap c = Some v ->
  decode (c :: src) [d0; d1; d2] si total =
  (group_bytes [d0; d1; d2; v] ++ fst (decode src [] (si + 1) total),
   snd (decode src [] (si + 1) total)).
Proof.
  intros Hc. cbn [decode]. rewrite Hc. cbn [app List.length Nat.eqb].
  destruct (decode src [] (si + 1) total). reflexivity.
Qed.

Lemma decode_quantum (a b c : byte) (src : list byte) (si total : Z) :
  let val := Z.lor (Z.lor (Z.shiftl (b2z a) 16) (Z.shiftl (b2z b) 8)) (b2z c) in
  decode (quantum val ++ src) [] si total =
  (a :: b :: c :: fst (decode src [] (si + 1 + 1 + 1 + 1) total),
   snd (decode src [] (si + 1 + 1 + 1 + 1) total)).
Proof.
  intros val. unfold quantum. cbn [app].
  rewrite (decode_digit _ _ _ _ _ _ (decodeMap_enc _ (digit_range _))) by (simpl; lia).
  rewrite (decode_digit _ _ _ _ _ _ (decodeMap_enc _ (digit_range _))) by (simpl; lia).
  rewrite (decode_digit _ _ _ _ _ _ (decodeMap_enc _ (digit_range _))) by (simpl; lia).
  cbn [app].
  rewrite (decode_last_digit _ _ _ _ _ _ _ _ (decodeMap_enc _ (digit_range _))).
  unfold group_bytes. cbn [nth List.length Nat.sub firstn].
  rewrite (digits_group val (group_range a b c)).
  destruct (group_bytes_of a b c) as (Ha & Hb & Hc). fold val in Ha, Hb, Hc.
  rewrite Ha, Hb, Hc. reflexivity.
Qed.

(** ** The padded groups that end an encoding *)

Lemma z2b_of_bits (x : Z) (y : byte) :
  (forall n, 0 <= n < 8 -> Z.testbit x n = Z.testbit (b2z y) n) -> z2b x = y.
Proof.
  intros Hxy. apply b2z_inj. rewrite b2z_z2b.
  apply Z.bits_inj'. intros n Hn. rewrite testbit_mod256 by lia.
  destruct (Z.ltb_spec n 8); simpl.
  - apply Hxy. lia.
  - symmetry. apply testbit_byte. lia.
Qed.

Lemma testbit_digits2 (val n : Z) :
  0 <= n ->
  Z.testbit (Z.lor (Z.shiftl (Z.land (Z.shiftr val 18) 0x3f) 18)
                   (Z.shiftl (Z.land (Z.shiftr val 12) 0x3f) 12)) n
  = (12 <=? n) && (n <? 24) && Z.testbit val n.
Proof.
  intros Hn. rewrite Z.lor_spec, !testbit_digit by lia.
  destruct (Z.leb_spec 18 n), (Z.ltb_spec n (18 + 6)), (Z.leb_spec 12 n),
    (Z.ltb_spec n (12 + 6)), (Z.ltb_spec n 24); try lia; simpl;
    rewrite ?orb_false_r; reflexivity.
Qed.

Lemma testbit_digits3 (val n : Z) :
  0 <= n ->
  Z.testbit (Z.lor (Z.lor (Z.shiftl (Z.land (Z.shiftr val 18) 0x3f) 18)
                          (Z.shiftl (Z.land (Z.shiftr val 12) 0x3f) 12))
                   (Z.shiftl (Z.land (Z.shiftr val 6) 0x3f) 6)) n
  = (6 <=? n) && (n <? 24) && Z.testbit val n.
Proof.
  intros Hn. rewrite Z.lor_spec, testbit_digits2, testbit_digit by lia.
  destruct (Z.leb_spec 12 n), (Z.ltb_spec n 24), (Z.leb_spec 6 n),
    (Z.ltb_spec n (6 + 6)); try lia; simpl;
    rewrite ?orb_false_r; reflexivity.
Qed.

Lemma decodeMap_padChar : decodeMap padChar = None.
Proof. reflexivity. Qed.

Lemma decode_tail1 (a : byte) (si total : Z) :
  decode (Encode [a]) [] si total = ([a], None).
Proof.
  cbn [Encode]. unfold quantum. cbn [firstn app].
  rewrite (decode_digit _ _ _ _ _ _ (decodeMap_enc _ (digit_range _))) by (simpl; lia).
  rewrite (decode_digit _ _ _ _ _ _ (decodeMap_enc _ (digit_range _))) by (simpl; lia).
  cbn [app decode]. rewrite decodeMap_padChar.
  change (is_newline padChar) with false. change (beqb padChar padChar) with true.
  cbn [negb List.length skip_newlines]. change (is_newline padChar) with false.
  cbv iota. change (beqb padChar padChar) with true. cbn [negb skip_newlines].
  unfold group_bytes. cbn [nth List.length Nat.sub firstn].
  f_equal. f_equal.
  apply z2b_of_bits. intros n Hn.
  change (Z.shiftl 0 6) with 0. rewrite !Z.lor_0_r.
  rewrite Z.shiftr_spec, testbit_digits2 by lia.
  destruct (Z.leb_spec 12 (n + 16)), (Z.ltb_spec (n + 16) 24); try lia. cbn [andb].
  rewrite Z.shiftl_spec by lia. f_equal. lia.
Qed.

Lemma decode_tail2 (a b : byte) (si total : Z) :
  decode (Encode [a; b]) [] si total = ([a; b], None).
Proof.
  cbn [Encode]. unfold quantum. cbn [firstn app].
  rewrite (decode_digit _ _ _ _ _ _ (decodeMap_enc _ (digit_range _))) by (simpl; lia).
  rewrite (decode_digit _ _ _ _ _ _ (decodeMap_enc _ (digit_range _))) by (simpl; lia).
  rewrite (decode_digit _ _ _ _ _ _ (decodeMap_enc _ (digit_range _))) by (simpl; lia).
  cbn [app decode]. rewrite decodeMap_padChar.
  change (is_newline padChar) with false. change (beqb padChar padChar) with true.
  cbn [negb List.length skip_newlines].
  unfold group_bytes. cbn [nth List.length Nat.sub firstn].
  rewrite Z.lor_0_r.
  set (val := Z.lor (Z.shiftl (b2z a) 16) (Z.shiftl (b2z b) 8)).
  assert (Hbits : forall n, 0 <= n ->
            Z.testbit val n = Z.testbit (b2z a) (n - 16) || Z.testbit (b2z b) (n - 8)).
  { intros n Hn. unfold val. rewrite Z.lor_spec, !Z.shiftl_spec by lia. reflexivity. }
  f_equal. f_equal; [|f_equal]; apply z2b_of_bits; intros n Hn;
    rewrite Z.shiftr_spec, testbit_digits3, Hbits by lia.
  - destruct (Z.leb_spec 6 (n + 16)), (Z.ltb_spec (n + 16) 24); try lia. cbn [andb].
    replace (n + 16 - 16) with n by lia.
    rewrite (testbit_byte b) by lia. apply orb_false_r.
  - destruct (Z.leb_spec 6 (n + 8)), (Z.ltb_spec (n + 8) 24); try lia. cbn [andb].
    replace (n + 8 - 8) with n by lia.
    rewrite Z.testbit_neg_r by lia. reflexivity.
Qed.

(** ** Whole inputs *)

Lemma decode_Encode (src : list byte) (si total : Z) :
  decode (Encode src) [] si total = (src, None).
Proof.
  revert si. induction src as [| a | a b | a b c src IH] using list_ind3; intros si.
  - reflexivity.
  - apply decode_tail1.
  - apply decode_tail2.
  - change (Encode (a :: b :: c :: src))
      with (quantum (Z.lor (Z.lor (Z.shiftl (b2z a) 16) (Z.shiftl (b2z b) 8)) (b2z c))
            ++ Encode src).
    rewrite decode_quantum, IH. reflexivity.
Qed.

(** [Decode] returns the bytes [Encode] was given, and no error. *)
Lemma Decode_Encode (src : list byte) : Decode (Encode src) = (src, None).
Proof. apply decode_Encode. Qed.

Lemma Encode_length (src : list byte) :
  Z.of_nat (List.length (Encode src)) = EncodedLen (Z.of_nat (List.length src)).
Proof.
  unfold EncodedLen.
  induction src as [| a | a b | a b c src IH] using list_ind3.
  - reflexivity.
  - reflexivity.
  - reflexivity.
  - change (Encode (a :: b :: c :: src))
      with (quantum (Z.lor (Z.lor (Z.shiftl (b2z a) 16) (Z.shiftl (b2z b) 8)) (b2z c))
            ++ Encode src).
    rewrite length_app. change (List.length (quantum _)) with 4%nat.
    rewrite Nat2Z.inj_add, IH. cbn [List.length].
    replace (Z.of_nat (S (S (S (List.length src)))) + 2)
      with (Z.of_nat (List.length src) + 2 + 1 * 3) by lia.
    rewrite Z.div_add by lia. lia.
Qed.

End Base64Facts.

Import ListNotations Bytes BytesFacts.
Open Scope Z_scope.

(** * Facts about the envelope cipher *)

Module CryptoFacts.
Import Crypto ListFacts AESFacts Base64Facts.

Lemma macTag_length (k data : list byte) : List.length (macTag k data) = 16%nat.
Proof. reflexivity. Qed.

Lemma bytes_eqb_refl (x : list byte) : bytes_eqb x x = true.
Proof. apply bytes_eqb_eq. reflexivity. Qed.

Lemma ConstantTimeCompare_refl (x : list byte) : ConstantTimeCompare x x = 1.
Proof.
  unfold ConstantTimeCompare. rewrite Nat.eqb_refl, bytes_eqb_refl. reflexivity.
Qed.

Lemma ConstantTimeCompare_1 (x y : list byte) : ConstantTimeCompare x y = 1 <-> x = y.
Proof.
  unfold ConstantTimeCompare. split.
  - destruct (List.length x =? List.length y)%nat; [|discriminate]. cbn [negb].
    destruct (bytes_eqb x y) eqn:E; [|discriminate].
    intros _. apply bytes_eqb_eq. exact E.
  - intros ->. rewrite Nat.eqb_refl, bytes_eqb_refl. reflexivity.
Qed.

(** ** PKCS#7 padding *)

Lemma padSize_range (p : list byte) : 1 <= padSize p <= 16.
Proof.
  unfold padSize, AES.BlockSize.
  pose proof (Z.mod_pos_bound (Z.of_nat (List.length p)) 16 ltac:(lia)). lia.
Qed.

Lemma padded_length (p : list byte) :
  List.length (padded p) = (16 * (List.length p / 16 + 1))%nat.
Proof.
  unfold padded. rewrite length_app, repeat_length.
  unfold padSize, AES.BlockSize.
  pose proof (Z.mod_pos_bound (Z.of_nat (List.length p)) 16 ltac:(lia)).
  apply Nat2Z.inj. rewrite Nat2Z.inj_add, Z2Nat.id by lia.
  rewrite Nat2Z.inj_mul, Nat2Z.inj_add, Nat2Z.inj_div.
  pose proof (Z.div_mod (Z.of_nat (List.length p)) 16 ltac:(lia)).
  change (Z.of_nat 16) with 16. change (Z.of_nat 1) with 1. lia.
Qed.

(** ** The envelope *)

Lemma Encrypt_eq (c : Cipher) (p : list byte) :
  Encrypt c p =
  let encoded := Base64.Encode (AES.ecb (AES.encryptBlock (aes c)) (padded p)) in
  version ++ macTag (key c) encoded ++ encoded.
Proof. reflexivity. Qed.

Lemma ecb_padded (c : Cipher) (p : list byte) :
  List.length (AES.ecb (AES.encryptBlock (aes c)) (padded p))
  = (16 * (List.length p / 16 + 1))%nat /\
  AES.ecb (AES.decryptBlock (aes c)) (AES.ecb (AES.encryptBlock (aes c)) (padded p))
  = padded p.
Proof. apply ecb_roundtrip, padded_length. Qed.

Lemma Encrypt_length (c : Cipher) (p : list byte) :
  Z.of_nat (List.length (Encrypt c p))
  = 19 + Base64.EncodedLen (16 * (Z.of_nat (List.length p) / 16 + 1)).
Proof.
  rewrite Encrypt_eq. cbv zeta.
  rewrite !length_app, macTag_length, !Nat2Z.inj_add, Encode_length.
  destruct (ecb_padded c p) as [-> _].
  rewrite Nat2Z.inj_mul, Nat2Z.inj_add, Nat2Z.inj_div.
  change (Z.of_nat (List.length version)) with 3. change (Z.of_nat 16) with 16.
  change (Z.of_nat 1) with 1. lia.
Qed.

Lemma EncodedLen_mono (a b : Z) : a <= b -> Base64.EncodedLen a <= Base64.EncodedLen b.
Proof.
  intros H. unfold Base64.EncodedLen.
  pose proof (Z.div_le_mono (a + 2) (b + 2) 3 ltac:(lia) ltac:(lia)). lia.
Qed.

Lemma Encrypt_min_length (c : Cipher) (p : list byte) :
  43 <= Z.of_nat (List.length (Encrypt c p)).
Proof.
  rewrite Encrypt_length.
  pose proof (Z.div_pos (Z.of_nat (List.length p)) 16 ltac:(lia) ltac:(lia)).
  pose proof (EncodedLen_mono 16 (16 * (Z.of_nat (List.length p) / 16 + 1)) ltac:(lia)).
  change (Base64.EncodedLen 16) with 24 in *. lia.
Qed.

(** [Decrypt] on an envelope long enough and starting with the version:
    the tag decides. *)
Lemma Decrypt_layout (c : Cipher) (tag data : list byte) :
  List.length tag = 16%nat -> (24 <= List.length data)%nat ->
  Decrypt c (version ++ tag ++ data) =
  if bytes_eqb tag (macTag (key c) data) then decrypt_data c data
  else Err ErrTagVerification.
Proof.
  intros Ht Hdata. unfold Decrypt.
  replace (Z.of_nat (List.length (version ++ tag ++ data)) <?
           Z.of_nat (List.length version) + tagSize + Base64.EncodedLen AES.BlockSize)
    with false.
  2:{ symmetry. apply Z.ltb_ge. rewrite !length_app, Ht.
      change (Base64.EncodedLen AES.BlockSize) with 24. unfold tagSize.
      change (List.length version) with 3%nat. lia. }
  rewrite HasPrefix_app. cbn [negb].
  rewrite skipn_app, Nat.sub_diag, skipn_all. cbn [skipn app].
  change (Z.to_nat tagSize) with 16%nat. rewrite <- Ht.
  rewrite firstn_app, Nat.sub_diag, firstn_all, skipn_app, Nat.sub_diag, skipn_all.
  cbn [firstn skipn app]. rewrite app_nil_r.
  unfold ConstantTimeCompare. rewrite Ht, macTag_length. cbn [Nat.eqb negb].
  destruct (bytes_eqb tag (macTag (key c) data)); reflexivity.
Qed.

(** ** Padding *)

Lemma rev_padded (p : list byte) :
  exists l, rev (padded p) = z2b (padSize p) :: l.
Proof.
  unfold padded. pose proof (padSize_range p) as Hr.
  destruct (Z.to_nat (padSize p)) as [|n] eqn:E; [lia|].
  rewrite rev_app_distr. cbn [repeat]. rewrite repeat_cons.
  rewrite rev_app_distr. cbn [rev app]. eexists. reflexivity.
Qed.

Lemma b2z_padSize (p : list byte) : b2z (z2b (padSize p)) = padSize p.
Proof.
  rewrite b2z_z2b. apply Z.mod_small. pose proof (padSize_range p). lia.
Qed.

Lemma unpad_padded (p : list byte) : unpad (padded p) = Ok p.
Proof.
  unfold unpad. destruct (rev_padded p) as [l ->].
  pose proof (padSize_range p) as Hr.
  rewrite b2z_padSize. cbv zeta.
  destruct (Z.ltb_spec (padSize p) 1); [lia|].
  destruct (Z.gtb_spec (padSize p) AES.BlockSize); [unfold AES.BlockSize in *; lia|].
  cbn [orb].
  assert (Hn : (List.length (padded p) - Z.to_nat (padSize p))%nat = List.length p).
  { unfold padded. rewrite length_app, repeat_length. lia. }
  rewrite Hn. unfold padded at 1 2.
  rewrite skipn_length_app, firstn_length_app.
  replace (forallb _ _) with true; [reflexivity|].
  symmetry. apply forallb_forall. intros x Hx.
  assert (Hin : In x (repeat (z2b (padSize p)) (Z.to_nat (padSize p)))).
  { rewrite <- (firstn_skipn (Z.to_nat (padSize p) - 1)). apply in_or_app. left. exact Hx. }
  apply repeat_spec in Hin. subst x. apply beqb_refl.
Qed.

(** ** Round trip *)

Lemma decrypt_data_Encode (c : Cipher) (p : list byte) :
  decrypt_data c (Base64.Encode (AES.ecb (AES.encryptBlock (aes c)) (padded p))) = Ok p.
Proof.
  unfold decrypt_data. rewrite Decode_Encode.
  destruct (ecb_padded c p) as [Hlen ->]. rewrite Hlen.
  replace (Z.of_nat (16 * (List.length p / 16 + 1)) mod AES.BlockSize =? 0) with true.
  2:{ symmetry. apply Z.eqb_eq. rewrite Nat2Z.inj_mul. change (Z.of_nat 16) with 16.
      unfold AES.BlockSize. rewrite Z.mul_comm. apply Z.mod_mul. lia. }
  cbn [negb]. apply unpad_padded.
Qed.

Lemma Encode_min_length (c : Cipher) (p : list byte) :
  (24 <= List.length (Base64.Encode (AES.ecb (AES.encryptBlock (aes c)) (padded p))))%nat.
Proof.
  pose proof (Encrypt_min_length c p) as H. rewrite Encrypt_eq in H. cbv zeta in H.
  rewrite !length_app, macTag_length in H. change (List.length version) with 3%nat in H.
  lia.
Qed.

End CryptoFacts.

Import ListNotations Bytes BytesFacts.
Open Scope Z_scope.

(** * More facts about the frame codec *)

Module FrameMore.
Import Frame FrameExt CRC32Facts FrameFacts FrameTamper Base64Facts.

(** ** Words from bytes and back *)

Lemma testbit_Uint32 (a b c d : byte) (n : Z) :
  0 <= n ->
  Z.testbit (Uint32 [a; b; c; d]) n =
  Z.testbit (b2z d) n || Z.testbit (b2z c) (n - 8)
  || Z.testbit (b2z b) (n - 16) || Z.testbit (b2z a) (n - 24).
Proof.
  intros Hn. unfold Uint32. cbn [nth].
  rewrite !Z.lor_spec, !Z.shiftl_spec by lia. reflexivity.
Qed.

Lemma PutUint32_Uint32 (a b c d : byte) : PutUint32 (Uint32 [a; b; c; d]) = [a; b; c; d].
Proof.
  unfold PutUint32.
  apply f_equal2; [|apply f_equal2; [|apply f_equal2; [|apply f_equal2; [|reflexivity]]]];
    apply z2b_of_bits; intros n Hn;
    try (rewrite Z.shiftr_spec by lia); rewrite testbit_Uint32 by lia.
  - replace (n + 24 - 24) with n by lia.
    rewrite (testbit_byte d), (testbit_byte c), (testbit_byte b) by lia. reflexivity.
  - replace (n + 16 - 16) with n by lia.
    rewrite (testbit_byte d), (testbit_byte c) by lia.
    rewrite (Z.testbit_neg_r _ (n + 16 - 24)) by lia.
    rewrite orb_false_r. reflexivity.
  - replace (n + 8 - 8) with n by lia.
    rewrite (testbit_byte d) by lia.
    rewrite (Z.testbit_neg_r _ (n + 8 - 16)), (Z.testbit_neg_r _ (n + 8 - 24)) by lia.
    rewrite !orb_false_r. reflexivity.
  - rewrite (Z.testbit_neg_r _ (n - 8)), (Z.testbit_neg_r _ (n - 16)),
      (Z.testbit_neg_r _ (n - 24)) by lia.
    rewrite !orb_false_r. reflexivity.
Qed.

(** Four bytes are determined by the word they spell. *)
Lemma Uint32_inj (a b c d a' b' c' d' : byte) :
  Uint32 [a; b; c; d] = Uint32 [a'; b'; c'; d'] -> [a; b; c; d] = [a'; b'; c'; d'].
Proof.
  intros H. rewrite <- (PutUint32_Uint32 a b c d), H. apply PutUint32_Uint32.
Qed.

Lemma list16 (l : list byte) :
  List.length l = 16%nat ->
  exists a0 a1 a2 a3 b0 b1 b2 b3 c0 c1 c2 c3 d0 d1 d2 d3,
    l = [a0; a1; a2; a3; b0; b1; b2; b3; c0; c1; c2; c3; d0; d1; d2; d3].
Proof.
  intros H.
  do 16 (destruct l as [|? l]; [discriminate H|]).
  destruct l; [|discriminate H].
  do 16 eexists. reflexivity.
Qed.

Lemma write_parse_header (hb : list byte) :
  List.length hb = 16%nat -> write_header (parse_header hb) = hb.
Proof.
  intros H. destruct (list16 hb H) as (a0 & a1 & a2 & a3 & b0 & b1 & b2 & b3 &
    c0 & c1 & c2 & c3 & d0 & d1 & d2 & d3 & ->).
  unfold write_header, parse_header. cbn [Prefix hSeq hCmd Length skipn].
  rewrite (Uint32_bytes a0 a1 a2 a3), (Uint32_bytes b0 b1 b2 b3), (Uint32_bytes c0 c1 c2 c3).
  rewrite !PutUint32_Uint32. reflexivity.
Qed.

Lemma write_parse_trailer (tb : list byte) :
  List.length tb = 8%nat -> write_trailer (parse_trailer tb) = tb.
Proof.
  intros H.
  do 8 (destruct tb as [|? tb]; [discriminate H|]).
  destruct tb; [|discriminate H].
  unfold write_trailer, parse_trailer. cbn [CRC Suffix skipn].
  rewrite (Uint32_bytes b b0 b1 b2). rewrite !PutUint32_Uint32. reflexivity.
Qed.

(** ** Reading *)

(** The three ways [ReadFull] ends. *)
Lemma ReadFull_cases (r : list byte) (n : nat) :
  (n <= List.length r)%nat /\ ReadFull r n = (firstn n r, None, skipn n r) \/
  r = [] /\ (0 < n)%nat /\ ReadFull r n = ([], Some EOF, []) \/
  r <> [] /\ (List.length r < n)%nat /\ ReadFull r n = (r, Some ErrUnexpectedEOF, []).
Proof.
  destruct (Nat.le_gt_cases n (List.length r)) as [H|H].
  - left. split; [exact H | apply ReadFull_long, H].
  - right. unfold ReadFull. destruct n as [|n]; [lia|].
    apply Nat.ltb_lt in H. rewrite H. apply Nat.ltb_lt in H.
    destruct r as [|x r].
    + left. repeat split. lia.
    + right. repeat split; [discriminate | exact H].
Qed.

(** ** Decoding a stream that holds header, payload and eight more bytes *)

Lemma payload_buffer_len (p : slice) (n : nat) :
  Z.of_nat n <= MaxPayloadSize \/ Z.of_nat n <= cap p ->
  payload_buffer p (Z.of_nat n) =
  (Nil, if cap p <? Z.of_nat n then make (Z.of_nat n) else mkSlice (backing p) n).
Proof.
  intros Hn. unfold payload_buffer.
  destruct (Z.ltb_spec (cap p) (Z.of_nat n)).
  - destruct (Z.gtb_spec (Z.of_nat n) MaxPayloadSize); [lia|]. reflexivity.
  - destruct (Z.ltb_spec (Z.of_nat n) 0); [lia|]. rewrite Nat2Z.id. reflexivity.
Qed.

Lemma fill_payload_buffer (p : slice) (pb : list byte) :
  fill (if cap p <? Z.of_nat (List.length pb)
        then make (Z.of_nat (List.length pb))
        else mkSlice (backing p) (List.length pb)) pb
  = filled p pb.
Proof.
  unfold filled, fill, make. destruct (cap p <? Z.of_nat (List.length pb)); cbn [backing len].
  - rewrite Nat2Z.id. f_equal.
    rewrite skipn_all2 by (rewrite repeat_length; lia). apply app_nil_r.
  - reflexivity.
Qed.

Lemma contents_filled (p : slice) (pb : list byte) : contents (filled p pb) = pb.
Proof.
  unfold filled, contents.
  destruct (cap p <? Z.of_nat (List.length pb)); cbn [backing len].
  - apply firstn_all.
  - rewrite firstn_app, Nat.sub_diag, firstn_all. cbn [firstn]. apply app_nil_r.
Qed.

Lemma Decode_frame_bytes (f0 : Frame) (hb pb tb rest : list byte) :
  List.length hb = 16%nat ->
  Prefix (parse_header hb) = prefixValue ->
  Length (parse_header hb) = Z.of_nat (List.length pb) + trailerSize ->
  Z.of_nat (List.length pb) <= MaxPayloadSize
  \/ Z.of_nat (List.length pb) <= cap (Payload f0) ->
  List.length tb = 8%nat ->
  Decode f0 (hb ++ pb ++ tb ++ rest) =
  (if negb (Suffix (parse_trailer tb) =? suffixValue)
   then Err (BadSuffix (Suffix (parse_trailer tb)))
   else if negb (CRC32.ChecksumIEEE (hb ++ pb) =? CRC (parse_trailer tb))
   then Err (CRCMismatch (CRC32.ChecksumIEEE (hb ++ pb)) (CRC (parse_trailer tb)))
   else Nil,
   mkFrame (hSeq (parse_header hb)) (hCmd (parse_header hb)) (filled (Payload f0) pb),
   rest).
Proof.
  intros Hlen Hpre Hlength Hmax Htb.
  unfold Decode.
  change (Z.to_nat headerSize) with 16%nat. rewrite <- Hlen, ReadFull_app.
  cbv beta iota zeta.
  rewrite Hpre, Z.eqb_refl. cbn [negb Payload Seq Cmd].
  rewrite Hlength. replace (Z.of_nat (List.length pb) + trailerSize - trailerSize)
    with (Z.of_nat (List.length pb)) by lia.
  rewrite payload_buffer_len by exact Hmax. cbv beta iota zeta.
  replace (len (if cap (Payload f0) <? Z.of_nat (List.length pb)
                then make (Z.of_nat (List.length pb))
                else mkSlice (backing (Payload f0)) (List.length pb)))
    with (List.length pb)
    by (destruct (cap (Payload f0) <? Z.of_nat (List.length pb)); cbn [len make];
        rewrite ?Nat2Z.id; reflexivity).
  rewrite ReadFull_app. cbv beta iota zeta.
  change (Z.to_nat trailerSize) with 8%nat. rewrite <- Htb, ReadFull_app.
  cbv beta iota zeta. rewrite fill_payload_buffer.
  rewrite Update_app. fold (CRC32.ChecksumIEEE (hb ++ pb)).
  destruct (negb (Suffix (parse_trailer tb) =? suffixValue)); [reflexivity|].
  destruct (negb (CRC32.ChecksumIEEE (hb ++ pb) =? CRC (parse_trailer tb))); reflexivity.
Qed.

(** The header of an encoded frame, read back: prefix and length. *)
Lemma parse_encoded_header (s c : Z) (n : nat) :
  Z.of_nat n <= MaxPayloadSize ->
  let hb := write_header (mkHeader prefixValue s c (Z.of_nat n + trailerSize)) in
  List.length hb = 16%nat /\
  Prefix (parse_header hb) = prefixValue /\
  Length (parse_header hb) = Z.of_nat n + trailerSize.
Proof.
  intros Hn hb. split; [reflexivity|]. unfold hb, parse_header, write_header.
  cbn [Prefix hSeq hCmd Length]. split.
  - apply Uint32_PutUint32. unfold prefixValue. lia.
  - change (skipn 12 (PutUint32 prefixValue ++ PutUint32 s ++ PutUint32 c ++ ?x)) with x.
    rewrite <- (app_nil_r (PutUint32 _)). apply Uint32_PutUint32.
    unfold MaxPayloadSize, maxPacketSize, trailerSize in *. lia.
Qed.

(** Sequence and command numbers come back as the 32-bit values they are
    stored as. *)
Lemma parse_encoded_seq_cmd (s c l : Z) :
  let hb := write_header (mkHeader prefixValue s c l) in
  0 <= s < 2 ^ 32 -> 0 <= c < 2 ^ 32 ->
  hSeq (parse_header hb) = s /\ hCmd (parse_header hb) = c.
Proof.
  intros hb Hs Hc. unfold hb, parse_header, write_header. cbn [Prefix hSeq hCmd Length]. split.
  - change (skipn 4 (PutUint32 prefixValue ++ ?x)) with x. apply Uint32_PutUint32, Hs.
  - change (skipn 8 (PutUint32 prefixValue ++ PutUint32 s ++ ?x)) with x.
    apply Uint32_PutUint32, Hc.
Qed.

(** [Decode] on the serialization of a frame, followed by anything. *)
Lemma Decode_buffer (f f0 : Frame) (wire rest : list byte) :
  0 <= Seq f < 2 ^ 32 ->
  0 <= Cmd f < 2 ^ 32 ->
  buffer f = inr wire ->
  Decode f0 (wire ++ rest)
  = (Nil, mkFrame (Seq f) (Cmd f) (filled (Payload f0) (contents (Payload f))), rest).
Proof.
  intros Hs Hc Hbuf. set (pb := contents (Payload f)) in *.
  assert (Hmax : Z.of_nat (List.length pb) <= MaxPayloadSize).
  { unfold buffer in Hbuf. fold pb in Hbuf.
    destruct (Z.gtb_spec (Z.of_nat (List.length pb)) MaxPayloadSize); [discriminate|assumption]. }
  rewrite buffer_ok in Hbuf by exact Hmax. fold pb in Hbuf. cbv zeta in Hbuf.
  destruct (parse_encoded_header (Seq f) (Cmd f) (List.length pb) Hmax) as (Hlen & Hpre & Hlength).
  destruct (parse_encoded_seq_cmd (Seq f) (Cmd f)
              (Z.of_nat (List.length pb) + trailerSize) Hs Hc) as (Hseq & Hcmd).
  set (hb := write_header _) in *.
  set (c := CRC32.ChecksumIEEE (hb ++ pb)) in *.
  assert (Hw : wire = hb ++ pb ++ write_trailer (mkTrailer c suffixValue)) by congruence.
  rewrite Hw, <- !app_assoc.
  rewrite (Decode_frame_bytes f0 hb pb (write_trailer (mkTrailer c suffixValue)) rest
             Hlen Hpre Hlength (or_introl Hmax) eq_refl).
  rewrite parse_write_trailer by (unfold suffixValue; try apply ChecksumIEEE_range; lia).
  cbn [Suffix CRC]. fold c. rewrite !Z.eqb_refl, Hseq, Hcmd. reflexivity.
Qed.

Lemma ReadFull_app_n (a b : list byte) (n : nat) :
  List.length a = n -> ReadFull (a ++ b) n = (a, None, b).
Proof. intros <-. apply ReadFull_app. Qed.

Lemma decode_short_header_gen (f0 : Frame) (r : list byte) :
  (List.length r < 16)%nat ->
  Decode f0 r =
  (Err (HeaderRead (match r with [] => EOF | _ => ErrUnexpectedEOF end)), f0, []).
Proof.
  intros H. unfold Decode. change (Z.to_nat headerSize) with 16%nat.
  unfold ReadFull. apply Nat.ltb_lt in H. rewrite H. reflexivity.
Qed.

End FrameMore.

Import ListNotations Bytes BytesFacts.
Open Scope Z_scope.

(** * The frame codec: further properties *)

Section FrameExtras.
Import Frame FrameExt ListFacts CRC32Facts FrameFacts FrameTamper FrameMore TestVectors.

(** X1. [buffer] (the body of [Encode]) fails exactly when the payload
    has more than [MaxPayloadSize] bytes, with the payload-too-large
    error; otherwise the serialization has 24 bytes more than the
    payload, starts with the prefix magic 00 00 55 aa, carries the
    payload from offset 16 on, and ends with the suffix magic
    00 00 aa 55. *)
Theorem buffer_shape (f : Frame) :
  let pb := contents (Payload f) in
  let n := Z.of_nat (List.length pb) in
  match buffer f with
  | inl e => n > MaxPayloadSize /\ e = PayloadTooLarge n MaxPayloadSize
  | inr wire =>
      n <= MaxPayloadSize /\
      Z.of_nat (List.length wire) = n + 24 /\
      firstn 4 wire = [Byte.x00; Byte.x00; Byte.x55; Byte.xaa] /\
      firstn (List.length pb) (skipn 16 wire) = pb /\
      skipn (20 + List.length pb) wire = [Byte.x00; Byte.x00; Byte.xaa; Byte.x55]
  end.
Proof.
  intros pb n.
  destruct (Z.gtb_spec n MaxPayloadSize) as [Hbig|Hok].
  - unfold buffer. fold pb. fold n.
    destruct (Z.gtb_spec n MaxPayloadSize); [|lia]. split; [lia | reflexivity].
  - rewrite buffer_ok by exact Hok. fold pb. cbv zeta.
    set (hb := write_header _). set (tb := write_trailer _).
    assert (Hhb : List.length hb = 16%nat) by reflexivity.
    assert (Htb : List.length tb = 8%nat) by reflexivity.
    split; [exact Hok|]. split; [|split; [|split]].
    + rewrite !length_app, Hhb, Htb. unfold n. lia.
    + reflexivity.
    + rewrite (skipn_length_app_n _ 16 hb _ Hhb). apply firstn_length_app.
    + rewrite app_assoc.
      replace (20 + List.length pb)%nat with (4 + List.length (hb ++ pb))%nat
        by (rewrite length_app, Hhb; lia).
      rewrite <- skipn_skipn, skipn_length_app. reflexivity.
Qed.

(** X2. A stream that ends before the sixteen header bytes makes
    [Decode] return the header-read error, [io.EOF] when the stream is
    empty and [io.ErrUnexpectedEOF] otherwise; the frame is left as it
    was and the stream is used up. *)
Theorem decode_short_header (f0 : Frame) (r : list byte) :
  (List.length r < 16)%nat ->
  Decode f0 r =
  (Err (HeaderRead (match r with [] => EOF | _ => ErrUnexpectedEOF end)), f0, []).
Proof.
  intros H. unfold Decode. change (Z.to_nat headerSize) with 16%nat.
  unfold ReadFull. apply Nat.ltb_lt in H. rewrite H. reflexivity.
Qed.

Lemma decode_short_header_witness :
  (List.length (firstn 7 sampleWire) < 16)%nat /\
  Decode testFrame (firstn 7 sampleWire)
  = (Err (HeaderRead ErrUnexpectedEOF), testFrame, []).
Proof.
  assert (H : (List.length (firstn 7 sampleWire) < 16)%nat) by (vm_compute; lia).
  split; [exact H|].
  exact (decode_short_header testFrame (firstn 7 sampleWire) H).
Defined.

(** X3. A header with the right prefix whose length field is below 8
    makes [payloadSize] negative; whatever buffer the frame holds, the
    re-slicing [f.Payload[:payloadSize]] panics. The sequence and
    command numbers have been stored by then. *)
Theorem decode_negative_size (f0 : Frame) (hb rest : list byte) :
  List.length hb = 16%nat ->
  Prefix (parse_header hb) = prefixValue ->
  Length (parse_header hb) < trailerSize ->
  Decode f0 (hb ++ rest) =
  (Panic "slice bounds out of range",
   mkFrame (hSeq (parse_header hb)) (hCmd (parse_header hb)) (Payload f0), rest).
Proof.
  intros Hlen Hpre Hneg. unfold Decode.
  change (Z.to_nat headerSize) with 16%nat. rewrite <- Hlen, ReadFull_app.
  cbv beta iota zeta. rewrite Hpre, Z.eqb_refl. cbn [negb Payload Seq Cmd].
  unfold payload_buffer.
  assert (Hcap : 0 <= cap (Payload f0)) by (unfold cap; lia).
  destruct (Z.ltb_spec (cap (Payload f0)) (Length (parse_header hb) - trailerSize)); [lia|].
  destruct (Z.ltb_spec (Length (parse_header hb) - trailerSize) 0); [|lia].
  reflexivity.
Qed.

Lemma decode_negative_size_witness :
  List.length (header_with_length 7) = 16%nat /\
  Prefix (parse_header (header_with_length 7)) = prefixValue /\
  Length (parse_header (header_with_length 7)) < trailerSize /\
  Decode testFrame (header_with_length 7 ++ sampleWire) =
  (Panic "slice bounds out of range", mkFrame 1 10 (Payload testFrame), sampleWire).
Proof.
  assert (H1 : List.length (header_with_length 7) = 16%nat) by reflexivity.
  assert (H2 : Prefix (parse_header (header_with_length 7)) = prefixValue)
    by (vm_compute; reflexivity).
  assert (H3 : Length (parse_header (header_with_length 7)) < trailerSize)
    by (vm_compute; reflexivity).
  split; [exact H1|]. split; [exact H2|]. split; [exact H3|].
  exact (decode_negative_size testFrame (header_with_length 7) sampleWire H1 H2 H3).
Defined.

End FrameExtras.

Import ListNotations Bytes BytesFacts.
Open Scope Z_scope.

Section FrameExtras2.
Import Frame FrameExt ListFacts CRC32Facts FrameFacts FrameTamper FrameMore TestVectors.

(** X4. Frames are self-delimiting, and [Decode] stores the payload in
    the buffer the frame already holds when its capacity suffices:
    decoding the serialization of a frame followed by any further bytes
    returns nil and leaves exactly those further bytes unread; the
    payload then sits in the old backing array (same capacity, the bytes
    after the payload untouched) when the capacity was large enough, and
    in a new array of exactly the payload's size otherwise. *)
Theorem decode_leaves_rest (f f0 : Frame) (wire rest : list byte) :
  0 <= Seq f < 2 ^ 32 ->
  0 <= Cmd f < 2 ^ 32 ->
  buffer f = inr wire ->
  let pb := contents (Payload f) in
  Decode f0 (wire ++ rest) = (Nil, mkFrame (Seq f) (Cmd f) (filled (Payload f0) pb), rest) /\
  contents (filled (Payload f0) pb) = pb /\
  (Z.of_nat (List.length pb) <= cap (Payload f0) ->
   backing (filled (Payload f0) pb) = pb ++ skipn (List.length pb) (backing (Payload f0))
   /\ cap (filled (Payload f0) pb) = cap (Payload f0)) /\
  (cap (Payload f0) < Z.of_nat (List.length pb) ->
   backing (filled (Payload f0) pb) = pb).
Proof.
  intros Hs Hc Hbuf pb.
  split; [|split; [apply contents_filled|split]].
  - apply Decode_buffer; assumption.
  - intros Hcap. unfold filled.
    destruct (Z.ltb_spec (cap (Payload f0)) (Z.of_nat (List.length pb))); [lia|].
    cbn [backing]. split; [reflexivity|].
    unfold cap. cbn [backing]. rewrite length_app, length_skipn.
    unfold cap in Hcap. lia.
  - intros Hcap. unfold filled.
    destruct (Z.ltb_spec (cap (Payload f0)) (Z.of_nat (List.length pb))); [|lia].
    reflexivity.
Qed.

Lemma decode_leaves_rest_witness :
  (0 <= Seq sampleFrame < 2 ^ 32 /\ 0 <= Cmd sampleFrame < 2 ^ 32 /\
   buffer sampleFrame = inr sampleWire /\
   Z.of_nat (List.length (contents (Payload sampleFrame))) <= cap (Payload testFrame) /\
   cap (Payload sampleFrame) < Z.of_nat (List.length (contents (Payload testFrame)))) /\
  Decode testFrame (sampleWire ++ testData)
  = (Nil, mkFrame 1 10 (filled (Payload testFrame) (contents (Payload sampleFrame))), testData) /\
  cap (filled (Payload testFrame) (contents (Payload sampleFrame))) = cap (Payload testFrame) /\
  backing (filled (Payload sampleFrame) (contents (Payload testFrame)))
  = contents (Payload testFrame).
Proof.
  assert (H1 : 0 <= Seq sampleFrame < 2 ^ 32) by (cbn; lia).
  assert (H2 : 0 <= Cmd sampleFrame < 2 ^ 32) by (cbn; lia).
  assert (H3 : buffer sampleFrame = inr sampleWire) by (vm_compute; reflexivity).
  assert (H4 : Z.of_nat (List.length (contents (Payload sampleFrame))) <= cap (Payload testFrame))
    by (vm_compute; discriminate).
  assert (H5 : cap (Payload sampleFrame) < Z.of_nat (List.length (contents (Payload testFrame))))
    by (vm_compute; reflexivity).
  assert (H1' : 0 <= Seq testFrame < 2 ^ 32) by (cbn; lia).
  assert (H2' : 0 <= Cmd testFrame < 2 ^ 32) by (cbn; lia).
  assert (H3' : buffer testFrame = inr testData) by (vm_compute; reflexivity).
  split; [repeat split; assumption|].
  destruct (decode_leaves_rest sampleFrame testFrame sampleWire testData H1 H2 H3)
    as (Hd & _ & Hreuse & _).
  destruct (decode_leaves_rest testFrame sampleFrame testData [] H1' H2' H3')
    as (_ & _ & _ & Hnew).
  split; [exact Hd|]. split; [exact (proj2 (Hreuse H4)) | exact (Hnew H5)].
Defined.

(** X5. A serialization cut short is never accepted: on any proper
    prefix of the bytes of an encoded frame [Decode] returns a read
    error for the header, the payload or the trailer, and uses the
    stream up. *)
Theorem decode_truncated (f f0 : Frame) (wire : list byte) (k : nat) :
  buffer f = inr wire ->
  (k < List.length wire)%nat ->
  exists e f',
    Decode f0 (firstn k wire) = (Err e, f', []) /\
    ((exists io, e = HeaderRead io) \/ (exists io, e = PayloadRead io)
     \/ (exists io, e = TrailerRead io)).
Proof.
  intros Hbuf Hk.
  set (pb := contents (Payload f)) in *.
  assert (Hmax : Z.of_nat (List.length pb) <= MaxPayloadSize).
  { unfold buffer in Hbuf. fold pb in Hbuf.
    destruct (Z.gtb_spec (Z.of_nat (List.length pb)) MaxPayloadSize); [discriminate|assumption]. }
  rewrite buffer_ok in Hbuf by exact Hmax. fold pb in Hbuf. cbv zeta in Hbuf.
  destruct (parse_encoded_header (Seq f) (Cmd f) (List.length pb) Hmax) as (Hlen & Hpre & Hlength).
  set (hb := write_header _) in *.
  set (tb := write_trailer _) in *.
  assert (Htb : List.length tb = 8%nat) by reflexivity.
  assert (Hw : wire = hb ++ pb ++ tb) by congruence.
  rewrite Hw in *. clear Hw Hbuf. rewrite !length_app, Hlen, Htb in Hk.
  destruct (Nat.lt_ge_cases k 16) as [Hshort|Hlong].
  - (* the header is incomplete *)
    rewrite decode_short_header_gen by (rewrite length_firstn, !length_app, Hlen; lia).
    do 2 eexists. split; [reflexivity|]. left. eexists. reflexivity.
  - rewrite firstn_app_long by lia. rewrite Hlen.
    unfold Decode. change (Z.to_nat headerSize) with 16%nat.
    rewrite (ReadFull_app_n hb _ 16 Hlen). cbv beta iota zeta.
    rewrite Hpre, Z.eqb_refl. cbn [negb Payload Seq Cmd].
    rewrite Hlength. replace (Z.of_nat (List.length pb) + trailerSize - trailerSize)
      with (Z.of_nat (List.length pb)) by lia.
    rewrite payload_buffer_len by (left; exact Hmax). cbv beta iota zeta.
    replace (len (if cap (Payload f0) <? Z.of_nat (List.length pb)
                  then make (Z.of_nat (List.length pb))
                  else mkSlice (backing (Payload f0)) (List.length pb)))
      with (List.length pb)
      by (destruct (cap (Payload f0) <? Z.of_nat (List.length pb)); cbn [len make];
          rewrite ?Nat2Z.id; reflexivity).
    destruct (Nat.lt_ge_cases (k - 16) (List.length pb)) as [Hp|Hp].
    + (* the payload is incomplete *)
      rewrite firstn_app_short by lia.
      destruct (ReadFull_short (firstn (k - 16) pb) (List.length pb)) as [io Hio];
        [rewrite length_firstn; lia|].
      rewrite Hio. cbv beta iota zeta.
      do 2 eexists. split; [reflexivity|]. right. left. eexists. reflexivity.
    + (* the trailer is incomplete *)
      rewrite firstn_app_long by lia. rewrite ReadFull_app. cbv beta iota zeta.
      destruct (ReadFull_short (firstn (k - 16 - List.length pb) tb) 8) as [io Hio];
        [rewrite length_firstn; lia|].
      change (Z.to_nat trailerSize) with 8%nat. rewrite Hio. cbv beta iota zeta.
      do 2 eexists. split; [reflexivity|]. right. right. eexists. reflexivity.
Qed.

Lemma decode_truncated_witness :
  buffer sampleFrame = inr sampleWire /\
  (17 < List.length sampleWire)%nat /\
  exists e f',
    Decode testFrame (firstn 17 sampleWire) = (Err e, f', []) /\
    ((exists io, e = HeaderRead io) \/ (exists io, e = PayloadRead io)
     \/ (exists io, e = TrailerRead io)).
Proof.
  assert (Hb : buffer sampleFrame = inr sampleWire) by (vm_compute; reflexivity).
  assert (Hk : (17 < List.length sampleWire)%nat) by (vm_compute; lia).
  split; [exact Hb|]. split; [exact Hk|].
  exact (decode_truncated sampleFrame testFrame sampleWire 17 Hb Hk).
Defined.

End FrameExtras2.

Import ListNotations Bytes BytesFacts.
Open Scope Z_scope.

Section FrameExtras3.
Import Frame FrameExt ListFacts CRC32Facts FrameFacts FrameTamper FrameMore TestVectors.

(** Reassembling what a successful [Decode] consumed. *)
Lemma decode_then_encode_aux (hb pb tb r : list byte) (n : nat) (L : Z) (p : slice) :
  List.length hb = 16%nat ->
  hb = firstn 16 r ->
  pb = firstn n (skipn 16 r) ->
  tb = firstn 8 (skipn n (skipn 16 r)) ->
  List.length pb = n -> List.length tb = 8%nat ->
  L = Length (parse_header hb) ->
  Prefix (parse_header hb) = prefixValue ->
  Suffix (parse_trailer tb) = suffixValue ->
  CRC32.ChecksumIEEE (hb ++ pb) = CRC (parse_trailer tb) ->
  Z.of_nat n = L - trailerSize ->
  Z.of_nat n <= MaxPayloadSize ->
  contents p = pb ->
  exists wire,
    buffer (mkFrame (hSeq (parse_header hb)) (hCmd (parse_header hb)) p) = inr wire /\
    r = wire ++ skipn 8 (skipn n (skipn 16 r)).
Proof.
  intros Hlen Hhb Hpb Htb Hn Ht HL Hpre Hsuf Hcrc HnL Hmax Hp.
  eexists. split.
  - rewrite buffer_ok by (cbn [Payload]; rewrite Hp, Hn; exact Hmax).
    cbn [Payload Seq Cmd]. rewrite Hp, Hn. cbv zeta. reflexivity.
  - replace (Z.of_nat n + trailerSize) with (Length (parse_header hb)) by lia.
    rewrite <- Hpre.
    replace (mkHeader (Prefix (parse_header hb)) (hSeq (parse_header hb))
               (hCmd (parse_header hb)) (Length (parse_header hb)))
      with (parse_header hb) by (destruct (parse_header hb); reflexivity).
    rewrite write_parse_header by exact Hlen.
    rewrite Hcrc, <- Hsuf.
    replace (mkTrailer (CRC (parse_trailer tb)) (Suffix (parse_trailer tb)))
      with (parse_trailer tb) by (destruct (parse_trailer tb); reflexivity).
    rewrite write_parse_trailer by exact Ht.
    rewrite Hhb, Htb, Hpb, <- !app_assoc.
    rewrite firstn_skipn, firstn_skipn, firstn_skipn. reflexivity.
Qed.

(** X6. The trailer is checked too: in the bytes of an encoded frame,
    overwriting one byte of the CRC field with a different value makes
    [Decode] fail with the checksum-mismatch error, and overwriting one
    byte of the suffix magic makes it fail with the bad-suffix error. *)
Theorem decode_detects_trailer_flip (f f0 : Frame) (wire : list byte) (i : nat) (v : byte) :
  buffer f = inr wire ->
  v <> nth i wire Byte.x00 ->
  let n := List.length (contents (Payload f)) in
  ((16 + n <= i < 20 + n)%nat ->
   exists s c f' r', Decode f0 (set_nth i v wire) = (Err (CRCMismatch s c), f', r')) /\
  ((20 + n <= i < 24 + n)%nat ->
   exists s f' r', Decode f0 (set_nth i v wire) = (Err (BadSuffix s), f', r')).
Proof.
  intros Hbuf Hv n.
  set (pb := contents (Payload f)) in *.
  assert (Hmax : Z.of_nat (List.length pb) <= MaxPayloadSize).
  { unfold buffer in Hbuf. fold pb in Hbuf.
    destruct (Z.gtb_spec (Z.of_nat (List.length pb)) MaxPayloadSize); [discriminate|assumption]. }
  rewrite buffer_ok in Hbuf by exact Hmax. fold pb in Hbuf. cbv zeta in Hbuf.
  destruct (parse_encoded_header (Seq f) (Cmd f) (List.length pb) Hmax) as (Hlen & Hpre & Hlength).
  set (hb := write_header _) in *.
  set (c := CRC32.ChecksumIEEE (hb ++ pb)) in *.
  assert (Hc : 0 <= c < 2 ^ 32) by apply ChecksumIEEE_range.
  set (tb := write_trailer (mkTrailer c suffixValue)) in *.
  assert (Hw : wire = hb ++ pb ++ tb) by congruence.
  rewrite Hw in *. clear Hw Hbuf.
  assert (Htamper : forall j, (j < 8)%nat -> i = (16 + n + j)%nat ->
            Decode f0 (set_nth i v (hb ++ pb ++ tb)) =
            (if negb (Suffix (parse_trailer (set_nth j v tb)) =? suffixValue)
             then Err (BadSuffix (Suffix (parse_trailer (set_nth j v tb))))
             else if negb (c =? CRC (parse_trailer (set_nth j v tb)))
             then Err (CRCMismatch c (CRC (parse_trailer (set_nth j v tb))))
             else Nil,
             mkFrame (hSeq (parse_header hb)) (hCmd (parse_header hb)) (filled (Payload f0) pb),
             []) /\ v <> nth j tb Byte.x00).
  { intros j Hj Hi. split.
    - rewrite set_nth_app_r by lia. rewrite set_nth_app_r by lia.
      replace (i - List.length hb - List.length pb)%nat with j by (unfold n in Hi; lia).
      replace (hb ++ pb ++ set_nth j v tb) with (hb ++ pb ++ set_nth j v tb ++ [])
        by (rewrite app_nil_r; reflexivity).
      apply (Decode_frame_bytes f0 hb pb (set_nth j v tb) [] Hlen Hpre Hlength (or_introl Hmax)).
      rewrite set_nth_length. reflexivity.
    - rewrite app_nth2, app_nth2 in Hv by lia.
      replace (i - List.length hb - List.length pb)%nat with j in Hv by (unfold n in Hi; lia).
      exact Hv. }
  assert (Hcrc : Uint32 (PutUint32 c) = c)
    by (rewrite <- (app_nil_r (PutUint32 c)); apply Uint32_PutUint32, Hc).
  assert (Hsuf : Uint32 (PutUint32 suffixValue) = suffixValue)
    by (rewrite <- (app_nil_r (PutUint32 _)); apply Uint32_PutUint32; unfold suffixValue; lia).
  split; intros Hi.
  - destruct (Htamper (i - 16 - n)%nat ltac:(lia) ltac:(lia)) as [Hd Hv'].
    rewrite Hd. clear Hd Htamper.
    remember (i - 16 - n)%nat as j eqn:Ej.
    assert (Hj : (j < 4)%nat) by lia. clear Ej.
    assert (Hs : Suffix (parse_trailer (set_nth j v tb)) = suffixValue).
    { unfold parse_trailer. cbn [Suffix]. rewrite skipn_set_nth by lia. exact Hsuf. }
    assert (Hne : CRC (parse_trailer (set_nth j v tb)) <> c).
    { unfold parse_trailer. cbn [CRC]. intros E. rewrite <- Hcrc in E at 1.
      apply Hv'. unfold tb, write_trailer, PutUint32 in *. cbn [CRC Suffix app] in *.
      destruct j as [|[|[|[|j]]]]; [| | | |lia]; cbn [set_nth nth] in *;
        rewrite (Uint32_bytes _ _ _ _ (_ :: _)) in E;
        apply Uint32_inj in E; congruence. }
    rewrite Hs, Z.eqb_refl. cbn [negb].
    destruct (Z.eqb_spec c (CRC (parse_trailer (set_nth j v tb)))); [congruence|].
    cbn [negb]. do 4 eexists. reflexivity.
  - destruct (Htamper (i - 16 - n)%nat ltac:(lia) ltac:(lia)) as [Hd Hv'].
    rewrite Hd. clear Hd Htamper.
    remember (i - 16 - n)%nat as j eqn:Ej.
    assert (Hj : (4 <= j < 8)%nat) by lia. clear Ej.
    assert (Hne : Suffix (parse_trailer (set_nth j v tb)) <> suffixValue).
    { unfold parse_trailer. cbn [Suffix]. intros E. rewrite <- Hsuf in E at 1.
      apply Hv'. unfold tb, write_trailer, PutUint32 in *. cbn [CRC Suffix app] in *.
      destruct j as [|[|[|[|[|[|[|[|j]]]]]]]]; try lia;
        cbn [set_nth nth skipn] in *; apply Uint32_inj in E; congruence. }
    destruct (Z.eqb_spec (Suffix (parse_trailer (set_nth j v tb))) suffixValue);
      [congruence|].
    cbn [negb]. do 3 eexists. reflexivity.
Qed.

Lemma decode_detects_trailer_flip_witness :
  buffer sampleFrame = inr sampleWire /\
  Byte.xff <> nth 19 sampleWire Byte.x00 /\
  Byte.xff <> nth 25 sampleWire Byte.x00 /\
  (exists s c f' r',
     Decode testFrame (set_nth 19 Byte.xff sampleWire) = (Err (CRCMismatch s c), f', r')) /\
  (exists s f' r',
     Decode testFrame (set_nth 25 Byte.xff sampleWire) = (Err (BadSuffix s), f', r')).
Proof.
  assert (Hb : buffer sampleFrame = inr sampleWire) by (vm_compute; reflexivity).
  assert (N19 : Byte.xff <> nth 19 sampleWire Byte.x00) by (vm_compute; discriminate).
  assert (N25 : Byte.xff <> nth 25 sampleWire Byte.x00) by (vm_compute; discriminate).
  split; [exact Hb|]. split; [exact N19|]. split; [exact N25|]. split.
  - apply (decode_detects_trailer_flip sampleFrame testFrame sampleWire 19 Byte.xff Hb N19).
    change (List.length (contents (Payload sampleFrame))) with 2%nat. lia.
  - apply (decode_detects_trailer_flip sampleFrame testFrame sampleWire 25 Byte.xff Hb N25).
    change (List.length (contents (Payload sampleFrame))) with 2%nat. lia.
Defined.

(** X7. The other round trip: whenever [DecodeFrame] returns nil, the
    bytes it consumed are exactly the serialization of the frame it
    returns, so encoding that frame gives them back, and what follows
    them in the stream is left unread. *)
Theorem decode_then_encode (r rest : list byte) (f : Frame) :
  DecodeFrame r = (Nil, f, rest) ->
  exists wire, buffer f = inr wire /\ r = wire ++ rest.
Proof.
  unfold DecodeFrame, Decode. change (Z.to_nat headerSize) with 16%nat.
  destruct (ReadFull_cases r 16) as [[Hle ->]|[(_ & _ & ->)|(_ & _ & ->)]];
    cbv beta iota zeta; try discriminate.
  set (hb := firstn 16 r). set (r1 := skipn 16 r).
  assert (Hlen : List.length hb = 16%nat) by (unfold hb; rewrite length_firstn; lia).
  destruct (Z.eqb_spec (Prefix (parse_header hb)) prefixValue) as [Hpre|]; [|discriminate].
  cbn [negb Payload Seq Cmd].
  pose proof (Uint32_range (skipn 12 hb)) as HL.
  change (Uint32 (skipn 12 hb)) with (Length (parse_header hb)) in HL.
  set (L := Length (parse_header hb)) in *.
  unfold payload_buffer. change (cap nil_slice) with 0.
  destruct (Z.ltb_spec 0 (L - trailerSize)) as [Hpos|Hnpos].
  - destruct (Z.gtb_spec (L - trailerSize) MaxPayloadSize) as [|Hmax]; [discriminate|].
    cbn [len make].
    set (n := Z.to_nat (L - trailerSize)).
    destruct (ReadFull_cases r1 n) as [[Hn ->]|[(_ & _ & ->)|(_ & _ & ->)]];
      cbv beta iota zeta; try discriminate.
    change (Z.to_nat trailerSize) with 8%nat.
    destruct (ReadFull_cases (skipn n r1) 8) as [[Ht ->]|[(_ & _ & ->)|(_ & _ & ->)]];
      cbv beta iota zeta; try discriminate.
    set (pb := firstn n r1). set (tb := firstn 8 (skipn n r1)).
    destruct (Z.eqb_spec (Suffix (parse_trailer tb)) suffixValue) as [Hsuf|]; [|discriminate].
    cbn [negb]. rewrite Update_app. fold (CRC32.ChecksumIEEE (hb ++ pb)).
    destruct (Z.eqb_spec (CRC32.ChecksumIEEE (hb ++ pb)) (CRC (parse_trailer tb))) as [Hcrc|];
      [|discriminate].
    cbn [negb]. intros [= <- <-].
    apply (decode_then_encode_aux hb pb tb r n L); try assumption; try reflexivity.
    + unfold pb. rewrite length_firstn. lia.
    + unfold tb. rewrite length_firstn. lia.
    + unfold n. lia.
    + unfold n. lia.
    + apply contents_fill. cbn [len make]. unfold pb. rewrite length_firstn. fold n. lia.
  - destruct (Z.ltb_spec (L - trailerSize) 0) as [|Hz]; [discriminate|].
    assert (HL8 : L - trailerSize = 0) by lia. rewrite HL8.
    cbn [len Z.to_nat]. cbn [ReadFull]. cbv beta iota zeta.
    change (Z.to_nat trailerSize) with 8%nat.
    destruct (ReadFull_cases r1 8) as [[Ht ->]|[(_ & _ & ->)|(_ & _ & ->)]];
      cbv beta iota zeta; try discriminate.
    set (tb := firstn 8 r1).
    destruct (Z.eqb_spec (Suffix (parse_trailer tb)) suffixValue) as [Hsuf|]; [|discriminate].
    cbn [negb]. rewrite Update_app. fold (CRC32.ChecksumIEEE (hb ++ [])).
    destruct (Z.eqb_spec (CRC32.ChecksumIEEE (hb ++ [])) (CRC (parse_trailer tb))) as [Hcrc|];
      [|discriminate].
    cbn [negb]. intros [= <- <-].
    apply (decode_then_encode_aux hb [] tb r 0 L); try assumption; try reflexivity.
    + unfold tb. rewrite length_firstn. lia.
    + lia.
    + unfold MaxPayloadSize, maxPacketSize, trailerSize. lia.
Qed.

Lemma decode_then_encode_witness :
  DecodeFrame (sampleWire ++ testData)
  = (Nil, snd (fst (DecodeFrame (sampleWire ++ testData))), testData) /\
  exists wire,
    buffer (snd (fst (DecodeFrame (sampleWire ++ testData)))) = inr wire /\
    sampleWire ++ testData = wire ++ testData.
Proof.
  assert (H : DecodeFrame (sampleWire ++ testData)
              = (Nil, snd (fst (DecodeFrame (sampleWire ++ testData))), testData))
    by (vm_compute; reflexivity).
  split; [exact H|].
  exact (decode_then_encode (sampleWire ++ testData) testData _ H).
Defined.

End FrameExtras3.

Import ListNotations Bytes BytesFacts.
Open Scope Z_scope.

(** * The envelope cipher: properties *)

Module CryptoMore.
Import Crypto ListFacts AESFacts Base64Facts CryptoFacts.

Lemma Encrypt_envelope (c : Cipher) (p : list byte) :
  Encrypt c p = envelope c (AES.ecb (AES.encryptBlock (aes c)) (padded p)).
Proof. reflexivity. Qed.

Lemma EncodedLen_16 (n : Z) : 16 <= n -> 24 <= Base64.EncodedLen n.
Proof.
  intros H. pose proof (EncodedLen_mono 16 n H) as M.
  change (Base64.EncodedLen 16) with 24 in M. exact M.
Qed.

(** [Decrypt] on the envelope around at least one block of bytes. *)
Lemma Decrypt_envelope (c : Cipher) (ct : list byte) :
  (16 <= List.length ct)%nat ->
  Decrypt c (envelope c ct) = decrypt_data c (Base64.Encode ct).
Proof.
  intros H. unfold envelope. cbv zeta.
  rewrite Decrypt_layout.
  - rewrite bytes_eqb_refl. reflexivity.
  - apply macTag_length.
  - pose proof (Encode_length ct) as E.
    pose proof (EncodedLen_16 (Z.of_nat (List.length ct)) ltac:(lia)). lia.
Qed.

(** An envelope cut into its three parts. *)
Lemma envelope_parts (env : list byte) :
  (43 <= List.length env)%nat -> HasPrefix env version = true ->
  env = version ++ firstn 16 (skipn 3 env) ++ skipn 19 env /\
  List.length (firstn 16 (skipn 3 env)) = 16%nat /\
  (24 <= List.length (skipn 19 env))%nat.
Proof.
  intros Hlen Hpre.
  assert (E : firstn 3 env = version).
  { destruct env as [|a [|b [|c env]]]; try (simpl in Hlen; lia).
    cbn in Hpre. rewrite !andb_true_iff in Hpre. destruct Hpre as (Ha & Hb & Hc & _).
    apply beqb_eq in Ha, Hb, Hc. subst. reflexivity. }
  split; [|split].
  - rewrite <- E. change 19%nat with (16 + 3)%nat. rewrite <- skipn_skipn.
    rewrite firstn_skipn, firstn_skipn. reflexivity.
  - rewrite length_firstn, length_skipn. lia.
  - rewrite length_skipn. lia.
Qed.

End CryptoMore.

Import ListNotations Bytes BytesFacts.
Open Scope Z_scope.

Module PaddingFacts.
Import Crypto ListFacts CryptoFacts.

Lemma forallb_repeat (x : byte) (l : list byte) :
  forallb (fun b => beqb b x) l = true -> l = repeat x (List.length l).
Proof.
  induction l as [|a l IH]; simpl; [reflexivity|].
  rewrite andb_true_iff, beqb_eq. intros [-> H]. rewrite <- IH by exact H. reflexivity.
Qed.

Lemma unpad_nonempty (b : list byte) :
  b <> [] -> (exists p, unpad b = Ok p) \/ unpad b = Err ErrPadding.
Proof.
  intros Hb. unfold unpad.
  destruct (rev b) as [|lastByte l] eqn:E.
  - apply (f_equal (@rev byte)) in E. rewrite rev_involutive in E. contradiction.
  - cbv zeta.
    destruct ((b2z lastByte <? 1) || (b2z lastByte >? AES.BlockSize)); [right; reflexivity|].
    destruct (negb _); [right; reflexivity | left; eexists; reflexivity].
Qed.

(** What [unpad] accepts: a buffer that ends with [k] bytes of value
    [k], for some [k] from 1 to 16; it returns what comes before. *)
Lemma unpad_Ok (p : list byte) (k : Z) :
  1 <= k <= 16 -> unpad (p ++ repeat (z2b k) (Z.to_nat k)) = Ok p.
Proof.
  intros Hk. unfold unpad.
  destruct (Z.to_nat k) as [|m] eqn:Em; [lia|].
  rewrite rev_app_distr. cbn [repeat]. rewrite repeat_cons, rev_app_distr. cbn [rev app].
  assert (Hb : b2z (z2b k) = k) by (rewrite b2z_z2b; apply Z.mod_small; lia).
  rewrite Hb. cbv zeta.
  destruct (Z.ltb_spec k 1); [lia|].
  destruct (Z.gtb_spec k AES.BlockSize); [unfold AES.BlockSize in *; lia|].
  cbn [orb]. rewrite Em.
  assert (Hn : (List.length (p ++ repeat (z2b k) m ++ [z2b k]) - S m)%nat = List.length p).
  { rewrite !length_app, repeat_length. simpl. lia. }
  rewrite Hn, skipn_length_app, firstn_length_app.
  replace (forallb _ _) with true; [reflexivity|].
  symmetry. apply forallb_forall. intros x Hx.
  assert (Hin : In x (repeat (z2b k) m ++ [z2b k])).
  { rewrite <- (firstn_skipn (S m - 1)). apply in_or_app. left. exact Hx. }
  apply in_app_or in Hin. destruct Hin as [Hin|[<-|[]]].
  - apply repeat_spec in Hin. subst x. apply beqb_refl.
  - apply beqb_refl.
Qed.

Lemma unpad_Ok_inv (b p : list byte) :
  (16 <= List.length b)%nat -> unpad b = Ok p ->
  exists k, 1 <= k <= 16 /\ b = p ++ repeat (z2b k) (Z.to_nat k).
Proof.
  intros Hlen. unfold unpad.
  destruct (rev b) as [|lastByte l] eqn:E; [discriminate|].
  cbv zeta. set (k := b2z lastByte).
  destruct (Z.ltb_spec k 1); [discriminate|].
  destruct (Z.gtb_spec k AES.BlockSize); [discriminate|].
  cbn [orb]. unfold AES.BlockSize in *.
  destruct (forallb _ _) eqn:F; [|discriminate].
  cbn [negb]. intros [= <-]. exists k. split; [lia|].
  assert (Hb : b = rev l ++ [lastByte]).
  { rewrite <- (rev_involutive b), E. reflexivity. }
  assert (Hl : List.length (rev l) = (List.length b - 1)%nat).
  { rewrite Hb, length_app. simpl. lia. }
  assert (Hx : z2b k = lastByte) by apply z2b_b2z.
  set (n := List.length b) in *.
  rewrite Hb in F at 1.
  rewrite skipn_app in F.
  replace (n - Z.to_nat k - List.length (rev l))%nat with 0%nat in F by lia.
  cbn [skipn] in F.
  rewrite firstn_length_app_n in F by (rewrite length_skipn; lia).
  apply forallb_repeat in F. rewrite length_skipn in F.
  replace (List.length (rev l) - (n - Z.to_nat k))%nat with (Z.to_nat k - 1)%nat in F by lia.
  rewrite <- (firstn_skipn (n - Z.to_nat k) b) at 1. f_equal.
  rewrite Hb at 1. rewrite skipn_app.
  replace (n - Z.to_nat k - List.length (rev l))%nat with 0%nat by lia.
  cbn [skipn]. rewrite F, <- Hx, <- repeat_cons.
  change (z2b k :: repeat (z2b k) (Z.to_nat k - 1))
    with (repeat (z2b k) (S (Z.to_nat k - 1))).
  f_equal. lia.
Qed.

End PaddingFacts.

Import ListNotations Bytes BytesFacts.
Open Scope Z_scope.

Module KeyFacts.
Import AES.

Lemma expand_length (n Nk i : nat) (w : list word) :
  List.length (expand n Nk i w) = (List.length w + n)%nat.
Proof.
  revert i w. induction n as [|n IH]; intros i w; cbn [expand]; [lia|].
  rewrite IH, length_app. simpl. lia.
Qed.

Lemma key_words_length (k : nat) (key : list byte) :
  List.length key = (4 * k)%nat -> List.length (key_words key) = k.
Proof.
  revert key. induction k as [|k IH]; intros key H.
  - destruct key; [reflexivity | simpl in H; lia].
  - do 4 (destruct key as [|? key]; [simpl in H; lia|]).
    cbn [key_words List.length]. rewrite IH; [reflexivity | simpl in H; lia].
Qed.

Lemma round_keys_length (k : nat) (w : list word) :
  List.length w = (4 * k)%nat -> List.length (round_keys w) = k.
Proof.
  revert w. induction k as [|k IH]; intros w H.
  - destruct w; [reflexivity | simpl in H; lia].
  - do 4 (destruct w as [|? w]; [simpl in H; lia|]).
    cbn [round_keys List.length]. rewrite IH; [reflexivity | simpl in H; lia].
Qed.

(** A key of [4 * Nk] bytes gives [Nk + 7] round keys. *)
Lemma expandKey_length (Nk : nat) (key : list byte) :
  List.length key = (4 * Nk)%nat -> List.length (expandKey key) = (Nk + 7)%nat.
Proof.
  intros H. unfold expandKey.
  assert (E : (List.length key / 4)%nat = Nk).
  { rewrite H, Nat.mul_comm. apply Nat.div_mul. lia. }
  rewrite E. apply round_keys_length.
  rewrite expand_length, (key_words_length Nk) by exact H. lia.
Qed.

(** [NewCipher] by cases on the length of the key. *)
Lemma NewCipher_cases (k : list byte) :
  match Crypto.NewCipher k with
  | Some c =>
      (List.length k = 16 \/ List.length k = 24 \/ List.length k = 32)%nat /\
      Crypto.key c = k /\ Crypto.aes c = expandKey k
  | None => (List.length k <> 16 /\ List.length k <> 24 /\ List.length k <> 32)%nat
  end.
Proof.
  unfold Crypto.NewCipher, AES.NewCipher.
  destruct (Nat.eq_dec (List.length k) 16) as [E|N16].
  { rewrite E. cbn [Crypto.key Crypto.aes].
    split; [left; reflexivity | split; reflexivity]. }
  destruct (Nat.eq_dec (List.length k) 24) as [E|N24].
  { rewrite E. cbn [Crypto.key Crypto.aes].
    split; [right; left; reflexivity | split; reflexivity]. }
  destruct (Nat.eq_dec (List.length k) 32) as [E|N32].
  { rewrite E. cbn [Crypto.key Crypto.aes].
    split; [right; right; reflexivity | split; reflexivity]. }
  assert (D : forall n, n <> 16%nat -> n <> 24%nat -> n <> 32%nat ->
            match n with
            | 16%nat | 24%nat | 32%nat => Some (expandKey k)
            | _ => None
            end = None).
  { intros n H1 H2 H3.
    do 33 (destruct n as [|n]; [first [reflexivity | exfalso; lia] |]). reflexivity. }
  rewrite (D _ N16 N24 N32). split; [|split]; assumption.
Qed.

End KeyFacts.

Section CryptoExtras.
Import Crypto ListFacts AESFacts Base64Facts CryptoFacts CryptoMore PaddingFacts KeyFacts.
Import CipherVectors.

(** X8. Cipher round trip: for every cipher and every plaintext, the
    empty one included, [Decrypt] of what [Encrypt] returns is the
    plaintext, with no error and no panic. *)
Theorem cipher_roundtrip (c : Cipher) (p : list byte) :
  Decrypt c (Encrypt c p) = Ok p.
Proof.
  rewrite Encrypt_envelope, Decrypt_envelope.
  - apply decrypt_data_Encode.
  - destruct (ecb_padded c p) as [-> _]. lia.
Qed.

Lemma Hex_Encode_digits (l : list byte) :
  Forall (fun b => In b Hex.hextable) (Hex.Encode l).
Proof.
  induction l as [|v l IH]; cbn [Hex.Encode]; [constructor|].
  pose proof (b2z_range v) as Hv.
  constructor; [|constructor; [|exact IH]]; apply nth_In;
    change (List.length Hex.hextable) with 16%nat.
  - rewrite Z.shiftr_div_pow2 by lia. change (2 ^ 4) with 16.
    pose proof (Z.div_pos (b2z v) 16 ltac:(lia) ltac:(lia)).
    assert (b2z v / 16 < 16) by (apply Z.div_lt_upper_bound; lia). lia.
  - change 0x0f with (Z.ones 4). rewrite Z.land_ones by lia. change (2 ^ 4) with 16.
    pose proof (Z.mod_pos_bound (b2z v) 16 ltac:(lia)). lia.
Qed.

(** X9. The envelope [Encrypt] returns, for every cipher and plaintext:
    it starts with the version "3.1", so [detectEncryption] accepts it;
    bytes 3 to 18 are the tag, sixteen lower-case hexadecimal digits,
    equal to [macTag] of the key and of the bytes from 19 on; its length
    is 19 plus the base64 length of the padded plaintext, a multiple of
    16 bytes strictly greater than the plaintext, hence at least the 43
    bytes under which [Decrypt] answers [ErrTooSmall]. *)
Theorem encrypt_envelope_shape (c : Cipher) (p : list byte) :
  let env := Encrypt c p in
  detectEncryption env = true /\
  firstn 3 env = version /\
  firstn 16 (skipn 3 env) = macTag (key c) (skipn 19 env) /\
  Forall (fun b => In b Hex.hextable) (firstn 16 (skipn 3 env)) /\
  Z.of_nat (List.length env)
  = 19 + (16 * (Z.of_nat (List.length p) / 16 + 1) + 2) / 3 * 4 /\
  43 <= Z.of_nat (List.length env).
Proof.
  intros env. unfold env.
  split; [rewrite Encrypt_eq; apply HasPrefix_app|].
  split; [reflexivity|].
  assert (Etag : firstn 16 (skipn 3 (Encrypt c p))
                 = macTag (key c) (skipn 19 (Encrypt c p))).
  { rewrite Encrypt_eq. cbv zeta.
    set (e := Base64.Encode _).
    change (skipn 3 (version ++ macTag (key c) e ++ e)) with (macTag (key c) e ++ e).
    rewrite (firstn_length_app_n _ 16 _ _ (macTag_length _ _)).
    change 19%nat with (16 + 3)%nat. rewrite <- skipn_skipn.
    change (skipn 3 (version ++ macTag (key c) e ++ e)) with (macTag (key c) e ++ e).
    rewrite (skipn_length_app_n _ 16 _ _ (macTag_length _ _)). reflexivity. }
  split; [exact Etag|].
  split; [rewrite Etag; apply Hex_Encode_digits|].
  split; [apply Encrypt_length | apply Encrypt_min_length].
Qed.

(** X10. [NewCipher] accepts exactly the keys of 16, 24 and 32 bytes; the
    cipher it returns keeps the key and holds 11, 13 or 15 round keys. *)
Theorem NewCipher_key_sizes (k : list byte) :
  match NewCipher k with
  | Some c =>
      (List.length k = 16 \/ List.length k = 24 \/ List.length k = 32)%nat /\
      key c = k /\
      List.length (aes c) = (List.length k / 4 + 7)%nat
  | None => (List.length k <> 16 /\ List.length k <> 24 /\ List.length k <> 32)%nat
  end.
Proof.
  pose proof (NewCipher_cases k) as H.
  destruct (NewCipher k) as [c|]; [|exact H].
  destruct H as (Hlen & Hkey & Haes).
  split; [exact Hlen|]. split; [exact Hkey|].
  rewrite Haes.
  destruct Hlen as [E|[E|E]]; rewrite E.
  - apply (expandKey_length 4), E.
  - apply (expandKey_length 6), E.
  - apply (expandKey_length 8), E.
Qed.

End CryptoExtras.

Import ListNotations Bytes BytesFacts.
Open Scope Z_scope.

Module DecryptFacts.
Import Crypto ListFacts CryptoFacts CryptoMore PaddingFacts.

Lemma unpad_not_tag (b : list byte) : unpad b <> Err ErrTagVerification.
Proof.
  unfold unpad. destruct (rev b) as [|x l]; [discriminate|]. cbv zeta.
  destruct (_ || _); [discriminate|]. destruct (negb _); discriminate.
Qed.

(** After the tag comparison no tag error is returned any more. *)
Lemma decrypt_data_not_tag (c : Cipher) (d : list byte) :
  decrypt_data c d <> Err ErrTagVerification.
Proof.
  unfold decrypt_data. destruct (Base64.Decode d) as [pt [e|]]; [discriminate|].
  destruct (negb _); [discriminate | apply unpad_not_tag].
Qed.

Lemma set_nth_changes (i : nat) (v : byte) (l : list byte) :
  (i < List.length l)%nat -> v <> nth i l Byte.x00 -> set_nth i v l <> l.
Proof.
  revert i. induction l as [|a l IH]; intros [|i] Hi Hv; simpl in *; try lia.
  - intros [= E]. congruence.
  - intros [= E]. exact (IH i ltac:(lia) Hv E).
Qed.

Lemma bytes_eqb_neq (x y : list byte) : x <> y -> bytes_eqb x y = false.
Proof.
  intros H. destruct (bytes_eqb x y) eqn:E; [|reflexivity].
  apply bytes_eqb_eq in E. contradiction.
Qed.

Lemma Decrypt_too_small (c : Cipher) (env : list byte) :
  (List.length env < 43)%nat -> Decrypt c env = Err ErrTooSmall.
Proof.
  intros H. unfold Decrypt.
  replace (_ <? _) with true; [reflexivity|].
  symmetry. apply Z.ltb_lt.
  change (Z.of_nat (List.length version) + tagSize + Base64.EncodedLen AES.BlockSize) with 43.
  lia.
Qed.

Lemma Decrypt_bad_version (c : Cipher) (env : list byte) :
  (43 <= List.length env)%nat -> HasPrefix env version = false ->
  Decrypt c env = Err ErrVersion.
Proof.
  intros H Hp. unfold Decrypt.
  replace (_ <? _) with false.
  - rewrite Hp. reflexivity.
  - symmetry. apply Z.ltb_ge.
    change (Z.of_nat (List.length version) + tagSize + Base64.EncodedLen AES.BlockSize) with 43.
    lia.
Qed.

End DecryptFacts.

Section DecryptExtras.
Import Crypto ListFacts AESFacts Base64Facts CryptoFacts CryptoMore PaddingFacts DecryptFacts.
Import CipherVectors.

(** X11. [Decrypt] authenticates before it decodes. An input of fewer
    than 43 bytes gets [ErrTooSmall], whatever it starts with; a longer
    one that does not start with "3.1" gets the version error; one that
    does gets [ErrTagVerification] exactly when bytes 3 to 18 differ from
    [macTag] of the key and of the bytes from 19 on, so that base64,
    block and padding processing only ever see authenticated bytes. *)
Theorem decrypt_authenticates_first (c : Cipher) (env : list byte) :
  ((List.length env < 43)%nat -> Decrypt c env = Err ErrTooSmall) /\
  ((43 <= List.length env)%nat -> HasPrefix env version = false ->
   Decrypt c env = Err ErrVersion) /\
  ((43 <= List.length env)%nat -> HasPrefix env version = true ->
   (Decrypt c env = Err ErrTagVerification <->
    firstn 16 (skipn 3 env) <> macTag (key c) (skipn 19 env))).
Proof.
  split; [apply Decrypt_too_small | split; [apply Decrypt_bad_version|]].
  - intros H Hp.
    destruct (envelope_parts env H Hp) as (E & Htag & Hdata).
    set (tag := firstn 16 (skipn 3 env)) in *. set (data := skipn 19 env) in *.
    rewrite E at 1. rewrite (Decrypt_layout c tag data Htag Hdata).
    destruct (bytes_eqb tag (macTag (key c) data)) eqn:B.
    + apply bytes_eqb_eq in B. split; [intros D | intros N; contradiction].
      exfalso. exact (decrypt_data_not_tag _ _ D).
    + split; [intros _ N | reflexivity].
      rewrite N, bytes_eqb_refl in B. discriminate.
Qed.

Lemma decrypt_authenticates_first_witness :
  ((List.length version < 43)%nat /\ Decrypt testCipher version = Err ErrTooSmall) /\
  ((43 <= List.length (set_nth 1 Byte.x2d testCiphertext))%nat /\
   HasPrefix (set_nth 1 Byte.x2d testCiphertext) version = false /\
   Decrypt testCipher (set_nth 1 Byte.x2d testCiphertext) = Err ErrVersion) /\
  ((43 <= List.length (set_nth 30 Byte.x41 testCiphertext))%nat /\
   HasPrefix (set_nth 30 Byte.x41 testCiphertext) version = true /\
   firstn 16 (skipn 3 (set_nth 30 Byte.x41 testCiphertext))
   <> macTag (key testCipher) (skipn 19 (set_nth 30 Byte.x41 testCiphertext)) /\
   Decrypt testCipher (set_nth 30 Byte.x41 testCiphertext) = Err ErrTagVerification).
Proof.
  destruct (decrypt_authenticates_first testCipher version) as (A & _ & _).
  destruct (decrypt_authenticates_first testCipher (set_nth 1 Byte.x2d testCiphertext))
    as (_ & B & _).
  destruct (decrypt_authenticates_first testCipher (set_nth 30 Byte.x41 testCiphertext))
    as (_ & _ & C).
  assert (A1 : (List.length version < 43)%nat) by (vm_compute; lia).
  assert (B1 : (43 <= List.length (set_nth 1 Byte.x2d testCiphertext))%nat)
    by (rewrite set_nth_length; vm_compute; lia).
  assert (B2 : HasPrefix (set_nth 1 Byte.x2d testCiphertext) version = false)
    by (vm_compute; reflexivity).
  assert (C1 : (43 <= List.length (set_nth 30 Byte.x41 testCiphertext))%nat)
    by (rewrite set_nth_length; vm_compute; lia).
  assert (C2 : HasPrefix (set_nth 30 Byte.x41 testCiphertext) version = true)
    by (vm_compute; reflexivity).
  assert (C3 : firstn 16 (skipn 3 (set_nth 30 Byte.x41 testCiphertext))
               <> macTag (key testCipher) (skipn 19 (set_nth 30 Byte.x41 testCiphertext)))
    by (vm_compute; discriminate).
  split; [split; [exact A1 | exact (A A1)]|].
  split; [split; [exact B1 | split; [exact B2 | exact (B B1 B2)]]|].
  split; [exact C1|]. split; [exact C2|]. split; [exact C3|].
  exact (proj2 (C C1 C2) C3).
Defined.

(** X12. Tampering with the head of an envelope is always detected: in
    what [Encrypt] returns, for every cipher and plaintext, overwriting
    one of the three version bytes with a different value makes
    [Decrypt] return the version error, and overwriting one of the
    sixteen tag bytes makes it return [ErrTagVerification]. *)
Theorem decrypt_detects_head_tamper (c : Cipher) (p : list byte) (i : nat) (v : byte) :
  v <> nth i (Encrypt c p) Byte.x00 ->
  ((i < 3)%nat -> Decrypt c (set_nth i v (Encrypt c p)) = Err ErrVersion) /\
  ((3 <= i < 19)%nat -> Decrypt c (set_nth i v (Encrypt c p)) = Err ErrTagVerification).
Proof.
  intros Hv. rewrite Encrypt_eq in *. cbv zeta in *.
  set (data := Base64.Encode _) in *. set (tag := macTag (key c) data) in *.
  assert (Hdata : (24 <= List.length data)%nat) by apply Encode_min_length.
  assert (Htag : List.length tag = 16%nat) by apply macTag_length.
  split; intros Hi.
  - apply Decrypt_bad_version.
    + rewrite set_nth_length, !length_app, Htag. change (List.length version) with 3%nat. lia.
    + rewrite set_nth_app_l by (change (List.length version) with 3%nat; lia).
      rewrite app_nth1 in Hv by (change (List.length version) with 3%nat; lia).
      assert (N : beqb v (nth i version Byte.x00) = false).
      { destruct (beqb v (nth i version Byte.x00)) eqn:E; [|reflexivity].
        apply beqb_eq in E. contradiction. }
      destruct i as [|[|[|i]]]; [| | |lia]; cbn in N |- *; rewrite N;
        rewrite ?andb_false_r; reflexivity.
  - rewrite set_nth_app_r by (change (List.length version) with 3%nat; lia).
    change (List.length version) with 3%nat.
    rewrite set_nth_app_l by lia.
    rewrite app_nth2, app_nth1 in Hv by (change (List.length version) with 3%nat; lia).
    change (List.length version) with 3%nat in Hv.
    rewrite Decrypt_layout by (rewrite ?set_nth_length; assumption).
    fold tag. rewrite bytes_eqb_neq; [reflexivity|].
    apply set_nth_changes; [lia | exact Hv].
Qed.

Lemma decrypt_detects_head_tamper_witness :
  Byte.x66 <> nth 10 (Encrypt testCipher testPlaintext) Byte.x00 /\
  Byte.x66 <> nth 0 (Encrypt testCipher testPlaintext) Byte.x00 /\
  Decrypt testCipher (set_nth 0 Byte.x66 (Encrypt testCipher testPlaintext)) = Err ErrVersion /\
  Decrypt testCipher (set_nth 10 Byte.x66 (Encrypt testCipher testPlaintext))
  = Err ErrTagVerification.
Proof.
  assert (H10 : Byte.x66 <> nth 10 (Encrypt testCipher testPlaintext) Byte.x00)
    by (vm_compute; discriminate).
  assert (H0 : Byte.x66 <> nth 0 (Encrypt testCipher testPlaintext) Byte.x00)
    by (vm_compute; discriminate).
  split; [exact H10|]. split; [exact H0|]. split.
  - apply (decrypt_detects_head_tamper testCipher testPlaintext 0 Byte.x66 H0). lia.
  - apply (decrypt_detects_head_tamper testCipher testPlaintext 10 Byte.x66 H10). lia.
Defined.

(** X13. An authenticated envelope whose base64 part decodes to a
    number of bytes that is not a multiple of the block size makes
    [Decrypt] panic: the block cipher is handed a last block that is not
    full. *)
Theorem decrypt_partial_block_panics (c : Cipher) (ct : list byte) :
  (16 <= List.length ct)%nat ->
  Z.of_nat (List.length ct) mod 16 <> 0 ->
  Decrypt c (envelope c ct) = Panic "crypto/aes: input not full block".
Proof.
  intros Hlen Hmod. rewrite Decrypt_envelope by exact Hlen.
  unfold decrypt_data. rewrite Decode_Encode.
  apply Z.eqb_neq in Hmod. unfold AES.BlockSize. rewrite Hmod. reflexivity.
Qed.

Lemma decrypt_partial_block_panics_witness :
  (16 <= List.length (firstn 17 testCiphertext))%nat /\
  Z.of_nat (List.length (firstn 17 testCiphertext)) mod 16 <> 0 /\
  Decrypt testCipher (envelope testCipher (firstn 17 testCiphertext))
  = Panic "crypto/aes: input not full block".
Proof.
  assert (H1 : (16 <= List.length (firstn 17 testCiphertext))%nat) by (vm_compute; lia).
  assert (H2 : Z.of_nat (List.length (firstn 17 testCiphertext)) mod 16 <> 0)
    by (vm_compute; discriminate).
  split; [exact H1|]. split; [exact H2|].
  exact (decrypt_partial_block_panics testCipher (firstn 17 testCiphertext) H1 H2).
Defined.

(** X14. Padding validation. For a buffer [b] of one or more whole
    blocks, [Decrypt] of the envelope around its encryption returns the
    bytes [p] when [b] is [p] followed by [k] bytes of value [k] for some
    [k] from 1 to 16, and [ErrPadding] when [b] has no such form. *)
Theorem decrypt_validates_padding (c : Cipher) (b : list byte) (n : nat) :
  List.length b = (16 * n)%nat -> (1 <= n)%nat ->
  let env := envelope c (AES.ecb (AES.encryptBlock (aes c)) b) in
  (forall k p, 1 <= k <= 16 -> b = p ++ repeat (z2b k) (Z.to_nat k) ->
               Decrypt c env = Ok p) /\
  ((forall k p, 1 <= k <= 16 -> b <> p ++ repeat (z2b k) (Z.to_nat k)) ->
   Decrypt c env = Err ErrPadding).
Proof.
  intros Hlen Hn env.
  destruct (ecb_roundtrip (aes c) n b Hlen) as [Hl Hrt].
  assert (Hd : Decrypt c env = unpad b).
  { unfold env. rewrite Decrypt_envelope by lia.
    unfold decrypt_data. rewrite Decode_Encode, Hl, Hrt.
    replace (Z.of_nat (16 * n) mod AES.BlockSize =? 0) with true; [reflexivity|].
    symmetry. apply Z.eqb_eq. rewrite Nat2Z.inj_mul. change (Z.of_nat 16) with 16.
    unfold AES.BlockSize. rewrite Z.mul_comm. apply Z.mod_mul. lia. }
  rewrite Hd. split.
  - intros k p Hk ->. apply unpad_Ok, Hk.
  - intros Hno.
    assert (Hne : b <> []) by (destruct b; [simpl in Hlen; lia | discriminate]).
    destruct (unpad_nonempty b Hne) as [[p Hp]|He]; [|exact He].
    destruct (unpad_Ok_inv b p ltac:(lia) Hp) as (k & Hk & E).
    exfalso. exact (Hno k p Hk E).
Qed.

Lemma decrypt_validates_padding_witness :
  List.length (firstn 16 testPlaintext) = (16 * 1)%nat /\ (1 <= 1)%nat /\
  (forall k p, 1 <= k <= 16 -> firstn 16 testPlaintext <> p ++ repeat (z2b k) (Z.to_nat k)) /\
  Decrypt testCipher
    (envelope testCipher (AES.ecb (AES.encryptBlock (aes testCipher)) (firstn 16 testPlaintext)))
  = Err ErrPadding /\
  Decrypt testCipher
    (envelope testCipher (AES.ecb (AES.encryptBlock (aes testCipher)) (padded testKey)))
  = Ok testKey.
Proof.
  assert (H1 : List.length (firstn 16 testPlaintext) = (16 * 1)%nat) by reflexivity.
  assert (H2 : (1 <= 1)%nat) by lia.
  assert (H3 : forall k p, 1 <= k <= 16 ->
                 firstn 16 testPlaintext <> p ++ repeat (z2b k) (Z.to_nat k)).
  { intros k p Hk E. apply (f_equal (@rev byte)) in E.
    rewrite rev_app_distr in E.
    destruct (Z.to_nat k) as [|m] eqn:Em; [lia|].
    cbn [repeat] in E. rewrite repeat_cons, rev_app_distr in E.
    change (rev (firstn 16 testPlaintext)) with
      (Byte.x34 :: rev (firstn 15 testPlaintext)) in E.
    cbn [rev app] in E. injection E as E _.
    apply (f_equal b2z) in E. rewrite b2z_z2b, Z.mod_small in E by lia.
    change (b2z Byte.x34) with 52 in E. lia. }
  assert (H4 : List.length (padded testKey) = (16 * 2)%nat) by reflexivity.
  split; [exact H1|]. split; [exact H2|]. split; [exact H3|]. split.
  - exact (proj2 (decrypt_validates_padding testCipher (firstn 16 testPlaintext) 1 H1 H2) H3).
  - apply (proj1 (decrypt_validates_padding testCipher (padded testKey) 2 H4 ltac:(lia)) 16 testKey).
    + lia.
    + reflexivity.
Defined.

End DecryptExtras.

Import ListNotations Bytes BytesFacts.
Open Scope Z_scope.

(** * Responses: the status word and the body *)

Module ResponseFacts.
Import Client FrameMore.

(** A payload of four bytes or more is its status word followed by the
    rest. *)
Lemma payload_split (payload : list byte) :
  (4 <= List.length payload)%nat ->
  payload = PutUint32 (Uint32 payload) ++ skipn 4 payload.
Proof.
  intros H.
  destruct payload as [|a [|b [|c [|d rest]]]]; try (simpl in H; lia).
  rewrite Uint32_bytes, PutUint32_Uint32. reflexivity.
Qed.

Lemma Err_short (payload : list byte) :
  (List.length payload < 4)%nat ->
  Err payload = Some (PayloadTooShort (Z.of_nat (List.length payload))).
Proof.
  intros H. unfold Err.
  replace (Z.of_nat (List.length payload) <? 4) with true; [reflexivity|].
  symmetry. apply Z.ltb_lt. lia.
Qed.

Lemma Err_status (code : Z) (body : list byte) :
  0 <= code < 2 ^ 32 ->
  Err (PutUint32 code ++ body)
  = if code =? 0 then None else Some (ResponseError code body).
Proof.
  intros H. unfold Err. rewrite length_app, PutUint32_length.
  replace (Z.of_nat (4 + List.length body) <? 4) with false
    by (symmetry; apply Z.ltb_ge; lia).
  rewrite Uint32_PutUint32 by exact H.
  destruct (code =? 0); reflexivity.
Qed.

End ResponseFacts.

Section ResponseExtras.
Import Client FrameMore ResponseFacts CipherVectors.

(** X15. [Response.Err] and [Response.Bytes] split the payload. When
    [Err] returns nil, the payload is four zero bytes followed by exactly
    the bytes [Bytes] returns; when it returns a [ResponseError], the
    payload is the big-endian code, which is not zero, followed by the
    message, and [Bytes] returns that error; the only other error is the
    one for a payload of fewer than four bytes, which carries its
    length. *)
Theorem response_err_splits_payload (payload : list byte) :
  match Err payload, Bytes payload with
  | None, inr data => payload = PutUint32 0 ++ data
  | Some (ResponseError code msg), inl e =>
      e = ResponseError code msg /\
      payload = PutUint32 code ++ msg /\ 0 < code < 2 ^ 32
  | Some (PayloadTooShort n), inl e =>
      e = PayloadTooShort n /\
      n = Z.of_nat (List.length payload) /\ (List.length payload < 4)%nat
  | _, _ => False
  end.
Proof.
  unfold Bytes, Err.
  destruct (Z.ltb_spec (Z.of_nat (List.length payload)) 4) as [Hs|Hl].
  - split; [reflexivity | split; [reflexivity | lia]].
  - pose proof (payload_split payload ltac:(lia)) as E.
    pose proof (Uint32_range payload) as R.
    destruct (Z.eqb_spec (Uint32 payload) 0) as [Z0|NZ]; cbn [negb].
    + rewrite Z0 in E. exact E.
    + split; [reflexivity | split; [exact E | lia]].
Qed.

(** X16. [Response.DecodeJSON] on a payload made of a status word and a
    body: with status zero the result is that of [json.Unmarshal] on the
    body alone; with any other status it is the [ResponseError] carrying
    the status and the body, whatever [json.Unmarshal] would say; and a
    payload of fewer than four bytes gives the short-payload error. *)
Theorem DecodeJSON_status (T : Type) (Unmarshal : list byte -> option T)
        (code : Z) (body short : list byte) :
  0 <= code < 2 ^ 32 ->
  (List.length short < 4)%nat ->
  DecodeJSON T Unmarshal (PutUint32 code ++ body)
  = (if code =? 0
     then match Unmarshal body with
          | Some v => inr v
          | None => inl UnmarshalError
          end
     else inl (ResponseError code body)) /\
  DecodeJSON T Unmarshal short
  = inl (PayloadTooShort (Z.of_nat (List.length short))).
Proof.
  intros Hc Hs. unfold DecodeJSON, Bytes. split.
  - rewrite Err_status by exact Hc.
    destruct (code =? 0); [|reflexivity].
    change (skipn 4 (PutUint32 code ++ body)) with body. reflexivity.
  - rewrite Err_short by exact Hs. reflexivity.
Qed.

Lemma DecodeJSON_status_witness :
  DecodeJSON unit toyUnmarshal (PutUint32 0 ++ of_string "{}") = inr tt /\
  DecodeJSON unit toyUnmarshal (PutUint32 0 ++ of_string "{") = inl UnmarshalError /\
  DecodeJSON unit toyUnmarshal (PutUint32 1 ++ of_string "{}")
  = inl (ResponseError 1 (of_string "{}")) /\
  DecodeJSON unit toyUnmarshal (of_string "{}") = inl (PayloadTooShort 2).
Proof.
  assert (H0 : 0 <= 0 < 2 ^ 32) by lia.
  assert (H1 : 0 <= 1 < 2 ^ 32) by lia.
  assert (Hs : (List.length (of_string "{}") < 4)%nat) by (cbn; lia).
  split; [|split; [|split]].
  - exact (proj1 (DecodeJSON_status unit toyUnmarshal 0 (of_string "{}") (of_string "{}") H0 Hs)).
  - exact (proj1 (DecodeJSON_status unit toyUnmarshal 0 (of_string "{") (of_string "{}") H0 Hs)).
  - exact (proj1 (DecodeJSON_status unit toyUnmarshal 1 (of_string "{}") (of_string "{}") H1 Hs)).
  - exact (proj2 (DecodeJSON_status unit toyUnmarshal 0 (of_string "{}") (of_string "{}") H0 Hs)).
Defined.

End ResponseExtras.

Import ListNotations Bytes BytesFacts.
Open Scope Z_scope.

(** * The client: writing and reading frames *)

Module ClientFacts.
Import Frame FrameExt Client FrameMore.

Section ClientFacts.

Variable J : Type.
Variable Marshal : J -> option (list byte).
Variable W : Type.
Variable WriteTo : W -> list byte -> W * bool.

Local Abbreviation Write := (Write J Marshal W WriteTo).
Local Abbreviation Writes := (Writes J Marshal W WriteTo).

(** [Write] by cases on what it returns. *)
Lemma Write_cases (c : Client W) (cmd : Z) (encrypt : bool) (p : payload J) :
  let s := uint32 (seq c + 1) in
  (encrypt = true /\ cipher c = None /\ Write c cmd encrypt p = (c, inl ErrNoKey)) \/
  (~ (encrypt = true /\ cipher c = None) /\
   ((match p with Raw data => Some data | Object v => Marshal v end) = None /\
    Write c cmd encrypt p = (c, inl PayloadMarshal) \/
    exists data,
      (match p with Raw data => Some data | Object v => Marshal v end) = Some data /\
      (let sent := match encrypt, cipher c with
                   | true, Some k => Crypto.Encrypt k data
                   | _, _ => data
                   end in
       let f := mkFrame s cmd (slice_of sent) in
       (exists e, buffer f = inl e /\
          Write c cmd encrypt p = (mkClient W (rd c) (wr c) (cipher c) s, inl (FrameEncode e))) \/
       (exists wire, buffer f = inr wire /\
          Write c cmd encrypt p
          = (mkClient W (rd c) (fst (WriteTo (wr c) wire)) (cipher c) s,
             if snd (WriteTo (wr c) wire) then inr s else inl FrameWriteTo))))).
Proof.
  intros s. unfold Client.Write. fold s.
  destruct encrypt, (cipher c) as [k|] eqn:Ek;
    try (left; split; [reflexivity | split; reflexivity]);
    right; (split; [intros [A B]; discriminate|]);
    (destruct (match p with Raw data => Some data | Object v => Marshal v end) as [data|];
     [right; exists data; split; [reflexivity|] | left; split; reflexivity]);
    cbv zeta; cbn [rd wr cipher seq];
    (destruct (buffer _) as [e|wire];
     [left; exists e; split; reflexivity
     |right; exists wire; split; [reflexivity|];
      destruct (WriteTo (wr c) wire) as [w [|]]; reflexivity]).
Qed.

(** The counter moves by at most one step, and a call that succeeds
    returns the counter it leaves behind. *)
Lemma Write_seq (c c' : Client W) (cmd : Z) (encrypt : bool) (p : payload J)
      (r : WriteErr + Z) :
  Write c cmd encrypt p = (c', r) ->
  (seq c' = seq c \/ seq c' = uint32 (seq c + 1)) /\
  (forall s, r = inr s -> s = uint32 (seq c + 1) /\ seq c' = s).
Proof.
  intros H.
  destruct (Write_cases c cmd encrypt p) as [(_ & _ & E)|(_ & [(_ & E)|(data & _ & [(e & _ & E)|(wire & _ & E)])])];
    rewrite E in H; injection H as <- <-; cbn [seq].
  - split; [left; reflexivity | intros s [=]].
  - split; [left; reflexivity | intros s [=]].
  - split; [right; reflexivity | intros s [=]].
  - split; [right; reflexivity|].
    intros s Hs. destruct (snd (WriteTo (wr c) wire)); [|discriminate].
    injection Hs as <-. split; reflexivity.
Qed.

Lemma Writes_seq (calls : list (Z * bool * payload J)) :
  forall (c c' : Client W) (rs : list (WriteErr + Z)),
  0 <= seq c -> seq c + Z.of_nat (List.length calls) < 2 ^ 32 ->
  Writes c calls = (c', rs) ->
  List.length rs = List.length calls /\
  seq c <= seq c' <= seq c + Z.of_nat (List.length calls) /\
  (forall i s, nth_error rs i = Some (inr s) -> seq c < s <= seq c') /\
  (forall i j si sj, (i < j)%nat ->
     nth_error rs i = Some (inr si) -> nth_error rs j = Some (inr sj) -> si < sj).
Proof.
  induction calls as [|[[cmd encrypt] p] calls IH]; intros c c' rs H0 Hb H.
  - cbn in H. injection H as <- <-.
    split; [reflexivity|]. split; [cbn; lia|].
    split; [intros [|i] s E; discriminate | intros [|i] [|j] si sj _ E; discriminate].
  - cbn [Client.Writes] in H.
    destruct (Write c cmd encrypt p) as [c1 r] eqn:E1.
    destruct (Writes c1 calls) as [c2 rs'] eqn:E2.
    injection H as <- <-.
    cbn [List.length] in Hb. rewrite Nat2Z.inj_succ in Hb.
    destruct (Write_seq c c1 cmd encrypt p r E1) as (Hstep & Hret).
    assert (U : uint32 (seq c + 1) = seq c + 1) by (unfold uint32; apply Z.mod_small; lia).
    rewrite U in Hstep, Hret.
    assert (H1 : seq c <= seq c1 <= seq c + 1) by lia.
    destruct (IH c1 c2 rs' ltac:(lia) ltac:(lia) E2) as (Hl & Hr & Hs & Hi).
    split; [cbn [List.length]; lia|].
    split; [cbn [List.length]; rewrite Nat2Z.inj_succ; lia|].
    split.
    + intros [|i] s E; cbn [nth_error] in E.
      * injection E as ->. destruct (Hret s eq_refl). lia.
      * pose proof (Hs i s E). lia.
    + intros [|i] [|j] si sj Hij Ei Ej; cbn [nth_error] in Ei, Ej; try lia.
      * injection Ei as ->. destruct (Hret si eq_refl) as [_ E].
        pose proof (Hs j sj Ej). lia.
      * exact (Hi i j si sj ltac:(lia) Ei Ej).
Qed.

(** [Read] on a stream that starts with the serialization of a frame. *)
Lemma Read_buffer (r : Client W) (f : Frame) (wire rest : list byte) :
  0 <= Seq f < 2 ^ 32 -> 0 <= Cmd f < 2 ^ 32 ->
  buffer f = inr wire -> rd r = wire ++ rest ->
  Read W r
  = let c := mkClient W rest (wr r) (cipher r) (seq r) in
    let payload := contents (Payload f) in
    if Crypto.detectEncryption payload then
      match cipher r with
      | None => (c, ReadPanic "invalid memory address or nil pointer dereference")
      | Some k =>
          match Crypto.Decrypt k payload with
          | Crypto.Err e => (c, ReadError (DecryptErr e))
          | Crypto.Panic msg => (c, ReadPanic msg)
          | Crypto.Ok plaintext =>
              (c, Response (mkFrame (Seq f) (Cmd f) (slice_of plaintext)))
          end
      end
    else (c, Response (mkFrame (Seq f) (Cmd f) (slice_of payload))).
Proof.
  intros Hs Hc Hb Hr. unfold Read, DecodeFrame. rewrite Hr.
  rewrite (Decode_buffer f (mkFrame 0 0 nil_slice) wire rest Hs Hc Hb).
  cbn [Payload Seq Cmd cipher]. rewrite contents_filled. cbv zeta.
  destruct (Crypto.detectEncryption (contents (Payload f))); [reflexivity|].
  do 3 f_equal. unfold filled, nil_slice, slice_of. cbn [backing cap List.length].
  destruct (contents (Payload f)) as [|a l]; [reflexivity|].
  replace (Z.of_nat 0 <? Z.of_nat (List.length (a :: l))) with true; [reflexivity|].
  symmetry. apply Z.ltb_lt. cbn [List.length]. lia.
Qed.

End ClientFacts.

End ClientFacts.

Section ClientExtras.
Import Frame FrameExt Client FrameMore ClientFacts CipherVectors.
Import Crypto CryptoFacts CryptoMore DecryptFacts.

(** X17. What [Write] changes. Whatever it returns, the reading side
    and the cipher of the client stay as they were. It returns
    [ErrNoKey] exactly when encryption is asked of a client without
    cipher; with that error or a marshalling error the client is left
    untouched, so no sequence number is used up and nothing is written.
    Every other call advances the counter by one modulo 2^32, also when
    encoding or writing the frame fails, and a call that succeeds returns
    the advanced counter. *)
Theorem write_effects (J : Type) (Marshal : J -> option (list byte))
        (W : Type) (WriteTo : W -> list byte -> W * bool)
        (c : Client W) (cmd : Z) (encrypt : bool) (p : payload J) :
  let c' := fst (Write J Marshal W WriteTo c cmd encrypt p) in
  let r := snd (Write J Marshal W WriteTo c cmd encrypt p) in
  rd c' = rd c /\ cipher c' = cipher c /\
  (r = inl ErrNoKey <-> encrypt = true /\ cipher c = None) /\
  (r = inl ErrNoKey \/ r = inl PayloadMarshal -> c' = c) /\
  (r <> inl ErrNoKey -> r <> inl PayloadMarshal -> seq c' = uint32 (seq c + 1)) /\
  (forall e, r = inl (FrameEncode e) -> wr c' = wr c) /\
  (forall s, r = inr s -> s = seq c').
Proof.
  intros c' r. subst c' r.
  destruct (Write_cases J Marshal W WriteTo c cmd encrypt p)
    as [(He & Hk & E)|(Hn & [(_ & E)|(data & _ & [(e & _ & E)|(wire & _ & E)])])];
    rewrite E; cbn [fst snd rd wr cipher seq].
  - split; [reflexivity|]. split; [reflexivity|].
    split; [split; [intros _; split; assumption | reflexivity]|].
    split; [reflexivity|].
    split; [intros H; contradiction|].
    split; [intros e H; discriminate | intros s H; discriminate].
  - split; [reflexivity|]. split; [reflexivity|].
    split; [split; [discriminate | intros H; exfalso; exact (Hn H)]|].
    split; [reflexivity|].
    split; [intros _ H; contradiction|].
    split; [intros e H; discriminate | intros s H; discriminate].
  - split; [reflexivity|]. split; [reflexivity|].
    split; [split; [discriminate | intros H; exfalso; exact (Hn H)]|].
    split; [intros [H|H]; discriminate|].
    split; [reflexivity|].
    split; [reflexivity | intros s H; discriminate].
  - split; [reflexivity|]. split; [reflexivity|].
    destruct (snd (WriteTo (wr c) wire)).
    + split; [split; [discriminate | intros H; exfalso; exact (Hn H)]|].
      split; [intros [H|H]; discriminate|].
      split; [reflexivity|].
      split; [intros e H; discriminate | intros s H; congruence].
    + split; [split; [discriminate | intros H; exfalso; exact (Hn H)]|].
      split; [intros [H|H]; discriminate|].
      split; [reflexivity|].
      split; [intros e H; discriminate | intros s H; discriminate].
Qed.

Lemma write_effects_witness :
  snd (Write unit toyMarshal recorder record plainClient 7 true (Object tt)) = inl ErrNoKey /\
  fst (Write unit toyMarshal recorder record plainClient 7 true (Object tt)) = plainClient /\
  snd (Write unit toyMarshal recorder record keyedClient 10 false (Raw testPlaintext))
  = inl FrameWriteTo /\
  seq (fst (Write unit toyMarshal recorder record keyedClient 10 false (Raw testPlaintext)))
  = 42.
Proof.
  pose proof (write_effects unit toyMarshal recorder record plainClient 7 true (Object tt)) as A.
  cbv zeta in A. destruct A as (_ & _ & A1 & A2 & _).
  assert (E : snd (Write unit toyMarshal recorder record plainClient 7 true (Object tt))
              = inl ErrNoKey) by (apply A1; split; reflexivity).
  split; [exact E|]. split; [apply A2; left; exact E|].
  pose proof (write_effects unit toyMarshal recorder record keyedClient 10 false
                (Raw testPlaintext)) as B.
  cbv zeta in B. destruct B as (_ & _ & _ & _ & B1 & _).
  assert (F : snd (Write unit toyMarshal recorder record keyedClient 10 false
                     (Raw testPlaintext)) = inl FrameWriteTo) by (vm_compute; reflexivity).
  split; [exact F|].
  rewrite B1; [reflexivity | rewrite F; discriminate | rewrite F; discriminate].
Defined.

(** X18. Sequence numbers of successive calls. When calls of [Write] are
    made one after the other on a client whose counter cannot reach 2^32
    during them, the numbers returned by the calls that succeed are
    strictly increasing in the order of the calls, all greater than the
    counter at the start and at most the counter at the end, which has
    advanced by at most one per call. *)
Theorem writes_strictly_increasing (J : Type) (Marshal : J -> option (list byte))
        (W : Type) (WriteTo : W -> list byte -> W * bool)
        (c : Client W) (calls : list (Z * bool * payload J)) :
  0 <= seq c -> seq c + Z.of_nat (List.length calls) < 2 ^ 32 ->
  let c' := fst (Writes J Marshal W WriteTo c calls) in
  let rs := snd (Writes J Marshal W WriteTo c calls) in
  List.length rs = List.length calls /\
  seq c <= seq c' <= seq c + Z.of_nat (List.length calls) /\
  (forall i s, nth_error rs i = Some (inr s) -> seq c < s <= seq c') /\
  (forall i j si sj, (i < j)%nat ->
     nth_error rs i = Some (inr si) -> nth_error rs j = Some (inr sj) -> si < sj).
Proof.
  intros H0 Hb c' rs.
  apply (Writes_seq J Marshal W WriteTo calls c c' rs H0 Hb).
  subst c' rs. destruct (Writes J Marshal W WriteTo c calls); reflexivity.
Qed.

Lemma writes_strictly_increasing_witness :
  let calls := [(7, true, Raw (of_string "{}")); (10, false, Object tt);
                (10, false, Raw testPlaintext); (7, true, Object tt)] in
  0 <= seq keyedClient /\
  seq keyedClient + Z.of_nat (List.length calls) < 2 ^ 32 /\
  snd (Writes unit toyMarshal recorder record keyedClient calls)
  = [inr 42; inr 43; inl FrameWriteTo; inr 45] /\
  (forall i j si sj, (i < j)%nat ->
     nth_error (snd (Writes unit toyMarshal recorder record keyedClient calls)) i
     = Some (inr si) ->
     nth_error (snd (Writes unit toyMarshal recorder record keyedClient calls)) j
     = Some (inr sj) -> si < sj).
Proof.
  intros calls.
  assert (H0 : 0 <= seq keyedClient) by (cbn; lia).
  assert (Hb : seq keyedClient + Z.of_nat (List.length calls) < 2 ^ 32) by (cbn; lia).
  split; [exact H0|]. split; [exact Hb|]. split; [vm_compute; reflexivity|].
  exact (proj2 (proj2 (proj2
    (writes_strictly_increasing unit toyMarshal recorder record keyedClient calls H0 Hb)))).
Defined.

(** X19. Write, then read. When [Write] of raw bytes succeeds, the
    bytes handed to the connection are one frame; a client that reads
    them, followed by anything, gets a response with the sequence number
    [Write] returned, the command and the bytes given to [Write], and is
    left with exactly what followed. This holds for an encrypted write
    when the reader has the writer's cipher, and for a plain one when the
    bytes do not start with "3.1". *)
Theorem write_read_loopback (J : Type) (Marshal : J -> option (list byte))
        (W : Type) (WriteTo : W -> list byte -> W * bool)
        (c c' : Client W) (cmd s : Z) (encrypt : bool) (data : list byte) :
  0 <= cmd < 2 ^ 32 ->
  (if encrypt then True else detectEncryption data = false) ->
  Write J Marshal W WriteTo c cmd encrypt (Raw data) = (c', inr s) ->
  exists wire,
    WriteTo (wr c) wire = (wr c', true) /\
    forall (r : Client W) (rest : list byte),
      (encrypt = true -> cipher r = cipher c) ->
      rd r = wire ++ rest ->
      Read W r = (mkClient W rest (wr r) (cipher r) (seq r),
                  Response (mkFrame s cmd (slice_of data))).
Proof.
  intros Hcmd Hdet H.
  destruct (Write_cases J Marshal W WriteTo c cmd encrypt (Raw data))
    as [(_ & _ & E)|(Hn & [(_ & E)|(d & Hd & [(e & _ & E)|(wire & Hb & E)])])];
    rewrite E in H; try discriminate.
  injection Hd as <-.
  destruct (WriteTo (wr c) wire) as [w ok] eqn:Ew. cbn [fst snd] in H.
  destruct ok; [|discriminate]. injection H as <- <-.
  exists wire. split; [exact Ew|].
  intros r rest Hk Hr.
  assert (Hs : 0 <= uint32 (seq c + 1) < 2 ^ 32)
    by (unfold uint32; apply Z.mod_pos_bound; lia).
  match type of Hb with buffer ?f = _ =>
    rewrite (Read_buffer W r f wire rest Hs Hcmd Hb Hr) end.
  cbn [Payload Seq Cmd]. cbv zeta.
  assert (Ec : forall l, contents (slice_of l) = l).
  { intros l. unfold contents, slice_of. cbn [len backing]. apply firstn_all. }
  rewrite Ec.
  destruct encrypt.
  - destruct (cipher c) as [k|] eqn:Ek; [|exfalso; apply Hn; split; reflexivity].
    assert (Hd : detectEncryption (Encrypt k data) = true)
      by (rewrite Encrypt_eq; apply HasPrefix_app).
    rewrite Hd, (Hk eq_refl), Encrypt_envelope, Decrypt_envelope, decrypt_data_Encode;
      [reflexivity|].
    destruct (ecb_padded k data) as [-> _]. lia.
  - rewrite Hdet. reflexivity.
Qed.

Lemma write_read_loopback_witness :
  0 <= 7 < 2 ^ 32 /\
  snd (Write unit toyMarshal recorder record keyedClient 7 true (Raw (of_string "{}")))
  = inr 42 /\
  exists wire,
    record (wr keyedClient) wire
    = (wr (fst (Write unit toyMarshal recorder record keyedClient 7 true
                  (Raw (of_string "{}")))), true) /\
    forall (r : Client recorder) (rest : list byte),
      (true = true -> cipher r = cipher keyedClient) ->
      rd r = wire ++ rest ->
      Read recorder r = (mkClient recorder rest (wr r) (cipher r) (seq r),
                         Response (mkFrame 42 7 (slice_of (of_string "{}")))).
Proof.
  assert (H7 : 0 <= 7 < 2 ^ 32) by lia.
  assert (Hs : snd (Write unit toyMarshal recorder record keyedClient 7 true
                      (Raw (of_string "{}"))) = inr 42) by (vm_compute; reflexivity).
  assert (Hw : Write unit toyMarshal recorder record keyedClient 7 true (Raw (of_string "{}"))
               = (fst (Write unit toyMarshal recorder record keyedClient 7 true
                         (Raw (of_string "{}"))), inr 42)).
  { rewrite <- Hs. apply surjective_pairing. }
  split; [exact H7|]. split; [exact Hs|].
  exact (write_read_loopback unit toyMarshal recorder record keyedClient
           (fst (Write unit toyMarshal recorder record keyedClient 7 true
                   (Raw (of_string "{}"))))
           7 42 true (of_string "{}") H7 I Hw).
Defined.

(** X20. A payload that starts with "3.1" is always taken for an
    envelope. When the frame a client reads carries such a payload,
    [Read] on a client without cipher panics on the nil cipher; with a
    cipher, a payload of fewer than 43 bytes is answered with the
    too-small error of [Decrypt], so that plain text starting with "3.1"
    cannot be received. In both cases the frame has been consumed. *)
Theorem read_version_prefix (W : Type) (r : Client W) (f : Frame)
        (wire rest : list byte) :
  0 <= Seq f < 2 ^ 32 -> 0 <= Cmd f < 2 ^ 32 ->
  buffer f = inr wire -> rd r = wire ++ rest ->
  detectEncryption (contents (Payload f)) = true ->
  rd (fst (Read W r)) = rest /\
  (cipher r = None ->
   snd (Read W r) = ReadPanic "invalid memory address or nil pointer dereference") /\
  (cipher r <> None -> (List.length (contents (Payload f)) < 43)%nat ->
   snd (Read W r) = ReadError (DecryptErr ErrTooSmall)).
Proof.
  intros Hs Hc Hb Hr Hd.
  rewrite (Read_buffer W r f wire rest Hs Hc Hb Hr). cbv zeta. rewrite Hd.
  destruct (cipher r) as [k|].
  - split; [destruct (Decrypt k _); reflexivity|].
    split; [discriminate|]. intros _ Hlen.
    rewrite (Decrypt_too_small k _ Hlen). reflexivity.
  - split; [reflexivity|]. split; [reflexivity|]. intros H. contradiction.
Qed.

Lemma read_version_prefix_witness :
  let f := mkFrame 1 10 (slice_of (of_string "3.14159")) in
  let wire := match buffer f with inr w => w | inl _ => [] end in
  (0 <= Seq f < 2 ^ 32) /\ (0 <= Cmd f < 2 ^ 32) /\
  buffer f = inr wire /\
  detectEncryption (contents (Payload f)) = true /\
  snd (Read recorder (mkClient recorder wire [] None 0))
  = ReadPanic "invalid memory address or nil pointer dereference" /\
  snd (Read recorder (mkClient recorder wire [] (Some testCipher) 0))
  = ReadError (DecryptErr ErrTooSmall).
Proof.
  intros f wire.
  assert (Hs : 0 <= Seq f < 2 ^ 32) by (cbn; lia).
  assert (Hc : 0 <= Cmd f < 2 ^ 32) by (cbn; lia).
  assert (Hb : buffer f = inr wire) by (vm_compute; reflexivity).
  assert (Hd : detectEncryption (contents (Payload f)) = true) by (vm_compute; reflexivity).
  assert (Hr : forall k, rd (mkClient recorder wire [] k 0) = wire ++ [])
    by (intros k; cbn [rd]; rewrite app_nil_r; reflexivity).
  split; [exact Hs|]. split; [exact Hc|]. split; [exact Hb|]. split; [exact Hd|].
  split.
  - apply (proj1 (proj2 (read_version_prefix recorder (mkClient recorder wire [] None 0)
                           f wire [] Hs Hc Hb (Hr None) Hd))).
    reflexivity.
  - apply (proj2 (proj2 (read_version_prefix recorder
                           (mkClient recorder wire [] (Some testCipher) 0)
                           f wire [] Hs Hc Hb (Hr (Some testCipher)) Hd))).
    + discriminate.
    + vm_compute. lia.
Defined.

End ClientExtras.

Import ListNotations Bytes BytesFacts.
Open Scope Z_scope.

(** * The manager: pending requests and their channels *)

Module ManagerFacts.
Import Manager.

Lemma set_chan_length (id : nat) (c : chan) (l : list chan) :
  List.length (set_chan id c l) = List.length l.
Proof.
  revert id. induction l as [|x l IH]; intros [|id]; cbn; try reflexivity.
  rewrite IH. reflexivity.
Qed.

Lemma nth_set_chan_eq (id : nat) (c d : chan) (l : list chan) :
  (id < List.length l)%nat -> nth id (set_chan id c l) d = c.
Proof.
  revert id. induction l as [|x l IH]; intros [|id] H; cbn in *; try lia.
  - reflexivity.
  - apply IH. lia.
Qed.

Lemma nth_set_chan_neq (id k : nat) (c d : chan) (l : list chan) :
  id <> k -> nth k (set_chan id c l) d = nth k l d.
Proof.
  revert id k. induction l as [|x l IH]; intros [|id] [|k] H; cbn; try reflexivity.
  - contradiction.
  - apply IH. congruence.
Qed.

Lemma close_all_length (t : table) (l : list chan) :
  List.length (close_all t l) = List.length l.
Proof.
  unfold close_all. revert l. induction t as [|e t IH]; intros l; cbn; [reflexivity|].
  rewrite IH. apply set_chan_length.
Qed.

Lemma close_all_other (t : table) (l : list chan) (k : nat) (d : chan) :
  ~ In k (map snd t) -> nth k (close_all t l) d = nth k l d.
Proof.
  unfold close_all. revert l. induction t as [|e t IH]; intros l H; cbn; [reflexivity|].
  cbn in H. rewrite IH by tauto. apply nth_set_chan_neq. tauto.
Qed.

Lemma close_all_closed (t : table) (l : list chan) (k : nat) (d : chan) :
  (k < List.length l)%nat ->
  In k (map snd t) \/ nth k l d = Closed -> nth k (close_all t l) d = Closed.
Proof.
  unfold close_all. revert l. induction t as [|e t IH]; intros l Hk H; cbn.
  - destruct H as [[]|H]. exact H.
  - apply IH; [rewrite set_chan_length; exact Hk|].
    cbn in H. destruct (Nat.eq_dec (snd e) k) as [E|N].
    + right. rewrite E. apply nth_set_chan_eq. exact Hk.
    + destruct H as [[H|H]|H]; [contradiction | left; exact H|].
      right. rewrite nth_set_chan_neq by exact N. exact H.
Qed.

Lemma lookup_In (k : Z) (t : table) (v : nat) :
  lookup k t = Some v -> In v (map snd t).
Proof.
  induction t as [|[k' v'] t IH]; cbn; [discriminate|].
  destruct (k' =? k); [intros [= ->]; left; reflexivity | intros H; right; apply IH, H].
Qed.

Lemma lookup_delete_eq (k : Z) (t : table) : lookup k (delete k t) = None.
Proof.
  induction t as [|[k' v'] t IH]; cbn; [reflexivity|].
  destruct (k' =? k) eqn:E; [exact IH|]. cbn. rewrite E. exact IH.
Qed.

Lemma lookup_delete_neq (k s : Z) (t : table) :
  s <> k -> lookup s (delete k t) = lookup s t.
Proof.
  intros H. induction t as [|[k' v'] t IH]; cbn; [reflexivity|].
  destruct (Z.eqb_spec k' k) as [E|N].
  - subst k'. destruct (Z.eqb_spec k s); [congruence | exact IH].
  - cbn. rewrite IH. reflexivity.
Qed.

Lemma lookup_insert_eq (k : Z) (v : nat) (t : table) : lookup k (insert k v t) = Some v.
Proof. unfold insert. cbn. rewrite Z.eqb_refl. reflexivity. Qed.

Lemma lookup_insert_neq (k s : Z) (v : nat) (t : table) :
  s <> k -> lookup s (insert k v t) = lookup s t.
Proof.
  intros H. unfold insert. cbn.
  destruct (Z.eqb_spec k s); [congruence|]. apply lookup_delete_neq, H.
Qed.

Section Request.

Variable J : Type.
Variable Marshal : J -> option (list byte).
Variable W : Type.
Variable WriteTo : W -> list byte -> W * bool.

(** A request that got as far as waiting: what it registered. *)
Lemma request_send_waiting (m m1 : Manager W) (cmd : Z) (encrypt : bool)
      (req : Client.payload J) (s : Z) (ch : nat) :
  request_send J Marshal W WriteTo m cmd encrypt req = (m1, Waiting s ch) ->
  readErr W m = None /\
  snd (Client.Write J Marshal W WriteTo (client W m) cmd encrypt req) = inr s /\
  ch = List.length (chans W m) /\
  chans W m1 = chans W m ++ [Empty] /\
  responseChans W m1 = insert s ch (responseChans W m) /\
  closed W m1 = closed W m /\ readErr W m1 = readErr W m.
Proof.
  unfold request_send. destruct (readErr W m) as [e|] eqn:Er; [discriminate|].
  destruct (Client.Write J Marshal W WriteTo (client W m) cmd encrypt req) as [c [e|s']];
    [discriminate|].
  intros [= <- <- <-]. cbn. repeat split; reflexivity.
Qed.

End Request.

End ManagerFacts.

Section ManagerExtras.
Import Frame Client Manager ManagerFacts ResponseFacts CipherVectors.

(** X21. After [Close], requests fail at once. Whatever the manager's
    state, [Close] leaves it closed with an empty table of pending
    requests and an error recorded: the one that was there, [ErrClosed]
    if there was none. Every request made afterwards returns that error
    and changes nothing: it writes no frame, uses no sequence number and
    registers no channel. Closing again closes no channel again. *)
Theorem close_fails_later_requests (J : Type) (Marshal : J -> option (list byte))
        (W : Type) (WriteTo : W -> list byte -> W * bool)
        (m : Manager W) (cmd : Z) (encrypt : bool) (req : payload J) :
  let m' := Close W m in
  let e := match readErr W m with Some e => e | None => ErrClosed end in
  closed W m' = true /\ responseChans W m' = [] /\ readErr W m' = Some e /\
  request_send J Marshal W WriteTo m' cmd encrypt req = (m', Failed e) /\
  chans W (Close W m') = chans W m'.
Proof.
  intros m' e. subst m' e. unfold Close, request_send. cbn.
  destruct (readErr W m); repeat split; reflexivity.
Qed.

(** X22. [Close] closes exactly the channels of the pending requests:
    every channel that the table maps a sequence number to is closed
    afterwards, every other channel is as it was, and no channel is
    added or removed. *)
Theorem close_closes_pending (W : Type) (m : Manager W) (ch : nat) :
  (ch < List.length (chans W m))%nat ->
  List.length (chans W (Close W m)) = List.length (chans W m) /\
  (In ch (map snd (responseChans W m)) -> nth ch (chans W (Close W m)) Empty = Closed) /\
  (~ In ch (map snd (responseChans W m)) ->
   nth ch (chans W (Close W m)) Empty = nth ch (chans W m) Empty).
Proof.
  intros H. cbn [Close chans].
  split; [apply close_all_length|]. split.
  - intros Hin. apply close_all_closed; [exact H | left; exact Hin].
  - apply close_all_other.
Qed.

Lemma close_closes_pending_witness :
  (1 < List.length (chans recorder busyManager))%nat /\
  In 1%nat (map snd (responseChans recorder busyManager)) /\
  nth 1 (chans recorder (Close recorder busyManager)) Empty = Closed /\
  ~ In 1%nat (map snd (responseChans recorder (Close recorder busyManager))) /\
  nth 1 (chans recorder (Close recorder (Close recorder busyManager))) Empty = Closed.
Proof.
  assert (H1 : (1 < List.length (chans recorder busyManager))%nat) by (cbn; lia).
  assert (H2 : In 1%nat (map snd (responseChans recorder busyManager)))
    by (left; reflexivity).
  assert (H3 : (1 < List.length (chans recorder (Close recorder busyManager)))%nat)
    by (cbn; lia).
  assert (H4 : ~ In 1%nat (map snd (responseChans recorder (Close recorder busyManager))))
    by (intros []).
  split; [exact H1|]. split; [exact H2|].
  pose proof (proj1 (proj2 (close_closes_pending recorder busyManager 1 H1)) H2) as C.
  split; [exact C|]. split; [exact H4|].
  rewrite (proj2 (proj2 (close_closes_pending recorder (Close recorder busyManager) 1 H3)) H4).
  exact C.
Defined.

(** X23. A caller that is waiting when [Close] runs is woken by the
    closing of its channel, receives the zero response, whose response
    pointer and read error are both nil, and then panics in
    [Manager.request] when it calls [Err] or [DecodeJSON] on the nil
    pointer: it gets no error value. *)
Theorem close_wakes_caller_into_panic (T : Type) (Unmarshal : list byte -> option T)
        (W : Type) (m : Manager W) (s : Z) (ch : nat) (want : bool) :
  lookup s (responseChans W m) = Some ch ->
  (ch < List.length (chans W m))%nat ->
  exists resp,
    receive (nth ch (chans W (Close W m)) Empty) = Some resp /\
    Response resp = None /\ respReadErr resp = None /\
    request_finish T Unmarshal resp want
    = Panics T "invalid memory address or nil pointer dereference"%string.
Proof.
  intros Hl Hch. exists (mkResponse None None).
  cbn [Close chans].
  rewrite close_all_closed; [|exact Hch | left; exact (lookup_In s _ ch Hl)].
  repeat split; reflexivity.
Qed.

Lemma close_wakes_caller_into_panic_witness :
  lookup 41 (responseChans recorder busyManager) = Some 1%nat /\
  (1 < List.length (chans recorder busyManager))%nat /\
  exists resp,
    receive (nth 1 (chans recorder (Close recorder busyManager)) Empty) = Some resp /\
    Response resp = None /\ respReadErr resp = None /\
    request_finish unit toyUnmarshal resp true
    = Panics unit "invalid memory address or nil pointer dereference"%string.
Proof.
  assert (H1 : lookup 41 (responseChans recorder busyManager) = Some 1%nat) by reflexivity.
  assert (H2 : (1 < List.length (chans recorder busyManager))%nat) by (cbn; lia).
  split; [exact H1|]. split; [exact H2|].
  exact (close_wakes_caller_into_panic unit toyUnmarshal recorder busyManager 41 1 true H1 H2).
Defined.

(** X24. A response is delivered at most once. When the read loop of an
    open manager gets a response whose sequence number is in the table,
    it hands the response to that request's channel and to no other,
    removes that entry and no other from the table, and goes on; a
    further response with the same sequence number then matches nothing
    and is dropped without any change. *)
Theorem dispatch_delivers_once (W : Type) (m : Manager W) (f : Frame) (ch : nat) :
  closed W m = false ->
  lookup (Seq f) (responseChans W m) = Some ch ->
  (ch < List.length (chans W m))%nat ->
  let m' := fst (dispatch W m (Client.Response f)) in
  snd (dispatch W m (Client.Response f)) = Continue /\
  receive (nth ch (chans W m') Empty) = Some (mkResponse (Some f) None) /\
  (forall k, k <> ch -> nth k (chans W m') Empty = nth k (chans W m) Empty) /\
  lookup (Seq f) (responseChans W m') = None /\
  (forall s, s <> Seq f -> lookup s (responseChans W m') = lookup s (responseChans W m)) /\
  (forall f2, Seq f2 = Seq f -> dispatch W m' (Client.Response f2) = (m', Continue)).
Proof.
  intros Hc Hl Hch m'. subst m'. unfold dispatch. rewrite Hc, Hl. cbn [fst snd chans responseChans closed].
  split; [reflexivity|]. split; [rewrite nth_set_chan_eq by exact Hch; reflexivity|].
  split; [intros k Hk; apply nth_set_chan_neq; congruence|].
  split; [apply lookup_delete_eq|].
  split; [intros s Hs; apply lookup_delete_neq, Hs|].
  intros f2 E. rewrite E, lookup_delete_eq. reflexivity.
Qed.

Lemma dispatch_delivers_once_witness :
  closed recorder busyManager = false /\
  lookup (Seq (okResponse 40)) (responseChans recorder busyManager) = Some 0%nat /\
  (0 < List.length (chans recorder busyManager))%nat /\
  receive (nth 0 (chans recorder
                    (fst (dispatch recorder busyManager (Client.Response (okResponse 40)))))
               Empty)
  = Some (mkResponse (Some (okResponse 40)) None) /\
  lookup 40 (responseChans recorder
               (fst (dispatch recorder busyManager (Client.Response (okResponse 40)))))
  = None.
Proof.
  assert (H1 : closed recorder busyManager = false) by reflexivity.
  assert (H2 : lookup (Seq (okResponse 40)) (responseChans recorder busyManager) = Some 0%nat)
    by reflexivity.
  assert (H3 : (0 < List.length (chans recorder busyManager))%nat) by (cbn; lia).
  pose proof (dispatch_delivers_once recorder busyManager (okResponse 40) 0 H1 H2 H3) as D.
  cbv zeta in D. destruct D as (_ & D1 & _ & D2 & _).
  split; [exact H1|]. split; [exact H2|]. split; [exact H3|].
  split; [exact D1 | exact D2].
Defined.

(** X25. From request to result. When a request on an open manager got
    as far as waiting, its sequence number is the one [Write] returned,
    its channel is a new one and it blocks on it. When the read loop
    then gets the response with that sequence number, the caller
    receives it; if its payload is the status zero followed by a body,
    a request without result value returns nil and one with a result
    value returns what [json.Unmarshal] makes of the body. *)
Theorem request_gets_response (T : Type) (Unmarshal : list byte -> option T)
        (J : Type) (Marshal : J -> option (list byte))
        (W : Type) (WriteTo : W -> list byte -> W * bool)
        (m m1 : Manager W) (cmd : Z) (encrypt : bool) (req : payload J)
        (s : Z) (ch : nat) (f : Frame) (body : list byte) :
  closed W m = false ->
  request_send J Marshal W WriteTo m cmd encrypt req = (m1, Waiting s ch) ->
  Seq f = s ->
  contents (Payload f) = PutUint32 0 ++ body ->
  let m2 := fst (dispatch W m1 (Client.Response f)) in
  snd (Client.Write J Marshal W WriteTo (client W m) cmd encrypt req) = inr s /\
  ch = List.length (chans W m) /\
  receive (nth ch (chans W m1) Closed) = None /\
  exists resp,
    receive (nth ch (chans W m2) Closed) = Some resp /\
    request_finish T Unmarshal resp false = Done T None /\
    request_finish T Unmarshal resp true
    = match Unmarshal body with
      | Some v => Done T (Some v)
      | None => Fails T (ResponseDecode UnmarshalError)
      end.
Proof.
  intros Hc Hreq Hs Hp m2. subst m2.
  destruct (request_send_waiting J Marshal W WriteTo m m1 cmd encrypt req s ch Hreq)
    as (_ & Hw & Hch & Hchans & Htab & Hcl & _).
  split; [exact Hw|]. split; [exact Hch|].
  assert (Hnth : nth ch (chans W m1) Closed = Empty).
  { rewrite Hchans, Hch, app_nth2, Nat.sub_diag by lia. reflexivity. }
  split; [rewrite Hnth; reflexivity|].
  exists (mkResponse (Some f) None).
  unfold dispatch. rewrite Hcl, Hc, Htab, Hs, lookup_insert_eq. cbn [fst chans].
  rewrite nth_set_chan_eq by (rewrite Hchans, length_app, Hch; cbn; lia).
  split; [reflexivity|].
  unfold request_finish. cbn [respReadErr Response negb].
  unfold DecodeJSON, Bytes. rewrite Hp.
  rewrite (Err_status 0 body) by lia. cbn [Z.eqb].
  split; [reflexivity|].
  change (skipn 4 (PutUint32 0 ++ body)) with body.
  destruct (Unmarshal body); reflexivity.
Qed.

Lemma request_gets_response_witness :
  closed recorder busyManager = false /\
  snd (request_send unit toyMarshal recorder record busyManager 10 false (Object tt))
  = Waiting 42 2 /\
  exists resp,
    receive (nth 2 (chans recorder
                      (fst (dispatch recorder
                              (fst (request_send unit toyMarshal recorder record busyManager
                                      10 false (Object tt)))
                              (Client.Response (okResponse 42))))) Closed)
    = Some resp /\
    request_finish unit toyUnmarshal resp false = Done unit None /\
    request_finish unit toyUnmarshal resp true = Done unit (Some tt).
Proof.
  assert (H1 : closed recorder busyManager = false) by reflexivity.
  assert (H2 : snd (request_send unit toyMarshal recorder record busyManager 10 false
                      (Object tt)) = Waiting 42 2) by (vm_compute; reflexivity).
  assert (H3 : request_send unit toyMarshal recorder record busyManager 10 false (Object tt)
               = (fst (request_send unit toyMarshal recorder record busyManager 10 false
                         (Object tt)), Waiting 42 2)).
  { rewrite <- H2. apply surjective_pairing. }
  assert (H4 : Seq (okResponse 42) = 42) by reflexivity.
  assert (H5 : contents (Payload (okResponse 42)) = PutUint32 0 ++ of_string "{}")
    by reflexivity.
  split; [exact H1|]. split; [exact H2|].
  destruct (request_gets_response unit toyUnmarshal unit toyMarshal recorder record
              busyManager _ 10 false (Object tt) 42 2 (okResponse 42) (of_string "{}")
              H1 H3 H4 H5) as (_ & _ & _ & resp & R1 & R2 & R3).
  exists resp. split; [exact R1|]. split; [exact R2 | exact R3].
Defined.

(** X26. An encrypted request needs a key. On a manager with no error
    recorded whose client has no cipher, a request that asks for
    encryption, as [SetState] does, fails with the write error around
    [ErrNoKey] and leaves the manager and its client exactly as they
    were: nothing is sent, no sequence number is used and no channel is
    registered. *)
Theorem request_without_key (J : Type) (Marshal : J -> option (list byte))
        (W : Type) (WriteTo : W -> list byte -> W * bool)
        (m : Manager W) (cmd : Z) (req : payload J) :
  readErr W m = None ->
  cipher (client W m) = None ->
  request_send J Marshal W WriteTo m cmd true req = (m, Failed (RequestWrite ErrNoKey)).
Proof.
  intros He Hk. unfold request_send, Write. rewrite He, Hk.
  destruct m as [c n l t b e]. cbn in He |- *. rewrite He. reflexivity.
Qed.

Lemma request_without_key_witness :
  readErr recorder keylessManager = None /\
  cipher (client recorder keylessManager) = None /\
  request_send unit toyMarshal recorder record keylessManager 7 true (Object tt)
  = (keylessManager, Failed (RequestWrite ErrNoKey)).
Proof.
  assert (H1 : readErr recorder keylessManager = None) by reflexivity.
  assert (H2 : cipher (client recorder keylessManager) = None) by reflexivity.
  split; [exact H1|]. split; [exact H2|].
  exact (request_without_key unit toyMarshal recorder record keylessManager 7 (Object tt) H1 H2).
Defined.

End ManagerExtras.

Import ListNotations Bytes BytesFacts.
Open Scope Z_scope.

(** * Status broadcasts and dialing *)

Section StatusExtras.
Import Frame FrameExt FrameMore Status CipherVectors.

(** X27. [ReadStatus] on a datagram that starts with one encoded frame.
    With a payload of fewer than four bytes it returns the too-small
    error; with a payload made of a return code and a body it returns the
    nonzero-return-code error for every code but zero, and for zero what
    [json.Unmarshal] makes of the body. Bytes that follow the frame in
    the datagram are ignored, and a payload that starts with "3.1" is
    not decrypted. *)
Theorem ReadStatus_frame (T : Type) (Unmarshal : list byte -> option T)
        (f : Frame) (wire junk : list byte) :
  0 <= Seq f < 2 ^ 32 -> 0 <= Cmd f < 2 ^ 32 ->
  buffer f = inr wire ->
  ((List.length (contents (Payload f)) < 4)%nat ->
   ReadStatus T Unmarshal (wire ++ junk)
   = Err (PayloadTooSmall (Z.of_nat (List.length (contents (Payload f)))))) /\
  (forall code body, 0 <= code < 2 ^ 32 ->
     contents (Payload f) = PutUint32 code ++ body ->
     ReadStatus T Unmarshal (wire ++ junk)
     = if code =? 0
       then match Unmarshal body with
            | Some s => Status s
            | None => Err UnmarshalErr
            end
       else Err (NonzeroReturnCode code)).
Proof.
  intros Hs Hc Hb. unfold ReadStatus, DecodeFrame.
  rewrite (Decode_buffer f (mkFrame 0 0 nil_slice) wire junk Hs Hc Hb).
  cbn [Payload]. rewrite contents_filled. cbv zeta. split.
  - intros Hl.
    replace (Z.of_nat (List.length (contents (Payload f))) <? 4) with true; [reflexivity|].
    symmetry. apply Z.ltb_lt. lia.
  - intros code body Hcode ->.
    rewrite length_app, PutUint32_length.
    replace (Z.of_nat (4 + List.length body) <? 4) with false
      by (symmetry; apply Z.ltb_ge; lia).
    rewrite Uint32_PutUint32 by exact Hcode.
    destruct (code =? 0); [|reflexivity].
    change (skipn 4 (PutUint32 code ++ body)) with body. reflexivity.
Qed.

Lemma ReadStatus_frame_witness :
  let wire := match buffer (okResponse 0) with inr w => w | inl _ => [] end in
  (0 <= Seq (okResponse 0) < 2 ^ 32) /\ (0 <= Cmd (okResponse 0) < 2 ^ 32) /\
  buffer (okResponse 0) = inr wire /\
  ReadStatus unit toyUnmarshal (wire ++ of_string "junk") = Status tt.
Proof.
  intros wire.
  assert (Hs : 0 <= Seq (okResponse 0) < 2 ^ 32) by (cbn; lia).
  assert (Hc : 0 <= Cmd (okResponse 0) < 2 ^ 32) by (cbn; lia).
  assert (Hb : buffer (okResponse 0) = inr wire) by (vm_compute; reflexivity).
  split; [exact Hs|]. split; [exact Hc|]. split; [exact Hb|].
  apply (proj2 (ReadStatus_frame unit toyUnmarshal (okResponse 0) wire (of_string "junk")
                  Hs Hc Hb) 0 (of_string "{}")).
  - lia.
  - reflexivity.
Defined.

End StatusExtras.

Section DialExtras.
Import Client Dial KeyFacts ClientFacts CipherVectors.

(** X28. [Dial] checks the key before it connects. It fails with the
    cipher error exactly when the key is not empty and not of 16, 24 or
    32 bytes, whether or not the address can be reached. Otherwise it
    fails only when the connection cannot be made. The client it returns
    reads and writes that connection, has no cipher when the key is
    empty and a cipher holding the key otherwise, and starts counting at
    zero, so that the first frame it writes has sequence number 1. *)
Theorem Dial_checks_key_first (J : Type) (Marshal : J -> option (list byte))
        (W : Type) (WriteTo : W -> list byte -> W * bool)
        (net_Dial : list byte -> option (list byte * W)) (Addr Key : list byte) :
  let good := (List.length Key = 16 \/ List.length Key = 24 \/ List.length Key = 32)%nat in
  match Dial W net_Dial Addr Key with
  | inl NewCipherErr => Key <> [] /\ ~ good
  | inl DialErr => (Key = [] \/ good) /\ net_Dial Addr = None
  | inr c =>
      net_Dial Addr = Some (rd c, wr c) /\ seq c = 0 /\
      match cipher c with
      | None => Key = []
      | Some k => Key <> [] /\ good /\ Crypto.key k = Key
      end /\
      forall cmd encrypt p c' s,
        Write J Marshal W WriteTo c cmd encrypt p = (c', inr s) -> s = 1
  end.
Proof.
  intros good. subst good. unfold Dial.
  pose proof (NewCipher_cases Key) as HN.
  assert (Hw : forall c : Client W, seq c = 0 ->
            forall cmd encrypt p c' s,
              Write J Marshal W WriteTo c cmd encrypt p = (c', inr s) -> s = 1).
  { intros c H0 cmd encrypt p c' s H.
    destruct (Write_seq J Marshal W WriteTo c c' cmd encrypt p (inr s) H) as [_ Hs].
    destruct (Hs s eq_refl) as [-> _]. rewrite H0. reflexivity. }
  destruct Key as [|b Key'] eqn:EK.
  - destruct (net_Dial Addr) as [[r w]|].
    + cbn [rd wr seq cipher].
      split; [reflexivity|]. split; [reflexivity|]. split; [reflexivity|].
      apply Hw. reflexivity.
    + split; [left; reflexivity | reflexivity].
  - destruct (Crypto.NewCipher (b :: Key')) as [k|].
    + destruct HN as (Hg & Hk & _).
      destruct (net_Dial Addr) as [[r w]|].
      * cbn [rd wr seq cipher].
        split; [reflexivity|]. split; [reflexivity|].
        split; [split; [discriminate | split; [exact Hg | exact Hk]]|].
        apply Hw. reflexivity.
      * split; [right; exact Hg | reflexivity].
    + split; [discriminate|]. intros [H|[H|H]]; destruct HN as (N1 & N2 & N3); contradiction.
Qed.

Lemma Dial_checks_key_first_witness :
  Dial recorder (fun _ => None) [] (of_string "short") = inl NewCipherErr /\
  of_string "short" <> [] /\
  ~ (List.length (of_string "short") = 16 \/ List.length (of_string "short") = 24 \/
     List.length (of_string "short") = 32)%nat.
Proof.
  pose proof (Dial_checks_key_first unit toyMarshal recorder record (fun _ => None) []
                (of_string "short")) as D.
  cbv zeta in D.
  change (Dial recorder (fun _ => None) [] (of_string "short")) with
    (@inl Error (Client recorder) NewCipherErr) in D.
  cbv beta iota in D.
  split; [reflexivity | exact D].
Defined.

End DialExtras.

(** * Frame decoding: a length field that is too large *)

Section FrameOversize.
Import Frame FrameFacts TestVectors.

(** X29. The size limit of [Decode]. For a header with the right prefix
    whose length field is below 2^31, where [payloadSize] is the same
    whatever the width of [int], and makes [payloadSize = length - 8]
    greater than [MaxPayloadSize]: when the buffer the frame holds has a
    smaller capacity than [payloadSize], [Decode] returns the
    payload-too-large error carrying [payloadSize] and the maximum; the
    frame keeps its payload buffer but has already taken the sequence and
    command numbers of the header, and the bytes after the header stay
    unread. [DecodeFrame], whose frame has capacity 0, returns that error
    for every such header. *)
Theorem decode_oversize_error (f0 : Frame) (hb rest : list byte) :
  List.length hb = 16%nat ->
  Prefix (parse_header hb) = prefixValue ->
  Length (parse_header hb) < 2 ^ 31 ->
  let payloadSize := Length (parse_header hb) - trailerSize in
  payloadSize > MaxPayloadSize ->
  (cap (Payload f0) < payloadSize ->
   Decode f0 (hb ++ rest)
   = (Err (PayloadTooLarge payloadSize MaxPayloadSize),
      mkFrame (hSeq (parse_header hb)) (hCmd (parse_header hb)) (Payload f0), rest)) /\
  DecodeFrame (hb ++ rest)
  = (Err (PayloadTooLarge payloadSize MaxPayloadSize),
     mkFrame (hSeq (parse_header hb)) (hCmd (parse_header hb)) nil_slice, rest).
Proof.
  intros Hlen Hpre _ payloadSize Hbig.
  assert (H : forall g, cap (Payload g) < payloadSize ->
            Decode g (hb ++ rest)
            = (Err (PayloadTooLarge payloadSize MaxPayloadSize),
               mkFrame (hSeq (parse_header hb)) (hCmd (parse_header hb)) (Payload g), rest)).
  { intros g Hcap. unfold Decode.
    change (Z.to_nat headerSize) with 16%nat. rewrite <- Hlen, ReadFull_app.
    cbv beta iota zeta. rewrite Hpre, Z.eqb_refl. cbn [negb Payload Seq Cmd].
    fold payloadSize. unfold payload_buffer.
    destruct (Z.ltb_spec (cap (Payload g)) payloadSize); [|lia].
    destruct (Z.gtb_spec payloadSize MaxPayloadSize); [|lia].
    reflexivity. }
  split; [apply H|].
  unfold DecodeFrame. rewrite H; [reflexivity|].
  change (cap (Payload (mkFrame 0 0 nil_slice))) with 0.
  unfold MaxPayloadSize, maxPacketSize, trailerSize in Hbig. lia.
Qed.

Lemma decode_oversize_error_witness :
  List.length (header_with_length 0x10008) = 16%nat /\
  Prefix (parse_header (header_with_length 0x10008)) = prefixValue /\
  Length (parse_header (header_with_length 0x10008)) < 2 ^ 31 /\
  Length (parse_header (header_with_length 0x10008)) - trailerSize > MaxPayloadSize /\
  cap (Payload testFrame) < Length (parse_header (header_with_length 0x10008)) - trailerSize /\
  Decode testFrame (header_with_length 0x10008 ++ sampleWire)
  = (Err (PayloadTooLarge 0x10000 0xfff7), mkFrame 1 10 (Payload testFrame), sampleWire) /\
  DecodeFrame (header_with_length 0x10008 ++ sampleWire)
  = (Err (PayloadTooLarge 0x10000 0xfff7), mkFrame 1 10 nil_slice, sampleWire).
Proof.
  assert (H1 : List.length (header_with_length 0x10008) = 16%nat) by reflexivity.
  assert (H2 : Prefix (parse_header (header_with_length 0x10008)) = prefixValue)
    by (vm_compute; reflexivity).
  assert (H3 : Length (parse_header (header_with_length 0x10008)) < 2 ^ 31)
    by (vm_compute; reflexivity).
  assert (H4 : Length (parse_header (header_with_length 0x10008)) - trailerSize
               > MaxPayloadSize) by (vm_compute; reflexivity).
  assert (H5 : cap (Payload testFrame)
               < Length (parse_header (header_with_length 0x10008)) - trailerSize)
    by (vm_compute; reflexivity).
  split; [exact H1|]. split; [exact H2|]. split; [exact H3|]. split; [exact H4|].
  split; [exact H5|].
  destruct (decode_oversize_error testFrame (header_with_length 0x10008) sampleWire
              H1 H2 H3 H4) as [Ha Hb].
  split; [exact (Ha H5) | exact Hb].
Defined.

End FrameOversize.

(** * The machine-integer MD5 computes the same digest *)

Module MD5FastFacts.
Import MD5Fast.

Local Abbreviation phi := Uint63.to_Z.

Lemma land_mask (z : Z) : Z.land (z mod Uint63.wB) MD5.mask32 = Z.land z MD5.mask32.
Proof.
  change MD5.mask32 with (Z.ones 32). rewrite !Z.land_ones by lia.
  change Uint63.wB with (2 ^ 31 * 2 ^ 32).
  rewrite Z.mul_comm, Z.rem_mul_r by lia.
  rewrite Z.mul_comm, Z.mod_add by lia. apply Z.mod_mod. lia.
Qed.

Lemma phi_mask : phi mask32 = MD5.mask32.
Proof. reflexivity. Qed.

Lemma add32_spec (a b : word) : phi (add32 a b) = MD5.add32 (phi a) (phi b).
Proof.
  unfold add32, MD5.add32.
  rewrite Uint63.land_spec', Uint63.add_spec, phi_mask. apply land_mask.
Qed.

Lemma not32_spec (a : word) : phi (not32 a) = Bytes.not32 (phi a).
Proof. unfold not32, Bytes.not32. rewrite Uint63.lxor_spec'. reflexivity. Qed.

Lemma rotl32_spec (x s : word) :
  0 <= phi s <= 32 -> phi (rotl32 x s) = MD5.rotl32 (phi x) (phi s).
Proof.
  intros Hs. unfold rotl32, MD5.rotl32.
  rewrite Uint63.lor_spec', Uint63.land_spec', Uint63.lsl_spec, Uint63.lsr_spec, phi_mask.
  rewrite land_mask, Uint63.sub_spec.
  change (phi w32) with 32.
  rewrite (Z.mod_small (32 - phi s)) by (change Uint63.wB with (2 ^ 63); lia).
  rewrite Z.shiftl_mul_pow2, Z.shiftr_div_pow2 by lia. reflexivity.
Qed.

Lemma of_byte_spec (b : byte) : phi (of_byte b) = b2z b.
Proof.
  unfold of_byte. rewrite Uint63.of_Z_spec.
  pose proof (b2z_range b). apply Z.mod_small. change Uint63.wB with (2 ^ 63). lia.
Qed.

Lemma lsl_byte (b : byte) (n : word) :
  0 <= phi n <= 24 ->
  phi (PrimInt63.lsl (of_byte b) n) = Z.shiftl (b2z b) (phi n).
Proof.
  intros Hn. rewrite Uint63.lsl_spec, of_byte_spec, Z.shiftl_mul_pow2 by lia.
  pose proof (b2z_range b) as Hb.
  apply Z.mod_small. change Uint63.wB with (2 ^ 63).
  assert (2 ^ phi n <= 2 ^ 24) by (apply Z.pow_le_mono_r; lia).
  assert (0 < 2 ^ phi n) by (apply Z.pow_pos_nonneg; lia).
  nia.
Qed.

Lemma le32_spec (b : list byte) : phi (le32 b) = MD5.le32 b.
Proof.
  unfold le32, MD5.le32.
  rewrite !Uint63.lor_spec', of_byte_spec.
  rewrite !lsl_byte by (cbn; lia). reflexivity.
Qed.

Lemma words_spec (n : nat) (b : list byte) : map phi (words n b) = MD5.words n b.
Proof.
  revert b. induction n as [|n IH]; intros b; cbn [words MD5.words map]; [reflexivity|].
  rewrite le32_spec, IH. reflexivity.
Qed.


Lemma step_spec (MF : list word) (M : list Z) (d : digest) (e : MD5.digest)
      (t : nat * nat * word * word) (u : nat * nat * Z * Z) :
  map phi MF = M -> same d e -> same_step t u ->
  same (step MF d t) (MD5.step M e u).
Proof.
  intros HM (Ha & Hb & Hc & Hd) Ht.
  destruct d as [a b c d], e as [a' b' c' d'].
  destruct t as [[[r g] k] s], u as [[[r' g'] k'] s'].
  unfold same_step in Ht. cbn [fst snd] in Ht. destruct Ht as (Hr & Hg & Hk & Hs & Hrange).
  cbn [dA dB dC dD MD5.dA MD5.dB MD5.dC MD5.dD] in Ha, Hb, Hc, Hd.
  subst r' g' a' b' c' d' k' s' M.
  assert (Hn : phi (nth g MF w0) = nth g (map phi MF) 0).
  { change 0 with (phi w0) at 1. symmetry. apply map_nth. }
  unfold step, MD5.step, same. cbn [dA dB dC dD MD5.dA MD5.dB MD5.dC MD5.dD].
  split; [reflexivity|]. split; [|split; reflexivity].
  rewrite add32_spec, rotl32_spec by exact Hrange.
  rewrite !add32_spec, Hn.
  destruct r as [|[|[|r]]];
    repeat (rewrite Uint63.lor_spec' || rewrite Uint63.land_spec'
            || rewrite Uint63.lxor_spec' || rewrite not32_spec);
    reflexivity.
Qed.

Lemma fold_step_spec (MF : list word) (M : list Z)
      (ts : list (nat * nat * word * word)) (us : list (nat * nat * Z * Z)) :
  map phi MF = M -> Forall2 same_step ts us ->
  forall d e, same d e ->
  same (fold_left (step MF) ts d) (fold_left (MD5.step M) us e).
Proof.
  intros HM H. induction H as [|t u ts us Ht _ IH]; intros d e Hd; cbn [fold_left].
  - exact Hd.
  - apply IH. apply step_spec; assumption.
Qed.

Lemma schedule_spec : Forall2 same_step schedule MD5.schedule.
Proof.
  unfold schedule, MD5.schedule.
  repeat (constructor; [unfold same_step; cbn [fst snd];
                        split; [reflexivity|]; split; [reflexivity|];
                        split; [reflexivity|]; split; [reflexivity|]; lia|]).
  constructor.
Qed.

Lemma block_spec (d : digest) (e : MD5.digest) (b : list byte) :
  same d e -> same (block d b) (MD5.block e b).
Proof.
  intros Hd. unfold block, MD5.block. cbv zeta.
  pose proof (fold_step_spec (words 16 b) (MD5.words 16 b) schedule MD5.schedule
                (words_spec 16 b) schedule_spec d e Hd) as (Ha & Hb & Hc & Hdd).
  destruct Hd as (Ha0 & Hb0 & Hc0 & Hd0).
  unfold same. cbn [dA dB dC dD MD5.dA MD5.dB MD5.dC MD5.dD].
  rewrite !add32_spec, Ha, Hb, Hc, Hdd, Ha0, Hb0, Hc0, Hd0.
  split; [reflexivity|]. split; [reflexivity|]. split; reflexivity.
Qed.

Lemma blocks_spec (n : nat) :
  forall d e b, same d e -> same (blocks n d b) (MD5.blocks n e b).
Proof.
  induction n as [|n IH]; intros d e b Hd; cbn [blocks MD5.blocks].
  - exact Hd.
  - apply IH, block_spec, Hd.
Qed.

Lemma init_spec : same init MD5.init.
Proof. unfold same. split; [reflexivity|]. split; [reflexivity|]. split; reflexivity. Qed.

(** The digest computed on machine integers is the digest. *)
Lemma Sum_spec (data : list byte) : Sum data = MD5.Sum data.
Proof.
  unfold Sum, MD5.Sum. cbv zeta.
  destruct (blocks_spec (List.length (data ++ MD5.pad (Z.of_nat (List.length data))) / 64)
              init MD5.init (data ++ MD5.pad (Z.of_nat (List.length data))) init_spec)
    as (Ha & Hb & Hc & Hd).
  rewrite Ha, Hb, Hc, Hd. reflexivity.
Qed.

Lemma macTag_spec (key data : list byte) : macTag key data = Crypto.macTag key data.
Proof. unfold macTag, Crypto.macTag. cbv zeta. rewrite Sum_spec. reflexivity. Qed.

End MD5FastFacts.

(** * The published envelope: one changed byte is detected *)

Module TamperFacts.
Import Crypto CipherVectors Tamper CryptoFacts DecryptFacts MD5FastFacts.

Lemma envelope_split : testCiphertext = version ++ tag ++ data.
Proof. reflexivity. Qed.

Lemma tag_length : List.length tag = 16%nat.
Proof. reflexivity. Qed.

Lemma data_length : List.length data = 108%nat.
Proof. reflexivity. Qed.

(** The published tag is the tag of the published base64 part. *)
Lemma tag_published : macTag testKey data = tag.
Proof. rewrite <- MD5FastFacts.macTag_spec. vm_compute. reflexivity. Qed.

Lemma position_detected_eq (i : nat) :
  position_detected i = forallb (detected i) all_bytes.
Proof. reflexivity. Qed.

(** Every position of the base64 part, every value: evaluated. *)
Lemma all_detected : forallb position_detected (seq 0 (List.length data)) = true.
Proof. vm_compute. reflexivity. Qed.

(** Changing one byte of the base64 part changes the tag. *)
Lemma data_tamper (j : nat) (v : byte) :
  (j < List.length data)%nat -> v <> nth j data Byte.x00 ->
  bytes_eqb tag (macTag testKey (set_nth j v data)) = false.
Proof.
  intros Hj Hv.
  assert (Hin : In j (seq 0 (List.length data))) by (apply in_seq; lia).
  pose proof (proj1 (forallb_forall position_detected (seq 0 (List.length data)))
                all_detected j Hin) as Hp.
  rewrite position_detected_eq in Hp.
  pose proof (proj1 (forallb_forall (detected j) all_bytes) Hp v (In_all_bytes v)) as Hb.
  unfold detected in Hb. rewrite MD5FastFacts.macTag_spec in Hb.
  destruct (beqb v (nth j data Byte.x00)) eqn:E.
  - apply beqb_eq in E. contradiction.
  - cbn [orb] in Hb. apply negb_true_iff in Hb. exact Hb.
Qed.

End TamperFacts.

Section VectorClaims.
Import Crypto CipherVectors Tamper TamperFacts CryptoFacts CryptoMore DecryptFacts.

(** C3. The published vector. [NewCipher] accepts the key
    "bbe88b3f4106d354"; with it, [Encrypt] of the published plaintext is
    exactly the published envelope, which begins
    "3.133ed3d4a21effe90zrA8OK", and [Decrypt] of that envelope is the
    plaintext. Replacing byte 10 of the envelope, or any one byte of its
    base64 part (bytes 19 to 126), by any other value makes [Decrypt]
    return [ErrTagVerification], and so neither a padding nor a base64
    error. *)
Theorem published_vector_tamper (i : nat) (v : byte) :
  (i = 10 \/ 19 <= i < List.length testCiphertext)%nat ->
  v <> nth i testCiphertext Byte.x00 ->
  NewCipher testKey = Some testCipher /\
  HasPrefix testCiphertext (of_string "3.133ed3d4a21effe90zrA8OK") = true /\
  Encrypt testCipher testPlaintext = testCiphertext /\
  Decrypt testCipher testCiphertext = Ok testPlaintext /\
  Decrypt testCipher (set_nth i v testCiphertext) = Err ErrTagVerification.
Proof.
  intros Hi Hv.
  assert (HE : Encrypt testCipher testPlaintext = testCiphertext)
    by (vm_compute; reflexivity).
  split; [reflexivity|]. split; [reflexivity|]. split; [exact HE|].
  split.
  { rewrite <- HE, Encrypt_envelope, Decrypt_envelope.
    - apply decrypt_data_Encode.
    - destruct (ecb_padded testCipher testPlaintext) as [-> _]. lia. }
  rewrite envelope_split in Hv |- *.
  pose proof tag_length as Ht. pose proof data_length as Hd.
  change (List.length testCiphertext) with 127%nat in Hi.
  destruct Hi as [->|Hi].
  - rewrite set_nth_app_r by (change (List.length version) with 3%nat; lia).
    change (List.length version) with 3%nat.
    rewrite set_nth_app_l by lia.
    rewrite app_nth2, app_nth1 in Hv by (change (List.length version) with 3%nat; lia).
    change (List.length version) with 3%nat in Hv.
    rewrite Decrypt_layout by (rewrite ?set_nth_length; lia).
    change (key testCipher) with testKey. rewrite tag_published.
    rewrite bytes_eqb_neq; [reflexivity|].
    apply set_nth_changes; [lia | exact Hv].
  - rewrite set_nth_app_r by (change (List.length version) with 3%nat; lia).
    change (List.length version) with 3%nat.
    rewrite set_nth_app_r by lia. rewrite Ht.
    rewrite app_nth2 in Hv by (change (List.length version) with 3%nat; lia).
    change (List.length version) with 3%nat in Hv.
    rewrite app_nth2 in Hv by lia. rewrite Ht in Hv.
    replace (i - 3 - 16)%nat with (i - 19)%nat in * by lia.
    rewrite Decrypt_layout by (rewrite ?set_nth_length; lia).
    change (key testCipher) with testKey.
    rewrite data_tamper; [reflexivity | lia | exact Hv].
Qed.

Lemma published_vector_tamper_witness :
  Byte.x66 <> nth 10 testCiphertext Byte.x00 /\
  Byte.x41 <> nth 30 testCiphertext Byte.x00 /\
  Encrypt testCipher testPlaintext = testCiphertext /\
  Decrypt testCipher testCiphertext = Ok testPlaintext /\
  Decrypt testCipher (set_nth 10 Byte.x66 testCiphertext) = Err ErrTagVerification /\
  Decrypt testCipher (set_nth 30 Byte.x41 testCiphertext) = Err ErrTagVerification.
Proof.
  assert (H10 : Byte.x66 <> nth 10 testCiphertext Byte.x00) by (vm_compute; discriminate).
  assert (H30 : Byte.x41 <> nth 30 testCiphertext Byte.x00) by (vm_compute; discriminate).
  assert (R30 : (30 = 10 \/ 19 <= 30 < List.length testCiphertext)%nat)
    by (right; change (List.length testCiphertext) with 127%nat; lia).
  destruct (published_vector_tamper 10 Byte.x66 (or_introl eq_refl) H10)
    as (_ & _ & A & B & C).
  destruct (published_vector_tamper 30 Byte.x41 R30 H30) as (_ & _ & _ & _ & D).
  split; [exact H10|]. split; [exact H30|]. split; [exact A|]. split; [exact B|].
  split; [exact C | exact D].
Defined.

End VectorClaims.

Import ListNotations Bytes BytesFacts.
Open Scope Z_scope.

(** * The claims about the cipher *)

Section CipherClaims.
Import Crypto ListFacts AESFacts Base64Facts CryptoFacts CryptoMore PaddingFacts KeyFacts.
Import DecryptFacts CipherVectors.

(** C2. Cipher round trip: for every key that [NewCipher] accepts and
    every plaintext, the empty one included, [Decrypt] of what [Encrypt]
    returns is the plaintext, with no error. *)
Theorem encrypt_decrypt_roundtrip (k : list byte) (c : Cipher) (p : list byte) :
  NewCipher k = Some c ->
  Decrypt c (Encrypt c p) = Ok p.
Proof.
  intros _. rewrite Encrypt_envelope, Decrypt_envelope.
  - apply decrypt_data_Encode.
  - destruct (ecb_padded c p) as [-> _]. lia.
Qed.

Lemma encrypt_decrypt_roundtrip_witness :
  NewCipher testKey = Some testCipher /\
  Decrypt testCipher (Encrypt testCipher []) = Ok [] /\
  Decrypt testCipher (Encrypt testCipher testPlaintext) = Ok testPlaintext.
Proof.
  assert (H : NewCipher testKey = Some testCipher) by reflexivity.
  split; [exact H|]. split.
  - exact (encrypt_decrypt_roundtrip testKey testCipher [] H).
  - exact (encrypt_decrypt_roundtrip testKey testCipher testPlaintext H).
Defined.

(** C10. Envelope self-detection: for every key that [NewCipher]
    accepts and every plaintext, what [Encrypt] returns begins with the
    version "3.1", so that [detectEncryption] returns true on it, and is
    at least as long as the size below which [Decrypt] answers
    [ErrTooSmall]; [Decrypt] does not answer it with that error. *)
Theorem envelope_self_detecting (k : list byte) (c : Cipher) (p : list byte) :
  NewCipher k = Some c ->
  firstn 3 (Encrypt c p) = of_string "3.1" /\
  detectEncryption (Encrypt c p) = true /\
  Z.of_nat (List.length version) + tagSize + Base64.EncodedLen AES.BlockSize
  <= Z.of_nat (List.length (Encrypt c p)) /\
  Decrypt c (Encrypt c p) <> Err ErrTooSmall.
Proof.
  intros _.
  split; [reflexivity|].
  split; [rewrite Encrypt_eq; apply HasPrefix_app|].
  split.
  - pose proof (Encrypt_min_length c p) as H.
    change (Z.of_nat (List.length version) + tagSize + Base64.EncodedLen AES.BlockSize)
      with 43. exact H.
  - rewrite Encrypt_envelope, Decrypt_envelope.
    + rewrite decrypt_data_Encode. discriminate.
    + destruct (ecb_padded c p) as [-> _]. lia.
Qed.

Lemma envelope_self_detecting_witness :
  NewCipher testKey = Some testCipher /\
  firstn 3 (Encrypt testCipher testPlaintext) = of_string "3.1" /\
  detectEncryption (Encrypt testCipher testPlaintext) = true /\
  Z.of_nat (List.length version) + tagSize + Base64.EncodedLen AES.BlockSize
  <= Z.of_nat (List.length (Encrypt testCipher testPlaintext)) /\
  Decrypt testCipher (Encrypt testCipher testPlaintext) <> Err ErrTooSmall.
Proof.
  assert (H : NewCipher testKey = Some testCipher) by reflexivity.
  split; [exact H|].
  exact (envelope_self_detecting testKey testCipher testPlaintext H).
Defined.

End CipherClaims.

(** * The claims about responses *)

Section ResponseClaims.
Import Client ResponseFacts CipherVectors.

(** C7. Status decoding: for every payload made of four zero bytes and
    a body, [Response.Err] returns nil, and [DecodeJSON] returns the
    value [json.Unmarshal] decodes the body into; for the payload
    00 00 00 01 followed by "boom", [Response.Err] returns the
    [ResponseError] with code 1 and message "boom". *)
Theorem status_decoding (T : Type) (Unmarshal : list byte -> option T)
        (body : list byte) (v : T) :
  Unmarshal body = Some v ->
  Err ([Byte.x00; Byte.x00; Byte.x00; Byte.x00] ++ body) = None /\
  DecodeJSON T Unmarshal ([Byte.x00; Byte.x00; Byte.x00; Byte.x00] ++ body) = inr v /\
  Err ([Byte.x00; Byte.x00; Byte.x00; Byte.x01] ++ of_string "boom")
  = Some (ResponseError 1 (of_string "boom")).
Proof.
  intros Hv.
  assert (E : Err ([Byte.x00; Byte.x00; Byte.x00; Byte.x00] ++ body) = None).
  { change [Byte.x00; Byte.x00; Byte.x00; Byte.x00] with (PutUint32 0).
    rewrite Err_status by lia. reflexivity. }
  split; [exact E|]. split; [|reflexivity].
  unfold DecodeJSON, Bytes. rewrite E.
  change (skipn 4 ([Byte.x00; Byte.x00; Byte.x00; Byte.x00] ++ body)) with body.
  rewrite Hv. reflexivity.
Qed.

Lemma status_decoding_witness :
  toyUnmarshal (of_string "{}") = Some tt /\
  Err ([Byte.x00; Byte.x00; Byte.x00; Byte.x00] ++ of_string "{}") = None /\
  DecodeJSON unit toyUnmarshal ([Byte.x00; Byte.x00; Byte.x00; Byte.x00] ++ of_string "{}")
  = inr tt /\
  Err ([Byte.x00; Byte.x00; Byte.x00; Byte.x01] ++ of_string "boom")
  = Some (ResponseError 1 (of_string "boom")).
Proof.
  assert (H : toyUnmarshal (of_string "{}") = Some tt) by reflexivity.
  split; [exact H|].
  exact (status_decoding unit toyUnmarshal (of_string "{}") tt H).
Defined.

(** C9. Short payloads: for every payload of fewer than four bytes,
    [Response.Err] returns the short-payload error, which carries the
    length and is not a [ResponseError], and [Response.Bytes] and
    [Response.DecodeJSON] return that same error, whatever the bytes
    are and whatever [json.Unmarshal] would do. *)
Theorem short_payload_error (T : Type) (Unmarshal : list byte -> option T)
        (payload : list byte) :
  (List.length payload < 4)%nat ->
  let e := PayloadTooShort (Z.of_nat (List.length payload)) in
  Err payload = Some e /\
  (forall code msg, Err payload <> Some (ResponseError code msg)) /\
  Bytes payload = inl e /\
  DecodeJSON T Unmarshal payload = inl e.
Proof.
  intros H e. pose proof (Err_short payload H) as E. fold e in E.
  split; [exact E|].
  split; [intros code msg; rewrite E; discriminate|].
  unfold DecodeJSON, Bytes. rewrite E. split; reflexivity.
Qed.

Lemma short_payload_error_witness :
  (List.length (of_string "{}") < 4)%nat /\
  Err (of_string "{}") = Some (PayloadTooShort 2) /\
  Bytes (of_string "{}") = inl (PayloadTooShort 2) /\
  DecodeJSON unit toyUnmarshal (of_string "{}") = inl (PayloadTooShort 2) /\
  Err [] = Some (PayloadTooShort 0).
Proof.
  assert (H2 : (List.length (of_string "{}") < 4)%nat) by (cbn; lia).
  assert (H0 : (@List.length byte [] < 4)%nat) by (cbn; lia).
  destruct (short_payload_error unit toyUnmarshal (of_string "{}") H2) as (A & _ & B & C).
  destruct (short_payload_error unit toyUnmarshal [] H0) as (D & _).
  split; [exact H2|]. split; [exact A|]. split; [exact B|]. split; [exact C | exact D].
Defined.

End ResponseClaims.

(** * The claim about sequence numbers *)

Module SequenceFacts.
Import Client ClientFacts.

Section SequenceFacts.

Variable J : Type.
Variable Marshal : J -> option (list byte).
Variable W : Type.
Variable WriteTo : W -> list byte -> W * bool.

Local Abbreviation Writes := (Writes J Marshal W WriteTo).

Lemma Writes_cons (c : Client W) (call : Z * bool * payload J)
      (calls : list (Z * bool * payload J)) :
  Writes c (call :: calls)
  = (fst (Writes (fst (Write J Marshal W WriteTo c (fst (fst call)) (snd (fst call)) (snd call)))
                 calls),
     snd (Write J Marshal W WriteTo c (fst (fst call)) (snd (fst call)) (snd call))
     :: snd (Writes (fst (Write J Marshal W WriteTo c (fst (fst call)) (snd (fst call))
                            (snd call))) calls)).
Proof.
  destruct call as [[cmd encrypt] p]. cbn [Client.Writes fst snd].
  destruct (Write J Marshal W WriteTo c cmd encrypt p) as [c1 r].
  cbn [fst snd]. destruct (Writes c1 calls) as [c2 rs]. reflexivity.
Qed.

(** A call that succeeds returns one more than the counter the calls
    before it left behind. *)
Lemma Writes_counter (calls : list (Z * bool * payload J)) :
  forall (c : Client W) (i : nat) (s : Z),
  0 <= seq c -> seq c + Z.of_nat (List.length calls) < 2 ^ 32 ->
  nth_error (snd (Writes c calls)) i = Some (inr s) ->
  s = seq (fst (Writes c (firstn i calls))) + 1.
Proof.
  induction calls as [|call calls IH]; intros c i s H0 Hb H.
  - destruct i; discriminate.
  - rewrite Writes_cons in H. cbn [snd] in H.
    cbn [List.length] in Hb. rewrite Nat2Z.inj_succ in Hb.
    destruct call as [[cmd encrypt] p]. cbn [fst snd] in H.
    destruct (Write J Marshal W WriteTo c cmd encrypt p) as [c1 r] eqn:E1.
    destruct (Write_seq J Marshal W WriteTo c c1 cmd encrypt p r E1) as (Hstep & Hret).
    assert (U : uint32 (seq c + 1) = seq c + 1) by (unfold uint32; apply Z.mod_small; lia).
    rewrite U in Hstep, Hret. cbn [fst snd] in H.
    destruct i as [|i]; cbn [nth_error firstn] in H |- *.
    + injection H as ->. destruct (Hret s eq_refl) as [-> _]. reflexivity.
    + rewrite Writes_cons. cbn [fst snd]. rewrite E1. cbn [fst].
      apply IH; [lia | lia | exact H].
Qed.

End SequenceFacts.

End SequenceFacts.

Section SequenceClaims.
Import Frame Client ClientFacts SequenceFacts CipherVectors.

(** C8 as stated fails: the counter is a [uint32]. On a client whose
    counter stands at 0xfffffffe, two calls of [Write] one after the
    other succeed and return 0xffffffff and then 0, which is not
    greater. *)
Lemma write_sequence_wraps :
  snd (Writes unit toyMarshal recorder record
         (mkClient recorder [] [] None 0xfffffffe)
         [(10, false, Object tt); (10, false, Object tt)])
  = [inr 0xffffffff; inr 0] /\
  ~ 0xffffffff < 0.
Proof. split; [vm_compute; reflexivity | lia]. Qed.

(** C8, as the code has it. When calls of [Write] are made one after
    the other on one client and the counter cannot pass 0xffffffff during
    them, every call that succeeds returns exactly one more than the
    counter left by the calls before it, which is the number assigned
    last; the numbers returned by the calls that succeed are strictly
    increasing in the order of the calls, and so no two of them are
    equal. *)
Theorem write_sequence_numbers (J : Type) (Marshal : J -> option (list byte))
        (W : Type) (WriteTo : W -> list byte -> W * bool)
        (c : Client W) (calls : list (Z * bool * payload J)) :
  0 <= seq c -> seq c + Z.of_nat (List.length calls) < 2 ^ 32 ->
  let rs := snd (Writes J Marshal W WriteTo c calls) in
  (forall i s, nth_error rs i = Some (inr s) ->
     s = seq (fst (Writes J Marshal W WriteTo c (firstn i calls))) + 1) /\
  (forall i j si sj, (i < j)%nat ->
     nth_error rs i = Some (inr si) -> nth_error rs j = Some (inr sj) -> si < sj) /\
  (forall i j si sj, i <> j ->
     nth_error rs i = Some (inr si) -> nth_error rs j = Some (inr sj) -> si <> sj).
Proof.
  intros H0 Hb rs.
  assert (Hinc : forall i j si sj, (i < j)%nat ->
            nth_error rs i = Some (inr si) -> nth_error rs j = Some (inr sj) -> si < sj).
  { apply (Writes_seq J Marshal W WriteTo calls c
             (fst (Writes J Marshal W WriteTo c calls)) rs H0 Hb).
    subst rs. destruct (Writes J Marshal W WriteTo c calls); reflexivity. }
  split; [intros i s; apply Writes_counter; assumption|].
  split; [exact Hinc|].
  intros i j si sj Hij Hi Hj.
  destruct (Nat.lt_total i j) as [L|[E|L]]; [|contradiction|].
  - pose proof (Hinc i j si sj L Hi Hj). lia.
  - pose proof (Hinc j i sj si L Hj Hi). lia.
Qed.

Lemma write_sequence_numbers_witness :
  let calls := [(7, true, Raw (of_string "{}")); (10, false, Object tt);
                (10, false, Raw testPlaintext); (7, true, Object tt)] in
  0 <= seq keyedClient /\
  seq keyedClient + Z.of_nat (List.length calls) < 2 ^ 32 /\
  snd (Writes unit toyMarshal recorder record keyedClient calls)
  = [inr 42; inr 43; inl FrameWriteTo; inr 45] /\
  (forall i j si sj, (i < j)%nat ->
     nth_error (snd (Writes unit toyMarshal recorder record keyedClient calls)) i
     = Some (inr si) ->
     nth_error (snd (Writes unit toyMarshal recorder record keyedClient calls)) j
     = Some (inr sj) -> si < sj).
Proof.
  intros calls.
  assert (H0 : 0 <= seq keyedClient) by (cbn; lia).
  assert (Hb : seq keyedClient + Z.of_nat (List.length calls) < 2 ^ 32) by (cbn; lia).
  split; [exact H0|]. split; [exact Hb|]. split; [vm_compute; reflexivity|].
  exact (proj1 (proj2
    (write_sequence_numbers unit toyMarshal recorder record keyedClient calls H0 Hb))).
Defined.

End SequenceClaims.

(** * The claim about closing the manager *)

Section ManagerClaims.
Import Frame Client Manager ManagerFacts CipherVectors.

(** C6. The code breaks the claim for the callers that are waiting.
    On a manager with two requests pending, numbers 40 and 41 waiting on
    channels 0 and 1, [Close] closes both channels; each caller then
    receives the zero response, with a nil response pointer and a nil
    read error, and [Manager.request] goes on to call [Err] or
    [DecodeJSON] on the nil pointer: the caller panics where the claim
    promises it an error. *)
Lemma close_panics_pending_callers :
  lookup 40 (responseChans recorder busyManager) = Some 0%nat /\
  lookup 41 (responseChans recorder busyManager) = Some 1%nat /\
  nth 0 (chans recorder busyManager) Closed = Empty /\
  nth 1 (chans recorder busyManager) Closed = Empty /\
  nth 0 (chans recorder (Close recorder busyManager)) Empty = Closed /\
  nth 1 (chans recorder (Close recorder busyManager)) Empty = Closed /\
  receive Closed = Some (mkResponse None None) /\
  request_finish unit toyUnmarshal (mkResponse None None) false
  = Panics unit "invalid memory address or nil pointer dereference" /\
  request_finish unit toyUnmarshal (mkResponse None None) true
  = Panics unit "invalid memory address or nil pointer dereference".
Proof.
  split; [reflexivity|]. split; [reflexivity|]. split; [reflexivity|].
  split; [reflexivity|]. split; [reflexivity|]. split; [reflexivity|].
  split; [reflexivity|]. split; reflexivity.
Qed.

End ManagerClaims.
